(** * Browser agent: orchestrator loop, visual delegate, overlay heuristic
      and session connection manager

    A shallow embedding of
    - [packages/core/src/agents/browser/browserAgent.ts]
      ([detectBlockingOverlays], [processToolResponse], [BrowserAgent.runTask],
      [BrowserAgent.runVisualDelegate], [BrowserAgent.captureScreenshot]) and
    - the browser manager ([BrowserManager.getMcpClient],
      [ensureConnection], [ensureBrowserLaunched], [launchBrowser],
      [connectMcp]),
    followed by the properties of the control loop that the specification
    states.

    Strings are JavaScript strings: finite sequences of UTF-16 code units. *)

From Stdlib Require Import String Ascii.
From Stdlib Require Import List NArith ZArith Bool Arith Lia.
Import ListNotations.

Set Implicit Arguments.

(* ===================================================================== *)
(** * Part I: the program                                                 *)
(* ===================================================================== *)

(** ** JavaScript strings *)

Module Js.

(** A string is the list of its UTF-16 code units. *)
Definition jsstring : Type := list N.

(** A literal of the source whose characters are all ASCII. *)
Definition lit (s : string) : jsstring :=
  map N_of_ascii (list_ascii_of_string s).

Definition newline : jsstring := [10%N].
Definition dquote : N := 34%N.

Fixpoint str_eqb (a b : jsstring) : bool :=
  match a, b with
  | [], [] => true
  | x :: a', y :: b' => N.eqb x y && str_eqb a' b'
  | _, _ => false
  end.

(** [s.startsWith(p)] *)
Fixpoint startsWith (p s : jsstring) : bool :=
  match p, s with
  | [], _ => true
  | _ :: _, [] => false
  | x :: p', y :: s' => N.eqb x y && startsWith p' s'
  end.

(** [s.includes(p)] *)
Fixpoint includes (p s : jsstring) : bool :=
  startsWith p s ||
  match s with
  | [] => false
  | _ :: s' => includes p s'
  end.

(** WhiteSpace and LineTerminator code units of ECMAScript: what
    [String.prototype.trim] strips and what [\s] matches. *)
Definition isWhiteSpace (c : N) : bool :=
  existsb (N.eqb c)
    [9; 10; 11; 12; 13; 32; 160; 5760; 8232; 8233; 8239; 8287; 12288; 65279]%N
  || (N.leb 8192 c && N.leb c 8202).

Fixpoint trimStart (s : jsstring) : jsstring :=
  match s with
  | [] => []
  | c :: s' => if isWhiteSpace c then trimStart s' else s
  end.

Definition trimEnd (s : jsstring) : jsstring := rev (trimStart (rev s)).

(** [s.trim()] *)
Definition trim (s : jsstring) : jsstring := trimEnd (trimStart s).

(** [l.join(sep)] *)
Fixpoint join (sep : jsstring) (l : list jsstring) : jsstring :=
  match l with
  | [] => []
  | [x] => x
  | x :: rest => x ++ sep ++ join sep rest
  end.

(** [s.split(sep)] for a string separator.  [skip] counts the code units
    of a separator just matched that are still to be passed over, [cur]
    holds the current segment in reverse. *)
Fixpoint splitFrom (sep : jsstring) (skip : nat) (cur : jsstring)
    (s : jsstring) : list jsstring :=
  match s with
  | [] => [rev cur]
  | c :: s' =>
      match skip with
      | S k => splitFrom sep k cur s'
      | O =>
          if startsWith sep s
          then rev cur :: splitFrom sep (length sep - 1) [] s'
          else splitFrom sep 0 (c :: cur) s'
      end
  end.

Definition split (sep s : jsstring) : list jsstring :=
  match sep with
  | [] => map (fun c => [c]) s
  | _ :: _ => splitFrom sep 0 [] s
  end.

(** ASCII letters: [A-Z] to [a-z], every other ASCII code unit unchanged. *)
Definition lowerAscii (c : N) : N :=
  if N.leb 65 c && N.leb c 90 then (c + 32)%N else c.

(** Values that travel through the agent untyped: the arguments of a
    function call and what the loop hands back to the model.  [VOutput] is
    the object [{ output }] that [runVisualDelegate] returns, [VObject]
    any other object or array.  A number is held by its integer value;
    the agent only tests numbers for truthiness and passes them on. *)
Inductive JsVal : Type :=
| VUndefined
| VNull
| VBool (b : bool)
| VNumber (z : Z)
| VString (s : jsstring)
| VOutput (output : jsstring)
| VObject.

(** Truthiness, as [||], [!] and [if] test it. *)
Definition truthy (v : JsVal) : bool :=
  match v with
  | VUndefined | VNull => false
  | VBool b => b
  | VNumber z => negb (Z.eqb z 0)
  | VString s => match s with [] => false | _ :: _ => true end
  | VOutput _ | VObject => true
  end.

(** [a || b] *)
Definition orElse (a b : JsVal) : JsVal := if truthy a then a else b.

(** [a ?? b] *)
Definition coalesce (a b : JsVal) : JsVal :=
  match a with
  | VUndefined | VNull => b
  | _ => a
  end.

(** The result record of the browser tools: [{ output?, error?, url? }]. *)
Record ToolResult : Type := {
  output : option jsstring;
  error : option jsstring;
  url : option jsstring
}.

(** The parts of the JavaScript runtime that the agent relies on and that
    are no code of the repository.
    - [lowerNonAscii before c after]: what [toLowerCase] puts for the
      non-ASCII code unit [c] standing between [before] and [after] (the
      Unicode case tables, with their context rules and surrogate pairs);
    - [valueToString]: the conversion of a value inside a template literal;
    - [jsonStringify]: [JSON.stringify] on a tool result;
    - [readUndefined key]: the message of the [TypeError] raised when the
      property [key] of [undefined] is read. *)
Class Runtime : Type := {
  lowerNonAscii : jsstring -> N -> jsstring -> jsstring;
  valueToString : JsVal -> jsstring;
  jsonStringify : ToolResult -> jsstring;
  readUndefined : jsstring -> jsstring
}.

Section WithRuntime.
Context {rt : Runtime}.

Fixpoint lowerFrom (before s : jsstring) : jsstring :=
  match s with
  | [] => []
  | c :: s' =>
      (if N.ltb c 128 then [lowerAscii c] else lowerNonAscii before c s')
      ++ lowerFrom (before ++ [c]) s'
  end.

(** [s.toLowerCase()] *)
Definition toLowerCase (s : jsstring) : jsstring := lowerFrom [] s.

End WithRuntime.

(** [\S+] at the head of [s]: the longest run of code units that are not
    white space. *)
Fixpoint nonSpaceRun (s : jsstring) : jsstring :=
  match s with
  | [] => []
  | c :: s' => if isWhiteSpace c then [] else c :: nonSpaceRun s'
  end.

(** [line.match(/uid=(\S+)/)]: the first capture group of the leftmost
    match, [None] when the pattern does not match. *)
Fixpoint matchUid (s : jsstring) : option jsstring :=
  match s with
  | [] => None
  | _ :: s' =>
      if startsWith (lit "uid=") s
      then match nonSpaceRun (skipn 4 s) with
           | [] => matchUid s'
           | run => Some run
           end
      else matchUid s'
  end.

(** *** Notions used to state properties *)

(** No occurrence of the separator begins inside [pre] when [pre] is
    followed by the separator: the separator after [pre] is the first. *)
Definition firstAt (sep pre : jsstring) : bool :=
  negb (includes sep (pre ++ removelast sep)).

(** An ASCII code unit that [toLowerCase] leaves as it is. *)
Definition lowerFixed (c : N) : bool := N.ltb c 128 && N.eqb (lowerAscii c) c.

(** A runtime whose case tables leave every non-ASCII code unit alone and
    whose conversions give the empty string: enough to run the agent on
    ASCII input. *)
Definition plainRuntime : Runtime :=
  {| lowerNonAscii := fun _ c _ => [c];
     valueToString := fun v => match v with VString s => s | _ => [] end;
     jsonStringify := fun _ => [];
     readUndefined := fun _ => [] |}.

End Js.

(** ** The overlay heuristic: [detectBlockingOverlays] *)

Module Overlay.
Import Js.

Definition overlayRoles : list jsstring :=
  [lit "dialog"; lit "alertdialog"; lit "tooltip"].

(** The ninth entry of the source is the multiplication sign, U+00D7. *)
Definition closeButtonPatterns : list jsstring :=
  [lit "close"; lit "dismiss"; lit "got it"; lit "no thanks"; lit "accept";
   lit "ok"; [215%N]; lit "x button"; lit "cancel"].

(** The template [role="${role}"]. *)
Definition roleAttribute (role : jsstring) : jsstring :=
  lit "role=" ++ dquote :: role ++ [dquote].

(** The template [ ${role} ]: the role as a word between two spaces. *)
Definition roleWord (role : jsstring) : jsstring :=
  32%N :: role ++ [32%N].

Definition ariaModal : jsstring :=
  lit "aria-modal=" ++ dquote :: lit "true" ++ [dquote].

Record CloseButton : Type := { uid : jsstring; text : jsstring }.

(** The two arrays that the loop over the lines fills. *)
Record Found : Type := {
  overlayElements : list jsstring;
  closeButtons : list CloseButton
}.

(** [for (const role of overlayRoles) { if (...) { push; break; } }] *)
Fixpoint scanRoles (roles : list jsstring) (line lowerLine : jsstring)
    (els : list jsstring) : list jsstring :=
  match roles with
  | [] => els
  | role :: roles' =>
      if includes (roleAttribute role) lowerLine
         || includes (roleWord role) lowerLine
      then els ++ [trim line]
      else scanRoles roles' line lowerLine els
  end.

(** [for (const closeText of closeButtonPatterns) { if (...) { push; break; } }] *)
Fixpoint scanCloseTexts (patterns : list jsstring) (u line lowerLine : jsstring)
    (btns : list CloseButton) : list CloseButton :=
  match patterns with
  | [] => btns
  | closeText :: patterns' =>
      if includes closeText lowerLine
         && (includes (lit "button") lowerLine || includes (lit "link") lowerLine)
      then btns ++ [{| uid := u; text := trim line |}]
      else scanCloseTexts patterns' u line lowerLine btns
  end.

Section WithRuntime.
Context {rt : Runtime}.

(** The body of [for (const line of lines)]. *)
Definition scanLine (acc : Found) (line : jsstring) : Found :=
  let lowerLine := toLowerCase line in
  let els1 := scanRoles overlayRoles line lowerLine (overlayElements acc) in
  let els2 :=
    if includes ariaModal lowerLine then els1 ++ [trim line] else els1 in
  let btns :=
    match matchUid line with
    | Some u =>
        scanCloseTexts closeButtonPatterns u line lowerLine (closeButtons acc)
    | None => closeButtons acc
    end in
  {| overlayElements := els2; closeButtons := btns |}.

Definition scanLines (lines : list jsstring) : Found :=
  fold_left scanLine lines {| overlayElements := []; closeButtons := [] |}.

Record OverlayCheck : Type := {
  hasOverlay : bool;
  overlayInfo : jsstring;
  suggestedAction : jsstring
}.

Definition detectBlockingOverlays (snapshot : jsstring) : OverlayCheck :=
  let lines := split newline snapshot in
  let found := scanLines lines in
  {| hasOverlay := Nat.ltb 0 (length (overlayElements found));
     overlayInfo :=
       if Nat.ltb 0 (length (overlayElements found))
       then lit "Detected overlay elements:" ++ newline
            ++ join newline (firstn 3 (overlayElements found))
       else [];
     suggestedAction :=
       if Nat.ltb 0 (length (closeButtons found))
       then lit "Found potential close buttons: "
            ++ join (lit ", ")
                 (map (fun b => lit "uid=" ++ uid b) (closeButtons found))
       else [] |}.

(** *** Notions used to state properties *)

(** A line that the heuristic counts as showing an overlay. *)
Definition roleHit (lowerLine : jsstring) : bool :=
  existsb (fun role => includes (roleAttribute role) lowerLine
                       || includes (roleWord role) lowerLine) overlayRoles.

Definition overlayLine (line : jsstring) : bool :=
  roleHit (toLowerCase line) || includes ariaModal (toLowerCase line).

(** The entries that one line adds to [overlayElements]. *)
Definition lineOverlays (line : jsstring) : list jsstring :=
  (if roleHit (toLowerCase line) then [trim line] else [])
  ++ (if includes ariaModal (toLowerCase line) then [trim line] else []).

End WithRuntime.

(** The four markers that the specification names. *)
Definition overlayMarkers : list jsstring :=
  map roleAttribute overlayRoles ++ [ariaModal].

(** Snapshots to try the heuristic on. *)

(** A dialog with a close button, as the protocol server prints it. *)
Definition dialogSnapshot : jsstring :=
  lit "uid=1_0 dialog Cookies" ++ newline ++ lit "uid=1_1 button Close".

Definition attributeSnapshot : jsstring :=
  lit "uid=2_0 div role=" ++ dquote :: lit "dialog" ++ [dquote].

Definition plainSnapshot : jsstring :=
  lit "uid=3_0 heading Welcome" ++ newline ++ lit "uid=3_1 button Login".

(** The close button that one line adds to [closeButtons], if any. *)
Definition lineButtons {rt : Runtime} (line : jsstring) : list CloseButton :=
  match matchUid line with
  | Some u =>
      if existsb (fun closeText => includes closeText (toLowerCase line))
           closeButtonPatterns
         && (includes (lit "button") (toLowerCase line)
             || includes (lit "link") (toLowerCase line))
      then [{| uid := u; text := trim line |}]
      else []
  | None => []
  end.

(** A string of ASCII code units, and its lower-case form. *)
Definition isAscii (q : jsstring) : bool := forallb (fun c => N.ltb c 128) q.

Definition lowerAsciiString (q : jsstring) : jsstring := map lowerAscii q.

(** What the heuristic looks for in a line in lower case: the four
    markers and the three role names as words. *)
Definition overlayPatterns : list jsstring :=
  overlayMarkers ++ map roleWord overlayRoles.

(** A dialog whose role is printed in capitals. *)
Definition shoutingSnapshot : jsstring :=
  lit "uid=4_0 DIALOG Subscribe" ++ newline ++ lit "uid=4_1 BUTTON No Thanks".

End Overlay.

(** ** Tool responses: [processToolResponse] *)

Module Response.
Import Js.

(** One element of the [content] array of a protocol response:
    [{type: 'text', text}], [{type: 'resource', resource: {uri}}], or an
    element of another type.  A text element without [text] has the empty
    text, which the source treats alike. *)
Inductive ContentItem : Type :=
| TextItem (text : jsstring)
| ResourceItem (uri : jsstring)
| OtherItem.

Definition marker : jsstring := lit "## Latest page snapshot".

Record Channels : Type := { textOutput : jsstring; foundSnapshot : jsstring }.

(** [parts[i]] of the array that [split] returns, [None] for [undefined]. *)
Definition part (parts : list jsstring) (i : nat) : option jsstring :=
  nth_error parts i.

Definition nonEmpty (s : jsstring) : bool :=
  match s with [] => false | _ :: _ => true end.

(** The body of [for (const item of responseContent)]. *)
Definition processItem (acc : Channels) (item : ContentItem) : Channels :=
  match item with
  | TextItem t =>
      if nonEmpty t then
        if includes marker t then
          let parts := split marker t in
          let p0 := match part parts 0 with Some p => p | None => [] end in
          let out1 :=
            if nonEmpty (trim p0)
            then textOutput acc ++ trim p0 ++ newline
            else textOutput acc in
          let snap1 :=
            match part parts 1 with
            | Some p1 => if nonEmpty p1 then trim p1 else foundSnapshot acc
            | None => foundSnapshot acc
            end in
          {| textOutput := out1; foundSnapshot := snap1 |}
        else if includes (lit "uid=") t then
          {| textOutput := textOutput acc;
             foundSnapshot := foundSnapshot acc ++ t |}
        else
          {| textOutput := textOutput acc ++ t;
             foundSnapshot := foundSnapshot acc |}
      else acc
  | ResourceItem u =>
      {| textOutput := textOutput acc ++ lit "[Resource: " ++ u ++ lit "]" ++ newline;
         foundSnapshot := foundSnapshot acc |}
  | OtherItem => acc
  end.

Record Processed : Type := { text : jsstring; snapshot : jsstring }.

Definition processToolResponse (responseContent : list ContentItem) : Processed :=
  let acc := fold_left processItem responseContent
               {| textOutput := []; foundSnapshot := [] |} in
  {| text := trim (textOutput acc); snapshot := trim (foundSnapshot acc) |}.

(** *** Notions used to state properties *)

(** The response text of the specification:
    [foo], a line feed, the marker, a line feed, [uid=1 button "A"]. *)
Definition exampleText : jsstring :=
  lit "foo" ++ newline ++ marker ++ newline
  ++ lit "uid=1 button " ++ dquote :: lit "A" ++ [dquote].

(** A text part in which the marker stands twice. *)
Definition twiceMarked : jsstring :=
  lit "a" ++ marker ++ lit "b" ++ marker ++ lit "c".

(** Whether cutting [t] at [k] gives a text before the marker and a text
    after it that are the two channels, once trimmed. *)
Definition fits (t : jsstring) (k : nat) : bool :=
  str_eqb (trim (firstn k t)) (text (processToolResponse [TextItem t]))
  && str_eqb (trim (skipn (k + length marker) t))
       (snapshot (processToolResponse [TextItem t])).

(** What an element adds to the narrative channel when it carries no
    snapshot. *)
Definition narrative (item : ContentItem) : jsstring :=
  match item with
  | TextItem t => t
  | ResourceItem u => lit "[Resource: " ++ u ++ lit "]" ++ newline
  | OtherItem => []
  end.

(** An element that carries no snapshot: no text with the marker or with
    [uid=]. *)
Definition plain (item : ContentItem) : bool :=
  match item with
  | TextItem t => negb (includes marker t) && negb (includes (lit "uid=") t)
  | _ => true
  end.

End Response.

(** ** The agent: data, effects and the outside world *)

Module Agent.
Import Js Response.

(** The argument object of a function call, in property order. *)
Definition Args : Type := list (jsstring * JsVal).

(** [args[key]] *)
Fixpoint get (args : Args) (key : jsstring) : JsVal :=
  match args with
  | [] => VUndefined
  | (k, v) :: rest => if str_eqb k key then v else get rest key
  end.

(** A function call as the model emits it; both fields may be missing. *)
Record FunctionCall : Type := {
  name : option jsstring;
  args : option Args
}.

(** Parts of a message sent to a model. *)
Inductive Part : Type :=
| TextPart (text : jsstring)
| FunctionResponse (name : jsstring) (text : JsVal)
| VisualFunctionResponse (name : option jsstring) (response : ToolResult)
| InlineData (data : jsstring).

(** A part of a response of the visual model. *)
Record ModelPart : Type := {
  partText : option jsstring;
  functionCall : option FunctionCall
}.

Inductive Content : Type :=
| UserContent (parts : list Part)
| ModelContent (parts : option (list ModelPart)).

(** One event of the response stream of the orchestrator model:
    whether it is a chunk, the subject of its first thought part,
    the joined text of its other parts, and [chunk.functionCalls]. *)
Record StreamEvent : Type := {
  isChunk : bool;
  thoughtSubject : option jsstring;
  chunkText : jsstring;
  chunkCalls : option (list FunctionCall)
}.

(** Outcome of an operation of the outside world.  An exception is held by
    the text that [e instanceof Error ? e.message : String(e)] gives. *)
Inductive Res (A : Type) : Type :=
| Ok (a : A)
| Throw (message : jsstring).
Arguments Ok {A} a.
Arguments Throw {A} message.

(** How one pass through a loop body ends. *)
Inductive Flow (V R : Type) : Type :=
| Continue (v : V)
| Break (v : V)
| Return (r : R).
Arguments Continue {V R} v.
Arguments Break {V R} v.
Arguments Return {V R} r.

(** What [chat.sendMessageStream] does: it throws, or it hands out a stream
    that yields [events] and then ends, normally or with an exception. *)
Inductive StreamOutcome : Type :=
| SendThrows (message : jsstring)
| Stream (events : list StreamEvent) (failure : option jsstring).

Inductive ToolsMethod : Type :=
| TakeSnapshot | ScrollDocument | Pagedown | Pageup | OpenWebBrowser
| ClickAt | TypeTextAt | DragAndDrop | PressKey.

(** The messages handed to [printOutput]. *)
Inductive Notice : Type :=
| NMessage (msg : jsstring)
| NCancelled
| NThought (subject : jsstring)
| NVisualAgent (instruction : JsVal)
| NGenerating (name : option jsstring)
| NNoName
| NExecuting (fnName : jsstring) (fnArgs : Args)
| NCompleted (summary : JsVal)
| NPrompting
| NVisualCancelled
| NVisualTurn (turn : nat) (textResponse : jsstring) (calls : list FunctionCall).

(** The messages handed to [debugLogger.log]. *)
Inductive DebugNote : Type :=
| DConnecting
| DConnected
| DMessage (msg : jsstring)
| DOverlayDetected (overlayInfo : jsstring)
| DSnapshotFailed (e : jsstring)
| DCancelledByUser
| DCallingModel (turn parts : nat)
| DCancelledStreaming
| DCancelledAfterModel
| DEmptyStreamContinuing
| DNoName
| DCancelledBeforeTool
| DBlocked
| DCompleted
| DNoTools
| DFinished
| DScreenshotFailed (e : jsstring).

(** What the agent does to the outside world. *)
Inductive Effect : Type :=
| Debug (d : DebugNote)
| Print (n : Notice)
| EnsureConnection
| UpdateBorderOverlay (active capturing : bool)
| SendMessageStream (messageParts : list Part)
| GetMcpClient
| CallTool (tool : jsstring) (toolArgs : Args)
| BrowserTool (method : ToolsMethod) (methodArgs : list JsVal)
| BringToFront
| PageScreenshot
| GenerateContent (contents : list Content).

(** The outside world.  Time is counted in suspension points: every
    awaited operation takes one tick, and what an operation answers may
    depend on when it is asked and on what it is asked.  [abortAt] is the
    tick at which the abort signal is raised, if ever; once raised, it
    stays raised. *)
Record Env : Type := {
  abortAt : option nat;
  ensureConnection : nat -> Res unit;
  sendMessageStream : nat -> list Part -> StreamOutcome;
  getMcpClient : nat -> Res unit;
  callTool : nat -> jsstring -> Args -> Res (option (list ContentItem));
  browserTool : nat -> ToolsMethod -> list JsVal -> Res ToolResult;
  bringToFront : nat -> Res unit;
  pageScreenshot : nat -> Res jsstring;
  generateContent : nat -> list Content -> Res (option (option (list ModelPart)))
}.

(** A run of a piece of the agent starts at some tick; it ends with a
    result or an exception, at the tick [endTick], and has had [effects] on
    the outside world, oldest first, each with the tick at which it
    started. *)
#[projections(primitive)]
Record Run (A : Type) : Type := {
  result : Res A;
  endTick : nat;
  effects : list (nat * Effect)
}.
Arguments result {A} r.
Arguments endTick {A} r.
Arguments effects {A} r.

Definition M (A : Type) : Type := nat -> Run A.

Definition ret {A} (a : A) : M A :=
  fun t => {| result := Ok a; endTick := t; effects := [] |}.

Definition throw {A} (message : jsstring) : M A :=
  fun t => {| result := Throw message; endTick := t; effects := [] |}.

Definition bind {A B} (m : M A) (k : A -> M B) : M B :=
  fun t =>
    let r := m t in
    match result r with
    | Ok a =>
        let r' := k a (endTick r) in
        {| result := result r';
           endTick := endTick r';
           effects := effects r ++ effects r' |}
    | Throw e =>
        {| result := Throw e; endTick := endTick r; effects := effects r |}
    end.

(** [try { m } catch (e) { handler e }] *)
Definition tryCatch {A} (m : M A) (handler : jsstring -> M A) : M A :=
  fun t =>
    let r := m t in
    match result r with
    | Ok a => r
    | Throw e =>
        let r' := handler e (endTick r) in
        {| result := result r';
           endTick := endTick r';
           effects := effects r ++ effects r' |}
    end.

Declare Scope agent_scope.
Delimit Scope agent_scope with agent.
Notation "x <- m ;; k" := (bind m (fun x => k))
  (at level 61, m at next level, right associativity) : agent_scope.
Notation "m ;; k" := (bind m (fun _ => k))
  (at level 61, right associativity) : agent_scope.
Notation "' pat <- m ;; k" := (bind m (fun x => match x with pat => k end))
  (at level 61, pat pattern, m at next level, right associativity) : agent_scope.
Open Scope agent_scope.

(** An effect that takes no time: a call of [printOutput] or of the logger. *)
Definition emit (e : Effect) : M unit :=
  fun t => {| result := Ok tt; endTick := t; effects := [(t, e)] |}.

Definition print (n : Notice) : M unit := emit (Print n).
Definition debug (d : DebugNote) : M unit := emit (Debug d).

(** An awaited operation of the outside world: it answers according to the
    tick at which it is asked, and takes one tick. *)
Definition await {A} (e : Effect) (answer : nat -> Res A) : M A :=
  fun t => {| result := answer t; endTick := S t; effects := [(t, e)] |}.

(** Waiting for the next event of a stream. *)
Definition pull : M unit :=
  fun t => {| result := Ok tt; endTick := S t; effects := [] |}.

Section WithWorld.
Context {rt : Runtime} (env : Env).

(** [signal.aborted] *)
Definition isAborted (t : nat) : bool :=
  match abortAt env with
  | Some a => Nat.leb a t
  | None => false
  end.

Definition aborted : M bool :=
  fun t => {| result := Ok (isAborted t); endTick := t; effects := [] |}.

(** [this.browserTools.updateBorderOverlay(...)]: it catches whatever goes
    wrong inside, so all the caller sees is that it takes time. *)
Definition updateBorderOverlay (active capturing : bool) : M unit :=
  await (UpdateBorderOverlay active capturing) (fun _ => Ok tt).

(** [captureScreenshot]: the page is fetched and brought to front
    ([bringToFront] stands for both), then photographed between two updates
    of the border; any failure gives the empty string. *)
Definition captureScreenshot : M jsstring :=
  tryCatch
    (await BringToFront (bringToFront env);;
     updateBorderOverlay true true;;
     screenshotBase64 <- await PageScreenshot (pageScreenshot env);;
     updateBorderOverlay true false;;
     ret screenshotBase64)
    (fun e => debug (DScreenshotFailed e);; ret []).

(** [res.output || res.error || ''] *)
Definition resultText (res : ToolResult) : jsstring :=
  match output res with
  | Some (c :: o) => c :: o
  | _ => match error res with
         | Some e => e
         | None => []
         end
  end.

(** The string that a template literal shows for a name that may be
    [undefined]. *)
Definition shownName (n : option jsstring) : jsstring :=
  match n with
  | Some s => s
  | None => lit "undefined"
  end.

(** *** The visual delegate *)

Definition VISUAL_MAX_STEPS : nat := 5.

Definition visualSystemInstruction (instruction : JsVal) : jsstring :=
  lit "You are a Visual Delegate Agent. You have been delegated a specific task: "
  ++ dquote :: valueToString instruction ++ dquote :: lit "." ++ newline
  ++ lit "You have access to valid screenshot of the current state." ++ newline
  ++ lit "You MUST perform the necessary actions (click_at, type_text_at, drag_and_drop, scroll_document, press_key) to fulfill the instruction."
  ++ newline
  ++ lit "If the element is not visible, use scroll_document to find it." ++ newline
  ++ lit "Return a concise summary of your actions when done." ++ newline.

(** [call.args![key]], which throws when [call.args] is undefined. *)
Definition readArgs (call : FunctionCall) (first : jsstring) : M Args :=
  match args call with
  | Some a => ret a
  | None => throw (readUndefined first)
  end.

Definition nameIs (n : option jsstring) (s : string) : bool :=
  match n with
  | Some x => str_eqb x (lit s)
  | None => false
  end.

(** [a[k]] for a property named by a literal. *)
Definition arg (a : Args) (k : string) : JsVal := get a (lit k).

(** The [switch (call.name)] of the visual delegate. *)
Definition visualSwitch (call : FunctionCall) : M ToolResult :=
  if nameIs (name call) "click_at" then
    a <- readArgs call (lit "x");;
    await (BrowserTool ClickAt [arg a "x"; arg a "y"])
      (fun t => browserTool env t ClickAt [arg a "x"; arg a "y"])
  else if nameIs (name call) "type_text_at" then
    a <- readArgs call (lit "x");;
    let l := [arg a "x"; arg a "y"; arg a "text"; arg a "press_enter";
              arg a "clear_before_typing"] in
    await (BrowserTool TypeTextAt l) (fun t => browserTool env t TypeTextAt l)
  else if nameIs (name call) "drag_and_drop" then
    a <- readArgs call (lit "x");;
    let l := [arg a "x"; arg a "y"; arg a "dest_x"; arg a "dest_y"] in
    await (BrowserTool DragAndDrop l) (fun t => browserTool env t DragAndDrop l)
  else if nameIs (name call) "press_key" then
    a <- readArgs call (lit "key");;
    await (BrowserTool PressKey [arg a "key"])
      (fun t => browserTool env t PressKey [arg a "key"])
  else if nameIs (name call) "scroll_document" then
    a <- readArgs call (lit "direction");;
    let l := [arg a "direction"; arg a "amount"] in
    await (BrowserTool ScrollDocument l)
      (fun t => browserTool env t ScrollDocument l)
  else
    ret {| output := None;
           error := Some (lit "Unknown visual tool: " ++ shownName (name call));
           url := None |}.

(** [try { switch ... } catch (e) { funcResult = { error: message } }] *)
Definition visualCall (call : FunctionCall) : M ToolResult :=
  tryCatch (visualSwitch call)
    (fun message => ret {| output := None; error := Some message; url := None |}).

(** The entry of [actionHistory] for one call. *)
Definition historyEntry (call : FunctionCall) (funcResult : ToolResult) : jsstring :=
  lit "- " ++ shownName (name call) ++ lit "("
  ++ join (lit ", ")
       (map (fun kv => fst kv ++ lit "=" ++ valueToString (snd kv))
            (match args call with Some a => a | None => [] end))
  ++ lit ") => " ++ jsonStringify funcResult.

(** [for (const part of functionCalls)] of the visual delegate: the
    responses and the history grow by one entry per call. *)
Fixpoint visualCalls (calls : list FunctionCall)
    (functionResponses : list Part) (actionHistory : list jsstring)
    : M (list Part * list jsstring) :=
  match calls with
  | [] => ret (functionResponses, actionHistory)
  | call :: rest =>
      funcResult <- visualCall call;;
      visualCalls rest
        (functionResponses ++ [VisualFunctionResponse (name call) funcResult])
        (actionHistory ++ [historyEntry call funcResult])
  end.

(** The script that makes the protocol server drop its cached snapshot;
    a failure is ignored. *)
Definition invalidateCache : M unit :=
  tryCatch
    (await GetMcpClient (getMcpClient env);;
     let a := [(lit "function", VString (lit "() => { return true; }"))] in
     await (CallTool (lit "evaluate_script") a)
       (fun t => callTool env t (lit "evaluate_script") a);;
     ret tt)
    (fun _ => ret tt).

(** The variables of the loop of the visual delegate. *)
Record VisualVars : Type := {
  step : nat;
  contents : list Content;
  actionHistory : list jsstring
}.

Definition textsOf (ps : option (list ModelPart)) : list jsstring :=
  match ps with
  | Some l => map (fun p => match partText p with Some t => t | None => [] end) l
  | None => []
  end.

Definition callsOf (ps : option (list ModelPart)) : list FunctionCall :=
  match ps with
  | Some l => flat_map (fun p => match functionCall p with
                                  | Some c => [c]
                                  | None => []
                                  end) l
  | None => []
  end.

(** The body of [for (let i = 0; i < VISUAL_MAX_STEPS; i++)]. *)
Definition visualStep (v : VisualVars) : M (Flow VisualVars jsstring) :=
  b <- aborted;;
  if b then
    print NVisualCancelled;;
    ret (Return (lit "Visual agent cancelled by user."))
  else
    result <- await (GenerateContent (contents v))
                (fun t => generateContent env t (contents v));;
    match result with
    | None => ret (Break v)
    | Some response =>
        let textResponse := concat (textsOf response) in
        let functionCalls := callsOf response in
        (if nonEmpty textResponse || negb (Nat.eqb (length functionCalls) 0)
         then print (NVisualTurn (step v + 1) textResponse functionCalls)
         else ret tt);;
        let contents1 := contents v ++ [ModelContent response] in
        if Nat.eqb (length functionCalls) 0 then
          let text := match concat (textsOf response) with
                      | [] => lit "Done"
                      | t => t
                      end in
          invalidateCache;;
          ret (Return
                 (lit "Visual Agent Completed." ++ newline
                  ++ lit "Final Message: " ++ text ++ newline
                  ++ lit "Actions Taken:" ++ newline
                  ++ join newline (actionHistory v)))
        else
          '(functionResponses, history1) <-
             visualCalls functionCalls [] (actionHistory v);;
          finalScreenshot <- captureScreenshot;;
          let functionResponses1 :=
            if nonEmpty finalScreenshot
            then functionResponses ++ [InlineData finalScreenshot]
            else functionResponses in
          ret (Continue {| step := S (step v);
                           contents := contents1 ++ [UserContent functionResponses1];
                           actionHistory := history1 |})
    end.

(** What follows the loop: the cap was reached, or the model gave no
    response. *)
Definition visualExhausted (v : VisualVars) : M jsstring :=
  invalidateCache;;
  ret (lit "Visual Agent reached max steps WITHOUT completing the task. The task may be incomplete or requires more steps."
       ++ newline ++ lit "Actions Taken:" ++ newline
       ++ join newline (actionHistory v)).

(** The loop, by the number [todo] of passes that remain:
    [todo = VISUAL_MAX_STEPS - i]. *)
Fixpoint visualLoop (todo : nat) (v : VisualVars) : M jsstring :=
  match todo with
  | O => visualExhausted v
  | S todo' =>
      f <- visualStep v;;
      match f with
      | Continue v' => visualLoop todo' v'
      | Break v' => visualExhausted v'
      | Return r => ret r
      end
  end.

(** [runVisualDelegate]; the result is the [output] of the object it
    returns. *)
Definition runVisualDelegate (instruction : JsVal) (initialScreenshot : jsstring)
    : M jsstring :=
  let initialParts :=
    TextPart (visualSystemInstruction instruction)
    :: (if nonEmpty initialScreenshot then [InlineData initialScreenshot] else []) in
  visualLoop VISUAL_MAX_STEPS
    {| step := 0; contents := [UserContent initialParts]; actionHistory := [] |}.

(** *** The orchestrator *)

Definition MAX_ITERATIONS : nat := 20.

(** The variables of the loop of [runTask]. *)
Record Vars : Type := {
  currentInputParts : list Part;
  iterationCount : nat;
  taskCompleted : bool;
  taskSummary : JsVal
}.

Definition setInput (parts : list Part) (v : Vars) : Vars :=
  {| currentInputParts := parts;
     iterationCount := iterationCount v;
     taskCompleted := taskCompleted v;
     taskSummary := taskSummary v |}.

Definition complete (summary : JsVal) (v : Vars) : Vars :=
  {| currentInputParts := currentInputParts v;
     iterationCount := iterationCount v;
     taskCompleted := true;
     taskSummary := summary |}.

(** [iterationCount++] *)
Definition nextIteration (v : Vars) : Vars :=
  {| currentInputParts := currentInputParts v;
     iterationCount := S (iterationCount v);
     taskCompleted := taskCompleted v;
     taskSummary := taskSummary v |}.

(** The thirteen cases of [switch (fnName)] that hand the call to the
    protocol client, each with the operation it calls. *)
Definition forwarded : list (jsstring * jsstring) :=
  [(lit "navigate", lit "navigate_page"); (lit "click", lit "click");
   (lit "hover", lit "hover"); (lit "fill", lit "fill");
   (lit "fill_form", lit "fill_form"); (lit "upload_file", lit "upload_file");
   (lit "get_element_text", lit "get_element_text");
   (lit "wait_for", lit "wait_for"); (lit "handle_dialog", lit "handle_dialog");
   (lit "evaluate_script", lit "evaluate_script");
   (lit "press_key", lit "press_key"); (lit "drag", lit "drag");
   (lit "close_page", lit "close_page")].

Fixpoint operationOf (table : list (jsstring * jsstring)) (fnName : jsstring)
    : option jsstring :=
  match table with
  | [] => None
  | (n, op) :: rest => if str_eqb fnName n then Some op else operationOf rest fnName
  end.

(** The names whose raw content goes through [processToolResponse]. *)
Definition postProcessed : list jsstring :=
  [lit "navigate"; lit "click"; lit "hover"; lit "fill"; lit "fill_form";
   lit "get_element_text"; lit "wait_for"; lit "handle_dialog";
   lit "press_key"; lit "drag"; lit "close_page"].

Definition fromTool (method : ToolsMethod) (l : list JsVal)
    : M JsVal :=
  res <- await (BrowserTool method l) (fun t => browserTool env t method l);;
  ret (VString (resultText res)).

(** [switch (fnName)]: the raw content, the function response and the
    variables after it. *)
Definition toolSwitch (fnName : jsstring) (fnArgs : Args) (v : Vars)
    : M (list ContentItem * JsVal * Vars) :=
  match operationOf forwarded fnName with
  | Some operation =>
      r <- await (CallTool operation fnArgs)
             (fun t => callTool env t operation fnArgs);;
      ret (match r with Some c => c | None => [] end, VUndefined, v)
  | None =>
      if str_eqb fnName (lit "take_snapshot") then
        r <- fromTool TakeSnapshot [coalesce (arg fnArgs "verbose") (VBool false)];;
        ret ([], r, v)
      else if str_eqb fnName (lit "complete_task") then
        let summary := orElse (arg fnArgs "summary") (VString (lit "Task completed")) in
        print (NCompleted summary);;
        ret ([], summary, complete summary v)
      else if str_eqb fnName (lit "delegate_to_visual_agent") then
        screen <- captureScreenshot;;
        visualRes <- runVisualDelegate
                       (orElse (arg fnArgs "instruction") (VString [])) screen;;
        ret ([], VOutput visualRes, v)
      else if str_eqb fnName (lit "scroll_document") then
        r <- fromTool ScrollDocument [arg fnArgs "direction"; arg fnArgs "amount"];;
        ret ([], r, v)
      else if str_eqb fnName (lit "pagedown") then
        r <- fromTool Pagedown [];; ret ([], r, v)
      else if str_eqb fnName (lit "pageup") then
        r <- fromTool Pageup [];; ret ([], r, v)
      else if str_eqb fnName (lit "open_web_browser") then
        r <- fromTool OpenWebBrowser [];; ret ([], r, v)
      else
        ret ([], VString (lit "Error: Tool " ++ fnName
                          ++ lit " not recognized or supported directly."), v)
  end.

(** [p.text || ''] *)
Definition itemText (p : ContentItem) : jsstring :=
  match p with
  | TextItem t => t
  | _ => []
  end.

(** The body of the [try] block of one tool execution. *)
Definition toolBody (fnName : jsstring) (fnArgs : Args) (v : Vars)
    : M (JsVal * Vars) :=
  await GetMcpClient (getMcpClient env);;
  '(rawContent, functionResponse, v1) <- toolSwitch fnName fnArgs v;;
  if existsb (str_eqb fnName) postProcessed then
    ret (VString (text (processToolResponse rawContent)), v1)
  else if negb (truthy functionResponse) && negb (Nat.eqb (length rawContent) 0) then
    ret (VString (join newline (map itemText rawContent)), v1)
  else
    ret (functionResponse, v1).

Definition blockedSignals : list jsstring :=
  [lit "not interactable"; lit "obscured"; lit "intercept"; lit "blocked"].

(** The hint starts with a warning sign, U+26A0 U+FE0F. *)
Definition overlayHint : jsstring :=
  newline ++ newline ++ [9888%N; 65039%N]
  ++ lit " This action may have been blocked by an overlay, popup, or tooltip. Look for close/dismiss buttons in the accessibility tree and click them first.".

(** [typeof functionResponse === 'string'] and one of the signals of a
    blocked click is in it. *)
Definition isBlocked (functionResponse : JsVal) : bool :=
  match functionResponse with
  | VString s => existsb (fun sig => includes sig s) blockedSignals
  | _ => false
  end.

(** [functionResponse += hint], for a string. *)
Definition appendHint (functionResponse : JsVal) : JsVal :=
  match functionResponse with
  | VString s => VString (s ++ overlayHint)
  | other => other
  end.

(** The check for a click blocked by an overlay. *)
Definition withHint (functionResponse : JsVal) : M JsVal :=
  if isBlocked functionResponse
  then debug DBlocked;; ret (appendHint functionResponse)
  else ret functionResponse.

(** One tool execution: from the announcement to the push of the
    function response. *)
Definition executeCall (fnName : jsstring) (fnArgs : Args) (v : Vars) : M Vars :=
  print (NExecuting fnName fnArgs);;
  '(functionResponse, v1) <-
     tryCatch (toolBody fnName fnArgs v)
       (fun error =>
          ret (VString (lit "Error executing " ++ fnName ++ lit ": " ++ error), v));;
  functionResponse1 <- withHint functionResponse;;
  ret (setInput (currentInputParts v1 ++ [FunctionResponse fnName functionResponse1]) v1).

(** [for (const call of functionCalls)] *)
Fixpoint executeCalls (calls : list FunctionCall) (v : Vars) : M Vars :=
  match calls with
  | [] => ret v
  | call :: rest =>
      b <- aborted;;
      if b then
        print NCancelled;; debug DCancelledBeforeTool;; ret v
      else
        match name call with
        | Some (c :: n) =>
            v1 <- executeCall (c :: n)
                    (match args call with Some a => a | None => [] end) v;;
            executeCalls rest v1
        | _ =>
            debug DNoName;; print NNoName;; executeCalls rest v
        end
  end.

(** The announcements for the calls of one chunk. *)
Fixpoint announce (calls : list FunctionCall) : M unit :=
  match calls with
  | [] => ret tt
  | call :: rest =>
      let instruction :=
        match args call with
        | Some a => arg a "instruction"
        | None => VUndefined
        end in
      (if nameIs (name call) "delegate_to_visual_agent" && truthy instruction
       then print (NVisualAgent instruction)
       else print (NGenerating (name call)));;
      announce rest
  end.

(** What the loop collects from the stream. *)
Record Collected : Type := {
  functionCalls : list FunctionCall;
  textResponse : jsstring
}.

(** The body of [for await (const event of stream)], after the check of
    the abort signal. *)
Definition onEvent (event : StreamEvent) (acc : Collected) : M Collected :=
  if isChunk event then
    (match thoughtSubject event with
     | Some (c :: subject) => print (NThought (c :: subject))
     | _ => ret tt
     end);;
    let text1 := textResponse acc ++ chunkText event in
    match chunkCalls event with
    | Some calls =>
        announce calls;;
        ret {| functionCalls := functionCalls acc ++ calls; textResponse := text1 |}
    | None =>
        ret {| functionCalls := functionCalls acc; textResponse := text1 |}
    end
  else ret acc.

(** [for await (const event of stream)] *)
Fixpoint consume (events : list StreamEvent) (failure : option jsstring)
    (acc : Collected) : M Collected :=
  match events with
  | [] =>
      pull;;
      match failure with
      | Some e => throw e
      | None => ret acc
      end
  | event :: rest =>
      pull;;
      b <- aborted;;
      if b then debug DCancelledStreaming;; ret acc
      else
        acc1 <- onEvent event acc;;
        consume rest failure acc1
  end.

(** How the call of the model ends. *)
Inductive Turn : Type :=
| TurnCancelled
| TurnFailed (msg : jsstring)
| TurnDone (c : Collected).

Definition emptyStreamText : jsstring :=
  lit "Model stream ended with empty response text".

(** The [try]/[catch] around the call of the model. *)
Definition modelTurn (messageParts : list Part) : M Turn :=
  tryCatch
    (outcome <- await (SendMessageStream messageParts)
                  (fun t => Ok (sendMessageStream env t messageParts));;
     acc <- match outcome with
            | SendThrows e => throw e
            | Stream events failure =>
                consume events failure {| functionCalls := []; textResponse := [] |}
            end;;
     b <- aborted;;
     if b then
       print NCancelled;; debug DCancelledAfterModel;; ret TurnCancelled
     else ret (TurnDone acc))
    (fun e =>
       let msg := lit "Error calling model: " ++ e in
       (if includes emptyStreamText msg
        then debug DEmptyStreamContinuing
        else ret tt);;
       debug (DMessage msg);;
       print (NMessage msg);;
       ret (TurnFailed msg)).

Definition completionPrompt : jsstring :=
  lit "You must call the complete_task tool to finish. If the task is done, call complete_task with a summary. If you cannot complete the task, call complete_task explaining why.".

(** The second half of the body of the loop: [if (functionCalls.length > 0)
    { ... } else { ... }] and [iterationCount++].  The writing of the turn
    to the session log, which stands between the call of the model and
    this, is left out: the loop does not wait for it and takes nothing
    from it. *)
Definition afterModel (v : Vars) (acc : Collected) : M (Flow Vars JsVal) :=
  if Nat.ltb 0 (length (functionCalls acc)) then
    v1 <- executeCalls (functionCalls acc) (setInput [] v);;
    if taskCompleted v1 then
      debug DCompleted;; ret (Break v1)
    else ret (Continue (nextIteration v1))
  else
    debug DNoTools;;
    print NPrompting;;
    ret (Continue (nextIteration (setInput [TextPart completionPrompt] v))).

(** The body of [while (iterationCount < MAX_ITERATIONS)]. *)
Definition iteration (v : Vars) : M (Flow Vars JsVal) :=
  b <- aborted;;
  if b then
    print NCancelled;; debug DCancelledByUser;; ret (Break v)
  else
    let messageParts := currentInputParts v in
    debug (DCallingModel (iterationCount v + 1) (length messageParts));;
    t <- modelTurn messageParts;;
    match t with
    | TurnCancelled => ret (Break v)
    | TurnFailed msg => ret (Return (VString msg))
    | TurnDone acc => afterModel v acc
    end.

(** What follows the loop. *)
Definition finish (v : Vars) : M JsVal :=
  debug DFinished;;
  ret (orElse (taskSummary v) (VString (lit "Task finished"))).

(** The loop, by the number [todo] of iterations that remain:
    [todo = MAX_ITERATIONS - iterationCount]. *)
Fixpoint taskLoop (todo : nat) (v : Vars) : M JsVal :=
  match todo with
  | O => finish v
  | S todo' =>
      f <- iteration v;;
      match f with
      | Continue v' => taskLoop todo' v'
      | Break v' => finish v'
      | Return r => ret r
      end
  end.

Definition overlayWarning (check : Overlay.OverlayCheck) : jsstring :=
  [9888%N; 65039%N] ++ lit " BLOCKING OVERLAY DETECTED: "
  ++ Overlay.overlayInfo check ++ newline
  ++ Overlay.suggestedAction check ++ newline
  ++ lit "Please dismiss this overlay before proceeding.".

Definition isTextItem (p : ContentItem) : bool :=
  match p with
  | TextItem _ => true
  | _ => false
  end.

(** The first input: the task, and the initial snapshot when it can be
    taken. *)
Definition initialInput (prompt : jsstring) : M (list Part) :=
  let parts := [TextPart (lit "Task: " ++ prompt)] in
  tryCatch
    (await GetMcpClient (getMcpClient env);;
     let a := [(lit "verbose", VBool false)] in
     snapContent <- await (CallTool (lit "take_snapshot") a)
                      (fun t => callTool env t (lit "take_snapshot") a);;
     match snapContent with
     | Some content =>
         let initialSnapshot := concat (map itemText (filter isTextItem content)) in
         if nonEmpty initialSnapshot then
           let overlayCheck := Overlay.detectBlockingOverlays initialSnapshot in
           parts1 <-
             (if Overlay.hasOverlay overlayCheck then
                debug (DOverlayDetected (Overlay.overlayInfo overlayCheck));;
                ret (parts ++ [TextPart (overlayWarning overlayCheck)])
              else ret parts);;
           ret (parts1 ++ [TextPart (lit "<accessibility_tree>" ++ newline
                                    ++ initialSnapshot ++ newline
                                    ++ lit "</accessibility_tree>")])
         else ret parts
     | None => ret parts
     end)
    (fun e => debug (DSnapshotFailed e);; ret parts).

(** [runTask(prompt, signal, printOutput)] *)
Definition runTask (prompt : jsstring) : M JsVal :=
  debug DConnecting;;
  failed <-
    tryCatch
      (await EnsureConnection (ensureConnection env);;
       updateBorderOverlay true false;;
       debug DConnected;;
       ret None)
      (fun e =>
         let msg := lit "Error: Failed to connect to browser: " ++ e in
         debug (DMessage msg);;
         print (NMessage msg);;
         ret (Some msg));;
  match failed with
  | Some msg => ret (VString msg)
  | None =>
      updateBorderOverlay true false;;
      parts <- initialInput prompt;;
      taskLoop MAX_ITERATIONS
        {| currentInputParts := parts;
           iterationCount := 0;
           taskCompleted := false;
           taskSummary := VString [] |}
  end.

(** *** Notions used to state properties *)

(** [k] passes through the body of the loop of [runTask], begun at tick
    [t] with the variables [v], each of which goes on to the next: the
    variables and the tick after them. *)
Fixpoint passes (k : nat) (v : Vars) (t : nat) : option (Vars * nat) :=
  match k with
  | O => Some (v, t)
  | S k' =>
      match result (iteration v t) with
      | Ok (Continue v') => passes k' v' (endTick (iteration v t))
      | _ => None
      end
  end.

(** The same for the loop of the visual delegate. *)
Fixpoint visualPasses (k : nat) (v : VisualVars) (t : nat)
    : option (VisualVars * nat) :=
  match k with
  | O => Some (v, t)
  | S k' =>
      match result (visualStep v t) with
      | Ok (Continue v') => visualPasses k' v' (endTick (visualStep v t))
      | _ => None
      end
  end.

(** The variables with which [runTask] enters its loop. *)
Definition initialVars (parts : list Part) : Vars :=
  {| currentInputParts := parts;
     iterationCount := 0;
     taskCompleted := false;
     taskSummary := VString [] |}.

(** The variables with which [runVisualDelegate] enters its loop. *)
Definition initialVisualVars (instruction : JsVal) (initialScreenshot : jsstring)
    : VisualVars :=
  {| step := 0;
     contents :=
       [UserContent
          (TextPart (visualSystemInstruction instruction)
           :: (if nonEmpty initialScreenshot
               then [InlineData initialScreenshot] else []))];
     actionHistory := [] |}.

End WithWorld.

(** *** What runs do *)

(** Every effect of every run of [m] satisfies [phi]. *)
Definition emits {A} (phi : nat * Effect -> Prop) (m : M A) : Prop :=
  forall t, Forall phi (effects (m t)).

(** No run of [m] ends with an exception. *)
Definition total {A} (m : M A) : Prop :=
  forall t, exists a, result (m t) = Ok a.

(** The kinds of effects that the claims speak of: a call of the
    orchestrator model, the start of a tool execution, a call of the
    visual model, and the execution of [complete_task]. *)
Definition isModelCall (e : Effect) : bool :=
  match e with
  | SendMessageStream _ => true
  | _ => false
  end.

Definition isExecution (e : Effect) : bool :=
  match e with
  | Print (NExecuting _ _) => true
  | _ => false
  end.

Definition isVisualModelCall (e : Effect) : bool :=
  match e with
  | GenerateContent _ => true
  | _ => false
  end.

Definition isCompletion (e : Effect) : bool :=
  match e with
  | Print (NCompleted _) => true
  | _ => false
  end.

(** How often effects of a kind occur. *)
Definition count (kind : Effect -> bool) (l : list (nat * Effect)) : nat :=
  length (filter (fun e => kind (snd e)) l).

(** The effects of a kind, without their ticks. *)
Definition only (kind : Effect -> bool) (l : list (nat * Effect)) : list Effect :=
  filter kind (map snd l).

(** Every result of [m] satisfies [P]. *)
Definition returns {A} (P : A -> Prop) (m : M A) : Prop :=
  forall t a, result (m t) = Ok a -> P a.

(** The summaries with which [complete_task] was executed. *)
Definition completions (l : list (nat * Effect)) : list JsVal :=
  flat_map (fun e => match snd e with
                     | Print (NCompleted s) => [s]
                     | _ => []
                     end) l.

(** What the loop variables are after effects [l], with respect to
    [complete_task]: the task is completed once a completion occurred, and
    the summary is that of the last one. *)
Definition flags (v : Vars) (l : list (nat * Effect)) (v1 : Vars) : Prop :=
  iterationCount v1 = iterationCount v
  /\ taskCompleted v1
     = (taskCompleted v || negb (Nat.eqb (length (completions l)) 0))
  /\ taskSummary v1 = last (completions l) (taskSummary v).

(** At most [n] effects of a kind in every run. *)
Definition atMost {A} (kind : Effect -> bool) (n : nat) (m : M A) : Prop :=
  forall t, count kind (effects (m t)) <= n.

Definition notCompletion (e : nat * Effect) : Prop := isCompletion (snd e) = false.

(** The summary that [complete_task] stores. *)
Definition summaryOf (fnArgs : Args) : JsVal :=
  orElse (arg fnArgs "summary") (VString (lit "Task completed")).

Definition hasName (call : FunctionCall) : bool :=
  match name call with
  | Some (_ :: _) => true
  | _ => false
  end.

Definition nameOf (call : FunctionCall) : jsstring :=
  match name call with
  | Some n => n
  | None => []
  end.

Definition argsOf (call : FunctionCall) : Args :=
  match args call with
  | Some a => a
  | None => []
  end.

(** The announcement of the execution of a call. *)
Definition announcement (call : FunctionCall) : Effect :=
  Print (NExecuting (nameOf call) (argsOf call)).

(** [p] is a function response under the name of [call]. *)
Definition answers (call : FunctionCall) (p : Part) : Prop :=
  exists r, p = FunctionResponse (nameOf call) r.




Definition notModelCall (e : nat * Effect) : Prop := isModelCall (snd e) = false.

Definition notVisualCall (e : nat * Effect) : Prop :=
  isVisualModelCall (snd e) = false.

(** How a pass through the body of the loop ends, with respect to
    [complete_task]. *)
Inductive Ending (v : Vars) (r : Run (Flow Vars JsVal)) : Prop :=
| Completed (v1 : Vars)
    (Hresult : result r = Ok (Break v1))
    (Hsome : completions (effects r) <> [])
    (Hsummary : taskSummary v1 = last (completions (effects r)) VUndefined)
    (Htruthy : truthy (taskSummary v1) = true)
| Stopped
    (Hresult : result r = Ok (Break v))
    (Hnone : completions (effects r) = [])
| Failed (msg : jsstring)
    (Hresult : result r = Ok (Return (VString msg)))
    (Hnone : completions (effects r) = [])
| GoesOn (v' : Vars)
    (Hresult : result r = Ok (Continue v'))
    (Hnone : completions (effects r) = [])
    (Hsummary : taskSummary v' = taskSummary v)
    (Hcount : iterationCount v' = S (iterationCount v))
    (Hopen : taskCompleted v' = false).

(** A call without a name. *)
Definition anonymous : FunctionCall := {| name := None; args := None |}.

(** A call of the orchestrator model or the start of a tool execution
    happens only while the abort signal is not raised. *)
Definition guarded (env : Env) (e : nat * Effect) : Prop :=
  isModelCall (snd e) = true \/ isExecution (snd e) = true ->
  isAborted env (fst e) = false.

(** *** Worlds to run the agent in *)

(** A call with a name and arguments. *)
Definition call (n : string) (a : Args) : FunctionCall :=
  {| name := Some (lit n); args := Some a |}.

(** A chunk that carries function calls and nothing else. *)
Definition chunkOf (calls : list FunctionCall) : StreamEvent :=
  {| isChunk := true; thoughtSubject := None; chunkText := [];
     chunkCalls := Some calls |}.

(** A world in which nothing fails and nobody cancels: the browser and its
    tools answer, the visual model gives no response, and the orchestrator
    model answers by [stream]. *)
Definition calm (stream : nat -> list Part -> StreamOutcome) : Env :=
  {| abortAt := None;
     ensureConnection := fun _ => Ok tt;
     sendMessageStream := stream;
     getMcpClient := fun _ => Ok tt;
     callTool := fun _ _ _ => Ok (Some []);
     browserTool := fun _ _ _ =>
       Ok {| output := Some (lit "ok"); error := None; url := None |};
     bringToFront := fun _ => Ok tt;
     pageScreenshot := fun _ => Ok (lit "png");
     generateContent := fun _ _ => Ok None |}.

(** The model call fails with the empty-stream error. *)
Definition emptyStreamWorld : Env :=
  calm (fun _ _ => SendThrows (lit "Model stream ended with empty response text")).

(** The model never calls a function. *)
Definition idleWorld : Env := calm (fun _ _ => Stream [] None).

(** The model answers with [complete_task] followed by [navigate], in one
    round. *)
Definition completeThenNavigate : list FunctionCall :=
  [call "complete_task" [(lit "summary", VString (lit "Done"))];
   call "navigate" [(lit "url", VString (lit "https://example.com"))]].

Definition hastyWorld : Env :=
  calm (fun _ _ => Stream [chunkOf completeThenNavigate] None).

(** As [calm], but the abort signal is raised at tick [a]. *)
Definition cancelledWorld (a : nat) (stream : nat -> list Part -> StreamOutcome)
    : Env :=
  {| abortAt := Some a;
     ensureConnection := fun _ => Ok tt;
     sendMessageStream := stream;
     getMcpClient := fun _ => Ok tt;
     callTool := fun _ _ _ => Ok (Some []);
     browserTool := fun _ _ _ =>
       Ok {| output := Some (lit "ok"); error := None; url := None |};
     bringToFront := fun _ => Ok tt;
     pageScreenshot := fun _ => Ok (lit "png");
     generateContent := fun _ _ => Ok None |}.


(** The visual model asks for a click in every response. *)
Definition busyVisualWorld : Env :=
  {| abortAt := None;
     ensureConnection := fun _ => Ok tt;
     sendMessageStream := fun _ _ => Stream [] None;
     getMcpClient := fun _ => Ok tt;
     callTool := fun _ _ _ => Ok (Some []);
     browserTool := fun _ _ _ =>
       Ok {| output := Some (lit "Clicked"); error := None; url := None |};
     bringToFront := fun _ => Ok tt;
     pageScreenshot := fun _ => Ok (lit "png");
     generateContent := fun _ _ =>
       Ok (Some (Some [{| partText := None;
                          functionCall :=
                            Some (call "click_at"
                                    [(lit "x", VNumber 500); (lit "y", VNumber 500)]) |}])) |}.

(** *** One tool execution, taken apart *)






(** The operation of the protocol client that a forwarded name stands
    for: its own name, but for [navigate]. *)
Definition operation (fnName : jsstring) : jsstring :=
  if str_eqb fnName (lit "navigate") then lit "navigate_page" else fnName.



(** The content that a call of the protocol client answered with:
    [(...).content || []]. *)
Definition rawContent (r : option (list ContentItem)) : list ContentItem :=
  match r with
  | Some c => c
  | None => []
  end.

(** What the visual delegate does: it brings the page to the front, takes
    a screenshot, calls its model, and uses its five tools. *)
Definition isVisualWork (e : Effect) : bool :=
  match e with
  | BringToFront | PageScreenshot | GenerateContent _ => true
  | BrowserTool (ClickAt | TypeTextAt | DragAndDrop | PressKey | ScrollDocument) _ =>
      true
  | _ => false
  end.

(** [scrollDocument], the one tool of the delegate that the orchestrator
    has a case of its own for, [scroll_document]. *)
Definition isScroll (e : Effect) : bool :=
  match e with
  | BrowserTool ScrollDocument _ => true
  | _ => false
  end.

Definition notVisualWork (e : nat * Effect) : Prop := isVisualWork (snd e) = false.

(** Of what the visual delegate does, at most [scrollDocument]. *)
Definition scrollAtMost (e : nat * Effect) : Prop :=
  isVisualWork (snd e) && negb (isScroll (snd e)) = false.

(** A call that is not for the visual delegate. *)
Definition notDelegated (c : FunctionCall) : bool :=
  negb (nameIs (name c) "delegate_to_visual_agent").

(** The model never asks for the visual delegate. *)
Definition neverDelegates (env : Env) : Prop :=
  forall t parts events failure,
    sendMessageStream env t parts = Stream events failure ->
    Forall (fun event => forall calls, chunkCalls event = Some calls ->
                                       Forall (fun c => notDelegated c = true) calls)
      events.

(** The message of a failed connection. *)
Definition connectionError (e : jsstring) : jsstring :=
  lit "Error: Failed to connect to browser: " ++ e.

(** The parts of the first message: the task, and the snapshot between
    its tags. *)
Definition taskPart (prompt : jsstring) : Part := TextPart (lit "Task: " ++ prompt).

Definition treePart (initialSnapshot : jsstring) : Part :=
  TextPart (lit "<accessibility_tree>" ++ newline ++ initialSnapshot ++ newline
            ++ lit "</accessibility_tree>").

(** The arguments of the first [take_snapshot]. *)
Definition snapshotArgs : Args := [(lit "verbose", VBool false)].

(** The text of the initial snapshot. *)
Definition snapshotText (content : list ContentItem) : jsstring :=
  concat (map itemText (filter isTextItem content)).

(** The browser cannot be reached. *)
Definition unreachableWorld : Env :=
  {| abortAt := None;
     ensureConnection := fun _ => Throw (lit "spawn ENOENT");
     sendMessageStream := fun _ _ => Stream [] None;
     getMcpClient := fun _ => Ok tt;
     callTool := fun _ _ _ => Ok (Some []);
     browserTool := fun _ _ _ =>
       Ok {| output := Some (lit "ok"); error := None; url := None |};
     bringToFront := fun _ => Ok tt;
     pageScreenshot := fun _ => Ok (lit "png");
     generateContent := fun _ _ => Ok None |}.

(** The page shows a dialog when the task starts. *)
Definition dialogWorld : Env :=
  {| abortAt := None;
     ensureConnection := fun _ => Ok tt;
     sendMessageStream := fun _ _ => Stream [] None;
     getMcpClient := fun _ => Ok tt;
     callTool := fun _ _ _ => Ok (Some [TextItem Overlay.dialogSnapshot]);
     browserTool := fun _ _ _ =>
       Ok {| output := Some (lit "ok"); error := None; url := None |};
     bringToFront := fun _ => Ok tt;
     pageScreenshot := fun _ => Ok (lit "png");
     generateContent := fun _ _ => Ok None |}.

(** *** The answers of the visual delegate *)

Definition visualCancelled : jsstring := lit "Visual agent cancelled by user.".

Definition visualIncomplete (actionHistory : list jsstring) : jsstring :=
  lit "Visual Agent reached max steps WITHOUT completing the task. The task may be incomplete or requires more steps."
  ++ newline ++ lit "Actions Taken:" ++ newline ++ join newline actionHistory.

Definition visualCompleted (text : jsstring) (actionHistory : list jsstring)
    : jsstring :=
  lit "Visual Agent Completed." ++ newline
  ++ lit "Final Message: " ++ text ++ newline
  ++ lit "Actions Taken:" ++ newline ++ join newline actionHistory.

(** The final message of the visual model: its texts, or ['Done']. *)
Definition finalText (response : option (list ModelPart)) : jsstring :=
  match concat (textsOf response) with
  | [] => lit "Done"
  | t => t
  end.

(** The five tools of the visual delegate. *)
Definition visualToolNames : list string :=
  ["click_at"; "type_text_at"; "drag_and_drop"; "press_key"; "scroll_document"]%string.

Definition isVisualTool (n : option jsstring) : bool :=
  existsb (nameIs n) visualToolNames.

(** The property that the [switch] of the visual delegate reads first. *)
Definition firstKey (n : option jsstring) : jsstring :=
  if nameIs n "press_key" then lit "key"
  else if nameIs n "scroll_document" then lit "direction"
  else lit "x".

Definition isBrowserAction (e : Effect) : bool :=
  match e with
  | BrowserTool _ _ => true
  | _ => false
  end.

(** A call of the visual model happens only while the abort signal is not
    raised. *)
Definition visualGuarded (env : Env) (e : nat * Effect) : Prop :=
  isVisualModelCall (snd e) = true -> isAborted env (fst e) = false.

(** The visual model is out of order. *)
Definition blindWorld : Env :=
  {| abortAt := None;
     ensureConnection := fun _ => Ok tt;
     sendMessageStream := fun _ _ => Stream [] None;
     getMcpClient := fun _ => Ok tt;
     callTool := fun _ _ _ => Ok (Some []);
     browserTool := fun _ _ _ =>
       Ok {| output := Some (lit "ok"); error := None; url := None |};
     bringToFront := fun _ => Ok tt;
     pageScreenshot := fun _ => Ok (lit "png");
     generateContent := fun _ _ => Throw (lit "quota exceeded") |}.

(** The visual model answers with a text and no function call. *)
Definition contentWorld : Env :=
  {| abortAt := None;
     ensureConnection := fun _ => Ok tt;
     sendMessageStream := fun _ _ => Stream [] None;
     getMcpClient := fun _ => Ok tt;
     callTool := fun _ _ _ => Ok (Some []);
     browserTool := fun _ _ _ =>
       Ok {| output := Some (lit "ok"); error := None; url := None |};
     bringToFront := fun _ => Ok tt;
     pageScreenshot := fun _ => Ok (lit "png");
     generateContent := fun _ _ =>
       Ok (Some (Some [{| partText := Some (lit "Clicked it");
                          functionCall := None |}])) |}.

(** The page cannot be photographed. *)
Definition darkWorld : Env :=
  {| abortAt := None;
     ensureConnection := fun _ => Ok tt;
     sendMessageStream := fun _ _ => Stream [] None;
     getMcpClient := fun _ => Ok tt;
     callTool := fun _ _ _ => Ok (Some []);
     browserTool := fun _ _ _ =>
       Ok {| output := Some (lit "ok"); error := None; url := None |};
     bringToFront := fun _ => Ok tt;
     pageScreenshot := fun _ => Throw (lit "Target closed");
     generateContent := fun _ _ => Ok None |}.

(** The message with which a failed call of the model ends the task. *)
Definition modelError (e : jsstring) : jsstring := lit "Error calling model: " ++ e.

(** An event that brings no function call. *)
Definition callFree (event : StreamEvent) : Prop :=
  forall calls, chunkCalls event = Some calls -> calls = [].

(** The stream yields two function calls and then breaks. *)
Definition brokenStreamWorld : Env :=
  calm (fun _ _ => Stream [chunkOf completeThenNavigate] (Some (lit "socket hang up"))).

(** The model answers with text only, time and again. *)
Definition chattyWorld : Env :=
  calm (fun _ _ =>
          Stream [{| isChunk := true; thoughtSubject := None;
                     chunkText := lit "Done"; chunkCalls := None |}] None).

(** The protocol client cannot be had. *)
Definition offlineWorld : Env :=
  {| abortAt := None;
     ensureConnection := fun _ => Ok tt;
     sendMessageStream := fun _ _ => Stream [] None;
     getMcpClient := fun _ => Throw (lit "offline");
     callTool := fun _ _ _ => Ok (Some []);
     browserTool := fun _ _ _ =>
       Ok {| output := Some (lit "ok"); error := None; url := None |};
     bringToFront := fun _ => Ok tt;
     pageScreenshot := fun _ => Ok (lit "png");
     generateContent := fun _ _ => Ok None |}.


End Agent.

(** ** The session connection manager: [BrowserManager] *)

Module Manager.
Import Js.
Import Agent (Res, Ok, Throw).

(** Handles of the objects that the outside world hands out. *)
Definition Browser : Type := nat.
Definition Page : Type := nat.
Definition McpClient : Type := nat.

(** The fields of a [BrowserManager]. *)
Record Fields : Type := {
  mcpClient : option McpClient;
  browser : option Browser;
  page : option Page;
  remoteDebuggingPort : option N
}.

(** What the manager does to the outside world.  A client is registered
    under the name [chrome-devtools-${port}]; the effect keeps the port. *)
Inductive Effect : Type :=
| GetFreePort
| AcquireChromium
| Launch (port : N) (headless : bool)
| NewContext (b : Browser)
| NewPage (b : Browser)
| MaybeDiscoverMcpServer (port : N)
| Connect (c : McpClient).

(** The outside world, as for the agent: time is counted in suspension
    points, and what is answered may depend on when it is asked.
    [isConnected], [getStatus] and [getClient] answer at once;
    [getStatus t c] says whether the status of [c] is ['connected'];
    [hasMcpManager] and [headless] are read from the configuration. *)
Record Env : Type := {
  getFreePort : nat -> Res N;
  acquireChromium : nat -> Res unit;
  launch : nat -> N -> Res Browser;
  newContext : nat -> Browser -> Res unit;
  newPage : nat -> Browser -> Res Page;
  isConnected : nat -> Browser -> bool;
  hasMcpManager : bool;
  getClient : nat -> N -> option McpClient;
  maybeDiscoverMcpServer : nat -> N -> Res unit;
  getStatus : nat -> McpClient -> bool;
  connect : nat -> McpClient -> Res unit;
  headless : bool
}.

(** The manager and the world around it. *)
Record State : Type := {
  fields : Fields;
  clock : nat;
  log : list (nat * Effect)
}.

Definition M (A : Type) : Type := State -> Res A * State.

Definition ret {A} (a : A) : M A := fun s => (Ok a, s).

Definition throw {A} (message : jsstring) : M A := fun s => (Throw message, s).

Definition bind {A B} (m : M A) (k : A -> M B) : M B :=
  fun s =>
    match m s with
    | (Ok a, s') => k a s'
    | (Throw e, s') => (Throw e, s')
    end.

Declare Scope manager_scope.
Delimit Scope manager_scope with manager.
Notation "x <- m ;; k" := (bind m (fun x => k))
  (at level 61, m at next level, right associativity) : manager_scope.
Notation "m ;; k" := (bind m (fun _ => k))
  (at level 61, right associativity) : manager_scope.
Open Scope manager_scope.

(** An awaited operation of the outside world. *)
Definition await {A} (e : Effect) (answer : nat -> Res A) : M A :=
  fun s => (answer (clock s),
            {| fields := fields s;
               clock := S (clock s);
               log := (clock s, e) :: log s |}).

(** A question that the outside world answers at once. *)
Definition ask {A} (answer : nat -> A) : M A :=
  fun s => (Ok (answer (clock s)), s).

Definition read {A} (field : Fields -> A) : M A :=
  fun s => (Ok (field (fields s)), s).

Definition write (update : Fields -> Fields) : M unit :=
  fun s => (Ok tt, {| fields := update (fields s);
                      clock := clock s;
                      log := log s |}).

Definition setPort (p : N) (f : Fields) : Fields :=
  {| mcpClient := mcpClient f; browser := browser f; page := page f;
     remoteDebuggingPort := Some p |}.

Definition setBrowser (b : Browser) (f : Fields) : Fields :=
  {| mcpClient := mcpClient f; browser := Some b; page := page f;
     remoteDebuggingPort := remoteDebuggingPort f |}.

Definition setPage (p : Page) (f : Fields) : Fields :=
  {| mcpClient := mcpClient f; browser := browser f; page := Some p;
     remoteDebuggingPort := remoteDebuggingPort f |}.

Definition setMcpClient (c : McpClient) (f : Fields) : Fields :=
  {| mcpClient := Some c; browser := browser f; page := page f;
     remoteDebuggingPort := remoteDebuggingPort f |}.

Section WithWorld.
Variable env : Env.

(** [launchBrowser(port)].  The three ways in which the source gets hold of
    the browser engine are one operation of the outside world here. *)
Definition launchBrowser (port : N) : M unit :=
  await AcquireChromium (acquireChromium env);;
  b <- await (Launch port (headless env)) (fun t => launch env t port);;
  write (setBrowser b);;
  await (NewContext b) (fun t => newContext env t b);;
  p <- await (NewPage b) (fun t => newPage env t b);;
  write (setPage p).

(** [connectMcp(port)] *)
Definition connectMcp (port : N) : M unit :=
  if negb (hasMcpManager env) then
    throw (lit "MCP Client Manager not available in config")
  else
    client <- ask (fun t => getClient env t port);;
    client1 <-
      match client with
      | Some c => ret (Some c)
      | None =>
          await (MaybeDiscoverMcpServer port)
            (fun t => maybeDiscoverMcpServer env t port);;
          ask (fun t => getClient env t port)
      end;;
    match client1 with
    | None => throw (lit "Failed to initialize chrome-devtools MCP client")
    | Some c =>
        connected <- ask (fun t => getStatus env t c);;
        (if negb connected
         then await (Connect c) (fun t => connect env t c)
         else ret tt);;
        write (setMcpClient c)
    end.

(** [!this.remoteDebuggingPort]: no port yet, or the port [0]. *)
Definition noPort (p : option N) : bool :=
  match p with
  | Some n => N.eqb n 0
  | None => true
  end.

(** [ensureBrowserLaunched()] *)
Definition ensureBrowserLaunched : M unit :=
  p <- read remoteDebuggingPort;;
  (if noPort p then
     fresh <- await GetFreePort (getFreePort env);;
     write (setPort fresh)
   else ret tt);;
  p1 <- read remoteDebuggingPort;;
  let port := match p1 with Some n => n | None => 0%N end in
  b <- read browser;;
  running <- match b with
             | Some h => ask (fun t => isConnected env t h)
             | None => ret false
             end;;
  (if negb running then launchBrowser port else ret tt);;
  c <- read mcpClient;;
  connected <- match c with
               | Some h => ask (fun t => getStatus env t h)
               | None => ret false
               end;;
  if negb connected then connectMcp port else ret tt.

(** [ensureConnection()] *)
Definition ensureConnection : M unit := ensureBrowserLaunched.

(** [getMcpClient()] *)
Definition getMcpClient : M McpClient :=
  c <- read mcpClient;;
  connected <- match c with
               | Some h => ask (fun t => getStatus env t h)
               | None => ret false
               end;;
  match c, connected with
  | Some h, true => ret h
  | _, _ =>
      ensureConnection;;
      c1 <- read mcpClient;;
      match c1 with
      | None => throw (lit "Failed to initialize chrome-devtools MCP client")
      | Some h => ret h
      end
  end.

(** [getPage()] *)
Definition getPage : M Page :=
  p <- read page;;
  (match p with
   | None => ensureBrowserLaunched
   | Some _ => ret tt
   end);;
  p1 <- read page;;
  match p1 with
  | None => throw (lit "Browser page not available")
  | Some h => ret h
  end.

(** [n] calls of [ensureConnection] in a row, whatever each of them
    answers. *)
Fixpoint repeatEnsure (n : nat) (s : State) : State :=
  match n with
  | O => s
  | S n' => repeatEnsure n' (snd (ensureConnection s))
  end.

End WithWorld.

(** A manager that was just constructed. *)
Definition fresh : State :=
  {| fields := {| mcpClient := None; browser := None; page := None;
                  remoteDebuggingPort := None |};
     clock := 0;
     log := [] |}.

Definition isLaunch (e : nat * Effect) : bool :=
  match snd e with
  | Launch _ _ => true
  | _ => false
  end.

Definition isRegistration (e : nat * Effect) : bool :=
  match snd e with
  | MaybeDiscoverMcpServer _ => true
  | _ => false
  end.

(** The browser processes launched and the clients registered so far. *)
Definition launches (s : State) : nat := length (filter isLaunch (log s)).
Definition registrations (s : State) : nat := length (filter isRegistration (log s)).

(** A world in which everything works: port 9222 is free, the browser
    launched is browser 1 with page 1 and stays connected, and the client
    registered is client 1, known to the registry from tick 6 on, when it
    has been registered, and connected from tick 7 on, when it has been
    asked to connect. *)
Definition steady : Env :=
  {| getFreePort := fun _ => Ok 9222%N;
     acquireChromium := fun _ => Ok tt;
     launch := fun _ _ => Ok 1;
     newContext := fun _ _ => Ok tt;
     newPage := fun _ _ => Ok 1;
     isConnected := fun _ _ => true;
     hasMcpManager := true;
     getClient := fun t _ => if Nat.leb 6 t then Some 1 else None;
     maybeDiscoverMcpServer := fun _ _ => Ok tt;
     getStatus := fun t _ => Nat.leb 7 t;
     connect := fun _ _ => Ok tt;
     headless := false |}.

(** [m] launches at most [a] browsers and registers at most [b] clients. *)
Definition grows {A} (a b : nat) (m : M A) : Prop :=
  forall s,
    launches (snd (m s)) <= launches s + a
    /\ registrations (snd (m s)) <= registrations s + b.

(** The session after the first call in the world [steady]. *)
Definition connected : State := snd (ensureConnection steady fresh).

(** [m], run from a state that satisfies [P], ends in a state that
    satisfies [Q] when it returns and [R] when it throws. *)
Definition triple {A} (P : State -> Prop) (m : M A)
    (Q : A -> State -> Prop) (R : jsstring -> State -> Prop) : Prop :=
  forall s, P s ->
    match m s with
    | (Ok a, s') => Q a s'
    | (Throw e, s') => R e s'
    end.

(** The state after an awaited operation [e]. *)
Definition after (e : Effect) (s : State) : State :=
  {| fields := fields s; clock := S (clock s); log := (clock s, e) :: log s |}.

(** A launch or a registration is for the port [p]. *)
Definition usesPort (p : N) (e : nat * Effect) : Prop :=
  match snd e with
  | Launch q _ => q = p
  | MaybeDiscoverMcpServer q => q = p
  | _ => True
  end.

(** The session has noted the port [p], and every browser it launched and
    every client it registered so far is for that port. *)
Definition ported (p : N) (s : State) : Prop :=
  remoteDebuggingPort (fields s) = Some p /\ Forall (usesPort p) (log s).

(** Nothing was launched or registered so far. *)
Definition quietLog (s : State) : Prop :=
  Forall (fun e => forall q, usesPort q e) (log s).

(** The port that [ensureBrowserLaunched] works with once a port is noted. *)
Definition portOf (p : option N) : N :=
  match p with
  | Some n => n
  | None => 0%N
  end.

(** The session has noted [p1], and what it launched and registered is for
    the port of [p1]. *)
Definition portKept (p1 : option N) (s : State) : Prop :=
  remoteDebuggingPort (fields s) = p1 /\ Forall (usesPort (portOf p1)) (log s).

(** Whatever port the session has noted, what it launched and registered
    is for that port. *)
Definition onePort (s : State) : Prop :=
  forall q, remoteDebuggingPort (fields s) = Some q -> Forall (usesPort q) (log s).

(** The session holds the client and the page that [s0] holds, and has
    registered and connected as much as [s0]. *)
Definition untouched (s0 s : State) : Prop :=
  mcpClient (fields s) = mcpClient (fields s0)
  /\ page (fields s) = page (fields s0)
  /\ registrations s = registrations s0
  /\ length (filter (fun e => match snd e with Connect _ => true | _ => false end)
               (log s))
     = length (filter (fun e => match snd e with Connect _ => true | _ => false end)
                 (log s0)).

(** The session has no page and has launched as many browsers as [s0]. *)
Definition pageless (s0 s : State) : Prop :=
  page (fields s) = None /\ launches s = launches s0.

(** As [steady], but the browser cannot be launched. *)
Definition noBrowser : Env :=
  {| getFreePort := fun _ => Ok 9222%N;
     acquireChromium := fun _ => Ok tt;
     launch := fun _ _ => Throw (lit "spawn ENOENT");
     newContext := fun _ _ => Ok tt;
     newPage := fun _ _ => Ok 1;
     isConnected := fun _ _ => true;
     hasMcpManager := true;
     getClient := fun t _ => if Nat.leb 6 t then Some 1 else None;
     maybeDiscoverMcpServer := fun _ _ => Ok tt;
     getStatus := fun t _ => Nat.leb 7 t;
     connect := fun _ _ => Ok tt;
     headless := false |}.

(** As [steady], but no context can be opened in the browser launched,
    and the client is known and connected from the start. *)
Definition noContext : Env :=
  {| getFreePort := fun _ => Ok 9222%N;
     acquireChromium := fun _ => Ok tt;
     launch := fun _ _ => Ok 1;
     newContext := fun _ _ => Throw (lit "Target closed");
     newPage := fun _ _ => Ok 1;
     isConnected := fun _ _ => true;
     hasMcpManager := true;
     getClient := fun _ _ => Some 1;
     maybeDiscoverMcpServer := fun _ _ => Ok tt;
     getStatus := fun _ _ => true;
     connect := fun _ _ => Ok tt;
     headless := false |}.

(** A session that noted its port while the browser could not be launched,
    and then launched a browser in which no context could be opened. *)
Definition stranded : State :=
  snd (ensureConnection noContext (snd (ensureConnection noBrowser fresh))).

End Manager.

(** ** The browser tools: [BrowserTools] *)

Module Tools.
Import Js Response.
Import Agent (Res, Ok, Throw, Args).

(** *** What the scripts do in the page *)

(** The element under the pointer, as the script of [getElementLabel]
    reads it: [innerText], which only an HTML element has, four
    attributes, each [null] when the element lacks it, and the tag name. *)
Record Element : Type := {
  innerText : option jsstring;
  ariaLabel : option jsstring;
  placeholder : option jsstring;
  title : option jsstring;
  alt : option jsstring;
  tagName : jsstring
}.

(** [s.replace(/\s+/g, ' ')]: every run of white space becomes one space.
    [inSpace] tells that the code unit before was white space. *)
Fixpoint collapseFrom (inSpace : bool) (s : jsstring) : jsstring :=
  match s with
  | [] => []
  | c :: s' =>
      if isWhiteSpace c
      then (if inSpace then collapseFrom true s' else 32%N :: collapseFrom true s')
      else c :: collapseFrom false s'
  end.

Definition collapse (s : jsstring) : jsstring := collapseFrom false s.

(** [a || b] on strings that may be [null] or [undefined]. *)
Definition orText (a b : option jsstring) : option jsstring :=
  match a with
  | Some (c :: r) => Some (c :: r)
  | _ => b
  end.

(** The text that the script finds for the element; [None] when it finds
    none or only the empty string. *)
Definition elementText (el : Element) : option jsstring :=
  orText (option_map (fun s => trim (collapse s)) (innerText el))
    (orText (ariaLabel el)
       (orText (placeholder el)
          (orText (title el) (orText (alt el) None)))).

(** The border that shows that the agent is at work: whether its style
    sheet is in the page, and the class list of its container, [None]
    when the container is not there.  A class list holds no class
    twice. *)
Record Border : Type := {
  styled : bool;
  classes : option (list jsstring)
}.

(** The classes of the container; a container that is made has none. *)
Definition current (d : Border) : list jsstring :=
  match classes d with
  | Some l => l
  | None => []
  end.

Definition hidden : jsstring := lit "hidden".
Definition breathing : jsstring := lit "animate-breathing".

Definition hasClass (c : jsstring) (l : list jsstring) : bool :=
  existsb (str_eqb c) l.

(** [classList.add(c)] and [classList.remove(c)] *)
Definition classAdd (c : jsstring) (l : list jsstring) : list jsstring :=
  if hasClass c l then l else l ++ [c].

Definition classRemove (c : jsstring) (l : list jsstring) : list jsstring :=
  filter (fun x => negb (str_eqb x c)) l.

(** The script of [updateBorderOverlay]. *)
Definition borderScript (active capturing : bool) (d : Border) : Border :=
  let container := current d in
  {| styled := true;
     classes :=
       Some (if active then
               let shown := classRemove hidden container in
               if negb capturing then classAdd breathing shown
               else classRemove breathing shown
             else classRemove breathing (classAdd hidden container)) |}.

(** [scrollDocument]: the distance to scroll by, [(deltaX, deltaY)]. *)
Definition scrollDeltas (direction : jsstring) (amount : Z) : Z * Z :=
  let deltaY0 := if str_eqb direction (lit "up") then (- amount)%Z else 0%Z in
  let deltaY := if str_eqb direction (lit "down") then amount else deltaY0 in
  let deltaX0 := if str_eqb direction (lit "left") then (- amount)%Z else 0%Z in
  let deltaX := if str_eqb direction (lit "right") then amount else deltaX0 in
  (deltaX, deltaY).

(** *** The tools *)

(** The scripts that the tools run in the page. *)
Inductive Script : Type :=
| ShowOverlay (msg : jsstring)
| UpdateBorder (active capturing : bool)
| RemoveOverlay
| MoveCursor (x y : JsVal)
| ScrollIndicator (direction : jsstring)
| AnimateClick
| ElementLabel (x y : JsVal)
| WindowSize
| ScrollBy (dx dy : Z)
| Wrapped (script : jsstring).

(** What the tools do with the mouse and the keyboard of the page. *)
Inductive Input : Type :=
| MouseClick (x y : JsVal)
| MouseMove (x y : JsVal)
| MouseDown
| MouseUp
| KeyPress (key : jsstring)
| KeyType (text : jsstring).

(** The two lines that the tools log, each with the exception caught. *)
Inductive LogNote : Type :=
| BorderFailed (err : jsstring)
| RemoveFailed (err : jsstring).

Inductive Effect : Type :=
| GetPage
| GetMcpClient
| CallTool (tool : jsstring) (toolArgs : Args)
| Evaluate (s : Script)
| Act (i : Input)
| Sleep (ms : nat)
| Log (note : LogNote).

Record Viewport : Type := { width : JsVal; height : JsVal }.

(** The arithmetic and the conversions of JavaScript that the tools use
    and that are no code of the repository:
    [scalePixel x size] is [Math.round((x / 1000) * size)], and
    [stringify v] is [JSON.stringify(v)]. *)
Class Numbers : Type := {
  scalePixel : JsVal -> JsVal -> JsVal;
  stringify : JsVal -> jsstring
}.

(** The page and the protocol client, as for the agent: every awaited
    operation takes one tick and answers according to the tick at which
    it is asked; [viewportSize] and [pageUrl] answer at once.
    [runScript] runs a script that returns nothing, [elementAt] is
    [document.elementFromPoint] in the script of [getElementLabel],
    [windowSize] the script that reads the size of the window, and
    [wrapped] the script of [evaluateScript]. *)
Record Env : Type := {
  getPage : nat -> Res unit;
  getMcpClient : nat -> Res unit;
  callTool : nat -> jsstring -> Args -> Res (option (list ContentItem));
  runScript : nat -> Script -> Res unit;
  elementAt : nat -> JsVal -> JsVal -> Res (option Element);
  windowSize : nat -> Res Viewport;
  wrapped : nat -> jsstring -> Res JsVal;
  viewportSize : nat -> option Viewport;
  pageUrl : nat -> jsstring;
  act : nat -> Input -> Res unit
}.

#[projections(primitive)]
Record Run (A : Type) : Type := {
  result : Res A;
  endTick : nat;
  effects : list (nat * Effect)
}.
Arguments result {A} r.
Arguments endTick {A} r.
Arguments effects {A} r.

Definition M (A : Type) : Type := nat -> Run A.

Definition ret {A} (a : A) : M A :=
  fun t => {| result := Ok a; endTick := t; effects := [] |}.

Definition bind {A B} (m : M A) (k : A -> M B) : M B :=
  fun t =>
    let r := m t in
    match result r with
    | Ok a =>
        let r' := k a (endTick r) in
        {| result := result r';
           endTick := endTick r';
           effects := effects r ++ effects r' |}
    | Throw e =>
        {| result := Throw e; endTick := endTick r; effects := effects r |}
    end.

Definition tryCatch {A} (m : M A) (handler : jsstring -> M A) : M A :=
  fun t =>
    let r := m t in
    match result r with
    | Ok a => r
    | Throw e =>
        let r' := handler e (endTick r) in
        {| result := result r';
           endTick := endTick r';
           effects := effects r ++ effects r' |}
    end.

Declare Scope tools_scope.
Delimit Scope tools_scope with tools.
Notation "x <- m ;; k" := (bind m (fun x => k))
  (at level 61, m at next level, right associativity) : tools_scope.
Notation "m ;; k" := (bind m (fun _ => k))
  (at level 61, right associativity) : tools_scope.
Open Scope tools_scope.

Definition await {A} (e : Effect) (answer : nat -> Res A) : M A :=
  fun t => {| result := answer t; endTick := S t; effects := [(t, e)] |}.

(** A question that the page answers at once. *)
Definition ask {A} (answer : nat -> A) : M A :=
  fun t => {| result := Ok (answer t); endTick := t; effects := [] |}.

Definition log (note : LogNote) : M unit :=
  fun t => {| result := Ok tt; endTick := t; effects := [(t, Log note)] |}.

(** [await new Promise((resolve) => setTimeout(resolve, ms))] *)
Definition sleep (ms : nat) : M unit := await (Sleep ms) (fun _ => Ok tt).

Section WithWorld.
Context {rt : Runtime} {nm : Numbers} (env : Env).

Definition evaluate (s : Script) : M unit :=
  await (Evaluate s) (fun t => runScript env t s).

(** [labelOf]: the label that the script of [getElementLabel] returns for
    an element. *)
Definition labelOf (el : Element) : jsstring :=
  match elementText el with
  | Some text =>
      firstn 30 text ++ (if Nat.ltb 30 (length text) then lit "..." else [])
  | None => toLowerCase (tagName el)
  end.

Definition showOverlay (message : jsstring) : M unit :=
  evaluate (ShowOverlay message).

Definition updateBorderOverlay (active capturing : bool) : M unit :=
  tryCatch
    (await GetPage (getPage env);;
     evaluate (UpdateBorder active capturing))
    (fun err => log (BorderFailed err)).

Definition removeOverlay : M unit :=
  tryCatch
    (await GetPage (getPage env);;
     evaluate RemoveOverlay)
    (fun err => log (RemoveFailed err)).

Definition moveMouse (x y : JsVal) : M unit :=
  evaluate (MoveCursor x y);; sleep 200.

Definition showScrollIndicator (direction : jsstring) : M unit :=
  evaluate (ScrollIndicator direction);; sleep 500.

Definition animateClick : M unit :=
  evaluate AnimateClick;; sleep 200.

Definition getElementLabel (x y : JsVal) : M (option jsstring) :=
  el <- await (Evaluate (ElementLabel x y)) (fun t => elementAt env t x y);;
  ret (option_map labelOf el).

Definition getViewportSize : M (option Viewport) :=
  viewport <- ask (viewportSize env);;
  match viewport with
  | Some vp => ret (Some vp)
  | None =>
      vp <- await (Evaluate WindowSize) (windowSize env);;
      ret (Some vp)
  end.

Definition quoted (s : jsstring) : jsstring := dquote :: s ++ [dquote].

(** The text [${x}, ${y}] of the messages. *)
Definition point (x y : JsVal) : jsstring :=
  valueToString x ++ lit ", " ++ valueToString y.

Definition noViewport : M ToolResult :=
  u <- ask (pageUrl env);;
  ret {| output := None; error := Some (lit "Viewport not available");
         url := Some u |}.

Definition done (text : jsstring) : M ToolResult :=
  u <- ask (pageUrl env);;
  ret {| output := Some text; error := None; url := Some u |}.

Definition failed (text : jsstring) : M ToolResult :=
  ret {| output := None; error := Some text; url := None |}.

(** [clickAt(x, y)] *)
Definition clickAt (x y : JsVal) : M ToolResult :=
  await GetPage (getPage env);;
  tryCatch
    (viewport <- getViewportSize;;
     match viewport with
     | None => noViewport
     | Some vp =>
         let actualX := scalePixel x (width vp) in
         let actualY := scalePixel y (height vp) in
         moveMouse actualX actualY;;
         label <- getElementLabel actualX actualY;;
         let msg :=
           match label with
           | Some (c :: l) => lit "Clicking " ++ quoted (c :: l)
           | _ => lit "Clicking at " ++ point x y
           end in
         showOverlay msg;;
         await (Act (MouseClick actualX actualY))
           (fun t => act env t (MouseClick actualX actualY));;
         animateClick;;
         sleep 500;;
         removeOverlay;;
         done (lit "Clicked")
     end)
    (fun message =>
       failed (lit "Failed to click at " ++ point x y ++ lit ": " ++ message)).

Definition press (key : string) : M unit :=
  await (Act (KeyPress (lit key))) (fun t => act env t (KeyPress (lit key))).

(** [typeTextAt(x, y, text, pressEnter, clearBeforeTyping)]; the two
    flags are tested for truth, and are false when missing. *)
Definition typeTextAt (x y : JsVal) (text : jsstring)
    (pressEnter clearBeforeTyping : JsVal) : M ToolResult :=
  await GetPage (getPage env);;
  tryCatch
    (viewport <- getViewportSize;;
     match viewport with
     | None => noViewport
     | Some vp =>
         let actualX := scalePixel x (width vp) in
         let actualY := scalePixel y (height vp) in
         moveMouse actualX actualY;;
         label <- getElementLabel actualX actualY;;
         let msg :=
           match label with
           | Some (c :: l) => lit "Typing " ++ quoted text ++ lit " into " ++ (c :: l)
           | _ => lit "Typing " ++ quoted text ++ lit " at " ++ point x y
           end in
         showOverlay msg;;
         await (Act (MouseClick actualX actualY))
           (fun t => act env t (MouseClick actualX actualY));;
         animateClick;;
         sleep 100;;
         (if truthy clearBeforeTyping
          then press "Control+A";; press "Backspace"
          else ret tt);;
         await (Act (KeyType text)) (fun t => act env t (KeyType text));;
         (if truthy pressEnter then press "Enter" else ret tt);;
         sleep 300;;
         removeOverlay;;
         done (lit "Typed " ++ quoted text)
     end)
    (fun message =>
       failed (lit "Failed to type at " ++ point x y ++ lit ": " ++ message)).

(** The text [${x},${y}] of the messages of [dragAndDrop]. *)
Definition corner (x y : JsVal) : jsstring :=
  valueToString x ++ lit "," ++ valueToString y.

(** [dragAndDrop(x, y, destX, destY)] *)
Definition dragAndDrop (x y destX destY : JsVal) : M ToolResult :=
  await GetPage (getPage env);;
  tryCatch
    (showOverlay (lit "Dragging from " ++ corner x y ++ lit " to "
                  ++ corner destX destY);;
     viewport <- getViewportSize;;
     match viewport with
     | None => noViewport
     | Some vp =>
         let actualX := scalePixel x (width vp) in
         let actualY := scalePixel y (height vp) in
         let actualDestX := scalePixel destX (width vp) in
         let actualDestY := scalePixel destY (height vp) in
         moveMouse actualX actualY;;
         await (Act (MouseMove actualX actualY))
           (fun t => act env t (MouseMove actualX actualY));;
         animateClick;;
         await (Act MouseDown) (fun t => act env t MouseDown);;
         moveMouse actualDestX actualDestY;;
         await (Act (MouseMove actualDestX actualDestY))
           (fun t => act env t (MouseMove actualDestX actualDestY));;
         await (Act MouseUp) (fun t => act env t MouseUp);;
         animateClick;;
         removeOverlay;;
         done (lit "Dragged from " ++ corner x y ++ lit " to "
               ++ corner destX destY)
     end)
    (fun message => failed (lit "Failed to drag: " ++ message)).

(** [openWebBrowser()] *)
Definition openWebBrowser : M ToolResult :=
  await GetMcpClient (getMcpClient env);;
  await GetPage (getPage env);;
  done (lit "Browser opened").

(** [scrollDocument(direction, amount = 500)]; [None] is a missing
    amount, and an amount is held by its integer value. *)
Definition scrollDocument (direction : jsstring) (amount : option Z)
    : M ToolResult :=
  let amount := match amount with Some a => a | None => 500%Z end in
  await GetPage (getPage env);;
  showScrollIndicator direction;;
  showOverlay (lit "Scrolling " ++ direction);;
  let '(deltaX, deltaY) := scrollDeltas direction amount in
  evaluate (ScrollBy deltaX deltaY);;
  sleep 500;;
  removeOverlay;;
  done (lit "Scrolled " ++ direction ++ lit " by " ++ valueToString (VNumber amount)).

(** [pagedown()] and [pageup()] *)
Definition pagedown : M ToolResult :=
  await GetPage (getPage env);;
  showOverlay (lit "Pressing PageDown");;
  press "PageDown";;
  removeOverlay;;
  done (lit "Pressed PageDown").

Definition pageup : M ToolResult :=
  await GetPage (getPage env);;
  showOverlay (lit "Pressing PageUp");;
  press "PageUp";;
  removeOverlay;;
  done (lit "Pressed PageUp").

(** A result that holds an output and nothing else. *)
Definition outputOnly (text : jsstring) : ToolResult :=
  {| output := Some text; error := None; url := None |}.

(** [takeSnapshot(verbose = false)] *)
Definition takeSnapshot (verbose : bool) : M ToolResult :=
  await GetMcpClient (getMcpClient env);;
  let a := [(lit "verbose", VBool verbose)] in
  content <- await (CallTool (lit "take_snapshot") a)
               (fun t => callTool env t (lit "take_snapshot") a);;
  ret (outputOnly
         (match content with
          | Some items =>
              concat (map Agent.itemText (filter Agent.isTextItem items))
          | None => []
          end)).

(** [waitFor(text)] *)
Definition waitFor (text : jsstring) : M ToolResult :=
  await GetMcpClient (getMcpClient env);;
  let a := [(lit "text", VString text)] in
  await (CallTool (lit "wait_for") a) (fun t => callTool env t (lit "wait_for") a);;
  ret (outputOnly (lit "Waited for text " ++ quoted text)).

(** [handleDialog(action, promptText)] *)
Definition handleDialog (action : jsstring) (promptText : JsVal) : M ToolResult :=
  await GetMcpClient (getMcpClient env);;
  let a := [(lit "action", VString action); (lit "promptText", promptText)] in
  await (CallTool (lit "handle_dialog") a)
    (fun t => callTool env t (lit "handle_dialog") a);;
  ret (outputOnly (lit "Dialog " ++ action ++ lit "ed")).

(** [typeof v === 'object'] *)
Definition isObject (v : JsVal) : bool :=
  match v with
  | VNull | VOutput _ | VObject => true
  | _ => false
  end.

(** [evaluateScript(script)] *)
Definition evaluateScript (script : jsstring) : M ToolResult :=
  await GetPage (getPage env);;
  tryCatch
    (let wrappedScript := lit "(function() { return " ++ script ++ lit "; })()" in
     r <- await (Evaluate (Wrapped wrappedScript))
            (fun t => wrapped env t wrappedScript);;
     ret (outputOnly (if isObject r then stringify r else valueToString r)))
    (fun message => failed (lit "Script execution failed: " ++ message)).

(** [pressKey(key)] *)
Definition pressKey (key : jsstring) : M ToolResult :=
  await GetMcpClient (getMcpClient env);;
  let a := [(lit "key", VString key)] in
  await (CallTool (lit "press_key") a) (fun t => callTool env t (lit "press_key") a);;
  ret (outputOnly (lit "Pressed key " ++ quoted key)).

(** [drag(fromUid, toUid)] *)
Definition drag (fromUid toUid : jsstring) : M ToolResult :=
  await GetMcpClient (getMcpClient env);;
  let a := [(lit "from_uid", VString fromUid); (lit "to_uid", VString toUid)] in
  await (CallTool (lit "drag") a) (fun t => callTool env t (lit "drag") a);;
  ret (outputOnly (lit "Dragged element")).

End WithWorld.

(** *** Notions used to state properties *)

(** The element without its text. *)
Definition withoutText (el : Element) : Element :=
  {| innerText := None;
     ariaLabel := ariaLabel el;
     placeholder := placeholder el;
     title := title el;
     alt := alt el;
     tagName := tagName el |}.

(** A text that does not begin with white space. *)
Definition noSpaceAhead (s : jsstring) : bool :=
  match s with
  | c :: _ => negb (isWhiteSpace c)
  | [] => true
  end.

(** The only white space of a text are single spaces: every white space
    code unit is a space, and none follows it. *)
Fixpoint singleSpaced (s : jsstring) : bool :=
  match s with
  | [] => true
  | c :: s' =>
      (if isWhiteSpace c then N.eqb c 32 && noSpaceAhead s' else true)
      && singleSpaced s'
  end.

(** The size that [getViewportSize] finds when it is asked at tick [t]. *)
Definition seen (env : Env) (t : nat) : Res Viewport :=
  match viewportSize env t with
  | Some vp => Ok vp
  | None => windowSize env t
  end.

(** What was asked of the mouse and the keyboard, in order; a request
    that fails is listed as well. *)
Definition inputs (l : list (nat * Effect)) : list Input :=
  flat_map (fun e => match snd e with Act i => [i] | _ => [] end) l.

(** [a] is a beginning of [b]. *)
Definition beginning (a b : list Input) : Prop := exists rest, b = a ++ rest.

(** At tick [t], [m] asks the mouse and the keyboard for [l] and returns
    a result that satisfies [Q], or throws after it has asked for a
    beginning of [l]. *)
Definition plays {A} (t : nat) (Q : A -> Prop) (l : list Input) (m : M A) : Prop :=
  match result (m t) with
  | Ok a => Q a /\ inputs (effects (m t)) = l
  | Throw _ => beginning (inputs (effects (m t))) l
  end.

(** [m] never asks the mouse or the keyboard for anything. *)
Definition quiet {A} (m : M A) : Prop :=
  forall t, plays t (fun _ => True) [] m.

(** The directions that [scrollDocument] knows. *)
Definition knownDirection (direction : jsstring) : bool :=
  existsb (str_eqb direction) [lit "up"; lit "down"; lit "left"; lit "right"].

(** The lines logged. *)
Definition logged (l : list (nat * Effect)) : list LogNote :=
  flat_map (fun e => match snd e with Log n => [n] | _ => [] end) l.

(** The scripts run in the page, in order. *)
Definition scripts (l : list (nat * Effect)) : list Script :=
  flat_map (fun e => match snd e with Evaluate s => [s] | _ => [] end) l.

(** The two kinds of answer of a tool that works on the page. *)
Definition success (text : jsstring) (res : ToolResult) : Prop :=
  exists u, res = {| output := Some text; error := None; url := Some u |}.

Definition refused (text : jsstring) : ToolResult :=
  {| output := None; error := Some text; url := None |}.

Definition failure (wording : jsstring -> jsstring) (res : ToolResult) : Prop :=
  exists message, res = refused (wording message).

(** What [clickAt], [typeTextAt] and [dragAndDrop] ask of the mouse and
    the keyboard in a page of size [vp] when nothing fails. *)
Definition clickPoint {nm : Numbers} (x y : JsVal) (vp : Viewport) : Input :=
  MouseClick (scalePixel x (width vp)) (scalePixel y (height vp)).

Definition typing (text : jsstring) (pressEnter clearBeforeTyping : JsVal)
    : list Input :=
  (if truthy clearBeforeTyping
   then [KeyPress (lit "Control+A"); KeyPress (lit "Backspace")]
   else [])
  ++ [KeyType text]
  ++ (if truthy pressEnter then [KeyPress (lit "Enter")] else []).

Definition dragging {nm : Numbers} (x y destX destY : JsVal) (vp : Viewport)
    : list Input :=
  [MouseMove (scalePixel x (width vp)) (scalePixel y (height vp));
   MouseDown;
   MouseMove (scalePixel destX (width vp)) (scalePixel destY (height vp));
   MouseUp].

(** Numbers for a page of 1000 by 1000, in which a coordinate is its own
    pixel. *)
Definition unitNumbers : Numbers :=
  {| scalePixel := fun x _ => x; stringify := fun _ => [] |}.

(** A page in which everything works and every element is a button
    labelled [Login]. *)
Definition loginButton : Element :=
  {| innerText := Some (lit " Login ");
     ariaLabel := None; placeholder := None; title := None; alt := None;
     tagName := lit "BUTTON" |}.

Definition fine : Env :=
  {| getPage := fun _ => Ok tt;
     getMcpClient := fun _ => Ok tt;
     callTool := fun _ _ _ => Ok (Some [TextItem exampleText]);
     runScript := fun _ _ => Ok tt;
     elementAt := fun _ _ _ => Ok (Some loginButton);
     windowSize := fun _ =>
       Ok {| width := VNumber 1000; height := VNumber 1000 |};
     wrapped := fun _ _ => Ok VUndefined;
     viewportSize := fun _ =>
       Some {| width := VNumber 1000; height := VNumber 1000 |};
     pageUrl := fun _ => lit "https://example.com/";
     act := fun _ _ => Ok tt |}.

(** As [fine], but the page is gone. *)
Definition pageGone : Env :=
  {| getPage := fun _ => Throw (lit "Browser page not available");
     getMcpClient := fun _ => Ok tt;
     callTool := fun _ _ _ => Ok (Some []);
     runScript := fun _ _ => Ok tt;
     elementAt := fun _ _ _ => Ok None;
     windowSize := fun _ =>
       Ok {| width := VNumber 1000; height := VNumber 1000 |};
     wrapped := fun _ _ => Ok VUndefined;
     viewportSize := fun _ => None;
     pageUrl := fun _ => [];
     act := fun _ _ => Ok tt |}.

(** As [fine], but the mouse fails. *)
Definition stuck : Env :=
  {| getPage := fun _ => Ok tt;
     getMcpClient := fun _ => Ok tt;
     callTool := fun _ _ _ => Ok (Some []);
     runScript := fun _ _ => Ok tt;
     elementAt := fun _ _ _ => Ok (Some loginButton);
     windowSize := fun _ =>
       Ok {| width := VNumber 1000; height := VNumber 1000 |};
     wrapped := fun _ _ => Ok VUndefined;
     viewportSize := fun _ => None;
     pageUrl := fun _ => lit "https://example.com/";
     act := fun _ _ => Throw (lit "Target closed") |}.

(** As [fine], but no script runs in the page and the mouse fails. *)
Definition frozen : Env :=
  {| getPage := fun _ => Ok tt;
     getMcpClient := fun _ => Ok tt;
     callTool := fun _ _ _ => Ok (Some []);
     runScript := fun _ _ => Throw (lit "Execution context was destroyed");
     elementAt := fun _ _ _ => Throw (lit "Execution context was destroyed");
     windowSize := fun _ => Throw (lit "Execution context was destroyed");
     wrapped := fun _ _ => Throw (lit "Execution context was destroyed");
     viewportSize := fun _ =>
       Some {| width := VNumber 1000; height := VNumber 1000 |};
     pageUrl := fun _ => lit "https://example.com/";
     act := fun _ _ => Throw (lit "Target closed") |}.

End Tools.

(* ===================================================================== *)
(** * Part II: properties                                                 *)
(* ===================================================================== *)

Unset Implicit Arguments.

(** ** Strings *)

Module JsFacts.
Import Js.

Lemma startsWith_app (p rest : jsstring) : startsWith p (p ++ rest) = true.
Proof.
  induction p as [|c p IH]; simpl; [reflexivity|].
  now rewrite N.eqb_refl, IH.
Qed.

Lemma startsWith_inv (p s : jsstring) :
  startsWith p s = true -> exists rest, s = p ++ rest.
Proof.
  revert s. induction p as [|c p IH]; intros s H.
  - now exists s.
  - destruct s as [|d s]; simpl in H; [discriminate|].
    apply andb_true_iff in H. destruct H as [Hc Hp].
    apply N.eqb_eq in Hc. subst d.
    destruct (IH _ Hp) as [rest ->]. now exists rest.
Qed.

Lemma includes_here (p s : jsstring) :
  startsWith p s = true -> includes p s = true.
Proof. intros H. destruct s; simpl; now rewrite H. Qed.

Lemma includes_intro (p before rest : jsstring) :
  includes p (before ++ p ++ rest) = true.
Proof.
  induction before as [|c b IH]; simpl.
  - apply includes_here, startsWith_app.
  - rewrite IH. apply orb_true_r.
Qed.

Lemma includes_inv (p s : jsstring) :
  includes p s = true -> exists before rest, s = before ++ p ++ rest.
Proof.
  induction s as [|c s IH]; simpl; intros H.
  - rewrite orb_false_r in H. destruct (startsWith_inv _ _ H) as [rest E].
    now exists [], rest.
  - apply orb_true_iff in H. destruct H as [H|H].
    + destruct (startsWith_inv _ _ H) as [rest E]. now exists [], rest.
    + destruct (IH H) as (b & rest & ->). now exists (c :: b), rest.
Qed.

Lemma includes_false_tail (p : jsstring) (c : N) (s : jsstring) :
  includes p (c :: s) = false ->
  startsWith p (c :: s) = false /\ includes p s = false.
Proof. simpl. intros H. now apply orb_false_iff in H. Qed.

(** A prefix that fits into the first part of a concatenation lies in it. *)
Lemma startsWith_short (p x y : jsstring) :
  startsWith p (x ++ y) = true -> length p <= length x -> startsWith p x = true.
Proof.
  revert x. induction p as [|c p IH]; intros x H L; [reflexivity|].
  destruct x as [|d x]; simpl in L; [lia|].
  simpl in H |- *. apply andb_true_iff in H. destruct H as [-> Hp].
  simpl. apply IH; [exact Hp | lia].
Qed.

Lemma startsWith_extend (p x y : jsstring) :
  startsWith p x = true -> startsWith p (x ++ y) = true.
Proof.
  intros H. destruct (startsWith_inv _ _ H) as [rest ->].
  rewrite <- app_assoc. apply startsWith_app.
Qed.

Lemma includes_extend (p x y : jsstring) :
  includes p x = true -> includes p (x ++ y) = true.
Proof.
  intros H. destruct (includes_inv _ _ H) as (b & r & ->).
  rewrite <- !app_assoc. apply includes_intro.
Qed.

(** *** [split] *)

Lemma splitFrom_skip (sep x cur rest : jsstring) :
  splitFrom sep (length x) cur (x ++ rest) = splitFrom sep 0 cur rest.
Proof.
  induction x as [|c x IH]; simpl; [|exact IH].
  destruct rest; reflexivity.
Qed.

Lemma firstAt_tail (sep : jsstring) (c : N) (pre rest : jsstring) :
  sep <> [] ->
  firstAt sep (c :: pre) = true ->
  startsWith sep (c :: pre ++ sep ++ rest) = false /\ firstAt sep pre = true.
Proof.
  unfold firstAt. intros Hsep H. apply negb_true_iff in H.
  change ((c :: pre) ++ removelast sep) with (c :: (pre ++ removelast sep)) in H.
  apply includes_false_tail in H. destruct H as [H1 H2].
  split; [|now rewrite H2].
  destruct (startsWith sep (c :: pre ++ sep ++ rest)) eqn:E; [|reflexivity].
  rewrite <- H1. symmetry.
  assert (Hs : sep = removelast sep ++ [last sep 0%N])
    by now apply app_removelast_last.
  apply startsWith_short with (y := last sep 0%N :: rest).
  - change (c :: pre ++ removelast sep) with ((c :: pre) ++ removelast sep).
    rewrite <- app_assoc.
    change (last sep 0%N :: rest) with ([last sep 0%N] ++ rest).
    rewrite (app_assoc (removelast sep)), <- Hs. exact E.
  - simpl. rewrite length_app.
    rewrite Hs at 1. rewrite length_app. simpl. lia.
Qed.

Lemma splitFrom_first (sep pre rest cur : jsstring) :
  sep <> [] ->
  firstAt sep pre = true ->
  splitFrom sep 0 cur (pre ++ sep ++ rest)
  = (rev cur ++ pre) :: splitFrom sep 0 [] rest.
Proof.
  intros Hsep. revert cur.
  induction pre as [|c pre IH]; intros cur H.
  - rewrite app_nil_r. destruct sep as [|d sep]; [congruence|].
    simpl app.
    change (splitFrom (d :: sep) 0 cur (d :: sep ++ rest))
      with (if startsWith (d :: sep) (d :: sep ++ rest)
            then rev cur :: splitFrom (d :: sep) (length (d :: sep) - 1) [] (sep ++ rest)
            else splitFrom (d :: sep) 0 (d :: cur) (sep ++ rest)).
    assert (E : startsWith (d :: sep) (d :: sep ++ rest) = true)
      by apply (startsWith_app (d :: sep) rest).
    rewrite E.
    replace (length (d :: sep) - 1) with (length sep) by (simpl; lia).
    now rewrite splitFrom_skip.
  - destruct (firstAt_tail sep c pre rest Hsep H) as [H1 H2].
    change (splitFrom sep 0 cur ((c :: pre) ++ sep ++ rest))
      with (if startsWith sep (c :: pre ++ sep ++ rest)
            then rev cur :: splitFrom sep (length sep - 1) [] (pre ++ sep ++ rest)
            else splitFrom sep 0 (c :: cur) (pre ++ sep ++ rest)).
    rewrite H1, (IH (c :: cur) H2). simpl. now rewrite <- app_assoc.
Qed.

Lemma splitFrom_none (sep s cur : jsstring) :
  includes sep s = false -> splitFrom sep 0 cur s = [rev cur ++ s].
Proof.
  revert cur. induction s as [|c s IH]; intros cur H.
  - simpl. now rewrite app_nil_r.
  - apply includes_false_tail in H. destruct H as [H1 H2].
    change (splitFrom sep 0 cur (c :: s))
      with (if startsWith sep (c :: s)
            then rev cur :: splitFrom sep (length sep - 1) [] s
            else splitFrom sep 0 (c :: cur) s).
    rewrite H1, (IH (c :: cur) H2). simpl. now rewrite <- app_assoc.
Qed.

Lemma split_first (sep pre rest : jsstring) :
  sep <> [] ->
  firstAt sep pre = true ->
  split sep (pre ++ sep ++ rest) = pre :: split sep rest.
Proof.
  intros Hsep H. destruct sep as [|d sep]; [congruence|].
  unfold split. now rewrite splitFrom_first.
Qed.

Lemma split_none (sep s : jsstring) :
  sep <> [] -> includes sep s = false -> split sep s = [s].
Proof.
  intros Hsep H. destruct sep as [|d sep]; [congruence|].
  unfold split. now rewrite splitFrom_none.
Qed.

(** *** [trim] *)

Lemma trimStart_idem (s : jsstring) : trimStart (trimStart s) = trimStart s.
Proof.
  induction s as [|c s IH]; simpl; [reflexivity|].
  destruct (isWhiteSpace c) eqn:E; [exact IH|]. simpl. now rewrite E.
Qed.

Lemma trimStart_head (s : jsstring) :
  trimStart s = [] \/
  exists c r, trimStart s = c :: r /\ isWhiteSpace c = false.
Proof.
  induction s as [|c s IH]; simpl; [now left|].
  destruct (isWhiteSpace c) eqn:E; [exact IH|].
  right. now exists c, s.
Qed.

Lemma trimEnd_snoc (s : jsstring) (c : N) :
  trimEnd (s ++ [c]) = if isWhiteSpace c then trimEnd s else s ++ [c].
Proof.
  unfold trimEnd. rewrite rev_app_distr. simpl.
  destruct (isWhiteSpace c); [reflexivity|].
  simpl. now rewrite rev_involutive.
Qed.

Lemma trimEnd_cons (c : N) (s : jsstring) :
  isWhiteSpace c = false -> trimEnd (c :: s) = c :: trimEnd s.
Proof.
  intros Hc. induction s as [|d s IH] using rev_ind.
  - unfold trimEnd. simpl. now rewrite Hc.
  - change (c :: s ++ [d]) with ((c :: s) ++ [d]).
    rewrite !trimEnd_snoc. destruct (isWhiteSpace d); [exact IH|reflexivity].
Qed.

Lemma trimEnd_idem (s : jsstring) : trimEnd (trimEnd s) = trimEnd s.
Proof.
  unfold trimEnd. now rewrite rev_involutive, trimStart_idem.
Qed.

Lemma trim_nil : trim [] = [].
Proof. reflexivity. Qed.

(** A trimmed string is empty or begins with a code unit that is no
    white space, and trimming it again changes nothing. *)
Lemma trim_shape (s : jsstring) :
  trim s = [] \/
  exists c r, trim s = c :: trimEnd r /\ isWhiteSpace c = false.
Proof.
  unfold trim. destruct (trimStart_head s) as [E | (c & r & E & Hc)].
  - left. now rewrite E.
  - right. exists c, r. now rewrite E, trimEnd_cons.
Qed.

Lemma trim_idem (s : jsstring) : trim (trim s) = trim s.
Proof.
  destruct (trim_shape s) as [E | (c & r & E & Hc)]; rewrite E.
  - reflexivity.
  - unfold trim. simpl. rewrite Hc.
    now rewrite trimEnd_cons, trimEnd_idem.
Qed.

(** What the narrative channel keeps of a segment that was trimmed and
    closed by a line feed. *)
Lemma trim_line (s : jsstring) : trim (trim s ++ newline) = trim s.
Proof.
  destruct (trim_shape s) as [E | (c & r & E & Hc)]; rewrite E.
  - reflexivity.
  - unfold trim, newline. simpl. rewrite Hc.
    change (c :: trimEnd r ++ [10%N]) with ((c :: trimEnd r) ++ [10%N]).
    rewrite trimEnd_snoc. simpl.
    now rewrite trimEnd_cons, trimEnd_idem.
Qed.

(** *** [toLowerCase] *)

Section WithRuntime.
Context {rt : Runtime}.

Lemma lowerFrom_fixed (p before rest : jsstring) :
  forallb lowerFixed p = true ->
  lowerFrom before (p ++ rest) = p ++ lowerFrom (before ++ p) rest.
Proof.
  revert before. induction p as [|c p IH]; intros before H; simpl.
  - now rewrite app_nil_r.
  - simpl in H. apply andb_true_iff in H. destruct H as [Hc Hp].
    unfold lowerFixed in Hc. apply andb_true_iff in Hc. destruct Hc as [H1 H2].
    apply N.eqb_eq in H2. rewrite H1, H2. simpl.
    rewrite (IH (before ++ [c]) Hp), <- app_assoc. reflexivity.
Qed.

Lemma lowerFrom_app (a before rest : jsstring) :
  exists x, lowerFrom before (a ++ rest) = x ++ lowerFrom (before ++ a) rest.
Proof.
  revert before. induction a as [|c a IH]; intros before; simpl.
  - exists []. now rewrite app_nil_r.
  - destruct (IH (before ++ [c])) as [x E]. rewrite E, <- app_assoc. simpl.
    eexists. rewrite app_assoc. reflexivity.
Qed.

(** A pattern of fixed ASCII code units that a string contains is still
    there after [toLowerCase]. *)
Lemma includes_toLowerCase (p s : jsstring) :
  forallb lowerFixed p = true ->
  includes p s = true -> includes p (toLowerCase s) = true.
Proof.
  intros Hp H. destruct (includes_inv _ _ H) as (a & rest & ->).
  unfold toLowerCase. destruct (lowerFrom_app a [] (p ++ rest)) as [x ->].
  rewrite lowerFrom_fixed by exact Hp. apply includes_intro.
Qed.

End WithRuntime.

End JsFacts.

(** ** The overlay heuristic *)

Module OverlayFacts.
Import Js JsFacts Overlay.

Section WithRuntime.
Context {rt : Runtime}.

Lemma scanRoles_spec (roles : list jsstring) (line l : jsstring) (els : list jsstring) :
  scanRoles roles line l els
  = els ++ (if existsb (fun role => includes (roleAttribute role) l
                                    || includes (roleWord role) l) roles
            then [trim line] else []).
Proof.
  induction roles as [|r roles IH]; simpl.
  - now rewrite app_nil_r.
  - destruct (includes (roleAttribute r) l || includes (roleWord r) l);
      [reflexivity | exact IH].
Qed.

Lemma scanLine_overlay (acc : Found) (line : jsstring) :
  overlayElements (scanLine acc line) = overlayElements acc ++ lineOverlays line.
Proof.
  unfold scanLine, lineOverlays, roleHit. cbn [overlayElements].
  rewrite scanRoles_spec.
  destruct (includes ariaModal (toLowerCase line)).
  - now rewrite <- app_assoc.
  - now rewrite !app_nil_r.
Qed.

Lemma fold_scanLine_overlay (lines : list jsstring) (acc : Found) :
  overlayElements (fold_left scanLine lines acc)
  = overlayElements acc ++ flat_map lineOverlays lines.
Proof.
  revert acc. induction lines as [|line lines IH]; intros acc; simpl.
  - now rewrite app_nil_r.
  - now rewrite IH, scanLine_overlay, <- app_assoc.
Qed.

Lemma scanLines_overlay (lines : list jsstring) :
  overlayElements (scanLines lines) = flat_map lineOverlays lines.
Proof. unfold scanLines. now rewrite fold_scanLine_overlay. Qed.

Lemma lineOverlays_nonempty (line : jsstring) :
  Nat.ltb 0 (length (lineOverlays line)) = overlayLine line.
Proof.
  unfold lineOverlays, overlayLine.
  destruct (roleHit (toLowerCase line)), (includes ariaModal (toLowerCase line));
    reflexivity.
Qed.

Lemma overlays_nonempty (lines : list jsstring) :
  Nat.ltb 0 (length (flat_map lineOverlays lines)) = existsb overlayLine lines.
Proof.
  induction lines as [|line lines IH]; simpl; [reflexivity|].
  rewrite length_app, <- IH, <- lineOverlays_nonempty.
  destruct (length (lineOverlays line)), (length (flat_map lineOverlays lines));
    reflexivity.
Qed.

Lemma hasOverlay_lines (snapshot : jsstring) :
  hasOverlay (detectBlockingOverlays snapshot)
  = existsb overlayLine (split newline snapshot).
Proof.
  unfold detectBlockingOverlays. cbn [hasOverlay].
  now rewrite scanLines_overlay, overlays_nonempty.
Qed.

Lemma markers_fixed (marker : jsstring) :
  In marker overlayMarkers -> forallb lowerFixed marker = true.
Proof.
  intros H. repeat (destruct H as [<- | H]; [reflexivity|]). destruct H.
Qed.

(** A line that contains one of the four markers counts. *)
Lemma marker_overlayLine (line marker : jsstring) :
  In marker overlayMarkers -> includes marker line = true ->
  overlayLine line = true.
Proof.
  intros Hm H.
  pose proof (includes_toLowerCase _ _ (markers_fixed _ Hm) H) as L.
  unfold overlayLine, roleHit, overlayRoles.
  cbn [overlayMarkers overlayRoles map app] in Hm. cbn [existsb].
  destruct Hm as [<- | [<- | [<- | [<- | []]]]]; rewrite L;
    repeat rewrite ?orb_true_r, ?orb_true_l; reflexivity.
Qed.

(** C9, as amended.  A snapshot has an overlay as soon as one of its
    lines contains [role="dialog"], [role="alertdialog"], [role="tooltip"]
    or [aria-modal="true"]; it has none when no line, in lower case,
    contains one of these markers or one of the three role names as a word
    between two spaces; and the description shows the first three entries
    collected, and no more. *)
Theorem overlay_detection (snapshot : jsstring) :
  let check := detectBlockingOverlays snapshot in
  let lines := split newline snapshot in
  (forall line marker,
      In line lines -> In marker overlayMarkers ->
      includes marker line = true -> hasOverlay check = true)
  /\ ((forall line, In line lines -> overlayLine line = false) ->
      hasOverlay check = false)
  /\ overlayInfo check
     = (if hasOverlay check
        then lit "Detected overlay elements:" ++ newline
             ++ join newline (firstn 3 (flat_map lineOverlays lines))
        else [])
  /\ length (firstn 3 (flat_map lineOverlays lines)) <= 3.
Proof.
  cbv zeta. repeat split.
  - intros line marker Hl Hm H. rewrite hasOverlay_lines.
    apply existsb_exists. exists line. split; [exact Hl|].
    now apply marker_overlayLine with marker.
  - intros H. rewrite hasOverlay_lines.
    destruct (existsb overlayLine (split newline snapshot)) eqn:E; [|reflexivity].
    apply existsb_exists in E. destruct E as (line & Hl & Ho).
    now rewrite (H line Hl) in Ho.
  - unfold detectBlockingOverlays. cbn [hasOverlay overlayInfo].
    now rewrite scanLines_overlay.
  - rewrite length_firstn. apply Nat.le_min_l.
Qed.

End WithRuntime.

Lemma overlay_detection_witness :
  hasOverlay (@detectBlockingOverlays plainRuntime attributeSnapshot) = true
  /\ hasOverlay (@detectBlockingOverlays plainRuntime plainSnapshot) = false.
Proof.
  split.
  - apply (proj1 (@overlay_detection plainRuntime attributeSnapshot)
             attributeSnapshot (roleAttribute (lit "dialog"))).
    + left. reflexivity.
    + left. reflexivity.
    + reflexivity.
  - apply (proj1 (proj2 (@overlay_detection plainRuntime plainSnapshot))).
    intros line [<- | [<- | []]]; reflexivity.
Defined.

(** C9 as stated fails: a snapshot without any of the four markers has an
    overlay when a line holds the word [dialog] between two spaces. *)
Lemma overlay_word_counterexample :
  ~ (forall (rt : Runtime) (snapshot : jsstring),
        (forall line marker,
            In line (split newline snapshot) -> In marker overlayMarkers ->
            includes marker line = false) ->
        hasOverlay (detectBlockingOverlays snapshot) = false).
Proof.
  intros H. specialize (H plainRuntime dialogSnapshot).
  assert (E : hasOverlay (@detectBlockingOverlays plainRuntime dialogSnapshot) = true)
    by reflexivity.
  rewrite H in E; [discriminate|].
  intros line marker [<- | [<- | []]] [<- | [<- | [<- | [<- | []]]]]; reflexivity.
Qed.

End OverlayFacts.

(** ** Tool responses *)

Module ResponseFacts.
Import Js JsFacts Response.

Lemma marker_nonempty : marker <> [].
Proof. discriminate. Qed.

Lemma split_nonempty (sep s : jsstring) : split sep s <> [] \/ (sep = [] /\ s = []).
Proof.
  destruct sep as [|d sep].
  - destruct s; [now right | left; discriminate].
  - left. unfold split. generalize (@nil N) as cur, 0 as skip.
    induction s as [|c s IH]; intros cur skip; simpl; [discriminate|].
    destruct skip; [|apply IH].
    destruct (N.eqb d c && startsWith sep s); [discriminate | apply IH].
Qed.

Lemma nonEmpty_app_marker (pre post : jsstring) :
  nonEmpty (pre ++ marker ++ post) = true.
Proof. destruct pre; reflexivity. Qed.

(** The two channels for a response that is one text part in which the
    first marker stands after [pre]. *)
Lemma processToolResponse_split (pre post : jsstring) :
  firstAt marker pre = true ->
  processToolResponse [TextItem (pre ++ marker ++ post)]
  = {| text := trim pre; snapshot := trim (hd [] (split marker post)) |}.
Proof.
  intros H. unfold processToolResponse, processItem. cbn [fold_left].
  rewrite nonEmpty_app_marker, includes_intro.
  rewrite (split_first _ _ post marker_nonempty H).
  unfold part. cbn [nth_error textOutput foundSnapshot].
  destruct (split_nonempty marker post) as [Hn | [Hm _]];
    [|now destruct marker_nonempty].
  destruct (split marker post) as [|seg more]; [congruence|].
  cbn [nth_error hd app].
  f_equal.
  - destruct (trim pre) eqn:E; cbn [nonEmpty]; [reflexivity|].
    rewrite <- E. apply trim_line.
  - destruct seg; cbn [nonEmpty]; [reflexivity | apply trim_idem].
Qed.

Lemma processToolResponse_uid (t : jsstring) :
  includes marker t = false -> includes (lit "uid=") t = true ->
  processToolResponse [TextItem t] = {| text := []; snapshot := trim t |}.
Proof.
  intros Hm Hu. unfold processToolResponse, processItem. cbn [fold_left].
  rewrite Hm, Hu. destruct t; reflexivity.
Qed.

(** C8, as amended.  For a response that is one text part in which the
    first marker stands after [pre]: the narrative channel is [pre],
    trimmed, so it holds nothing of what follows the marker; the snapshot
    channel is what stands between that marker and the next one, trimmed,
    which is all that follows when the marker does not occur again.  The
    example of the specification comes out as stated.  A text part without
    the marker that contains [uid=] is added to the snapshot channel as a
    whole and leaves the narrative channel alone. *)
Theorem processToolResponse_channels :
  (forall pre post,
      firstAt marker pre = true ->
      text (processToolResponse [TextItem (pre ++ marker ++ post)]) = trim pre
      /\ (includes marker post = false ->
          snapshot (processToolResponse [TextItem (pre ++ marker ++ post)])
          = trim post)
      /\ (forall mid rest,
             post = mid ++ marker ++ rest -> firstAt marker mid = true ->
             snapshot (processToolResponse [TextItem (pre ++ marker ++ post)])
             = trim mid))
  /\ processToolResponse [TextItem exampleText]
     = {| text := lit "foo";
          snapshot := lit "uid=1 button " ++ dquote :: lit "A" ++ [dquote] |}
  /\ (forall acc t,
         includes marker t = false -> includes (lit "uid=") t = true ->
         processItem acc (TextItem t)
         = {| textOutput := textOutput acc;
              foundSnapshot := foundSnapshot acc ++ t |})
  /\ (forall t,
         includes marker t = false -> includes (lit "uid=") t = true ->
         processToolResponse [TextItem t] = {| text := []; snapshot := trim t |}).
Proof.
  split; [|split; [|split]].
  - intros pre post H. rewrite (processToolResponse_split pre post H).
    cbn [text snapshot]. split; [reflexivity|]. split.
    + intros Hn. now rewrite (split_none _ _ marker_nonempty Hn).
    + intros mid rest -> Hmid.
      now rewrite (split_first _ _ rest marker_nonempty Hmid).
  - reflexivity.
  - intros acc t Hm Hu. unfold processItem. rewrite Hm, Hu.
    destruct t; [discriminate Hu | reflexivity].
  - exact processToolResponse_uid.
Qed.

Lemma str_eqb_refl (a : jsstring) : str_eqb a a = true.
Proof. induction a as [|c a IH]; simpl; [reflexivity|]. now rewrite N.eqb_refl. Qed.

(** C8 as stated fails: when the marker stands twice in a text part, no
    occurrence of it has the narrative channel before it and the snapshot
    channel after it.  The channels of [twiceMarked] are [a] and [b]. *)
Lemma marker_twice_counterexample :
  ~ (forall t,
        includes marker t = true ->
        exists pre post,
          t = pre ++ marker ++ post
          /\ text (processToolResponse [TextItem t]) = trim pre
          /\ snapshot (processToolResponse [TextItem t]) = trim post).
Proof.
  intros H. destruct (H twiceMarked eq_refl) as (pre & post & E & Ht & Hs).
  assert (Hall : forallb (fun k => negb (fits twiceMarked k))
                   (seq 0 (S (length twiceMarked))) = true)
    by (vm_compute; reflexivity).
  rewrite forallb_forall in Hall.
  assert (Hk : In (length pre) (seq 0 (S (length twiceMarked)))).
  { apply in_seq. rewrite E, length_app. lia. }
  specialize (Hall _ Hk). apply negb_true_iff in Hall.
  unfold fits in Hall. rewrite Ht, Hs in Hall.
  rewrite E in Hall at 1 2.
  rewrite firstn_app, Nat.sub_diag, firstn_all in Hall.
  cbn [firstn] in Hall. rewrite app_nil_r in Hall.
  rewrite app_assoc, <- length_app, skipn_app in Hall.
  rewrite Nat.sub_diag, skipn_all in Hall. cbn [skipn app] in Hall.
  now rewrite !str_eqb_refl in Hall.
Qed.

Lemma processToolResponse_channels_witness :
  text (processToolResponse [TextItem twiceMarked]) = lit "a"
  /\ snapshot (processToolResponse [TextItem twiceMarked]) = lit "b"
  /\ snapshot (processToolResponse [TextItem exampleText])
     = lit "uid=1 button " ++ dquote :: lit "A" ++ [dquote]
  /\ processToolResponse [TextItem (lit "uid=7 link Home")]
     = {| text := []; snapshot := lit "uid=7 link Home" |}
  /\ processItem {| textOutput := lit "Clicked"; foundSnapshot := [] |}
       (TextItem (lit "uid=7 link Home"))
     = {| textOutput := lit "Clicked"; foundSnapshot := lit "uid=7 link Home" |}.
Proof.
  pose proof processToolResponse_channels as (Hmark & _ & Hitem & Huid).
  destruct (Hmark (lit "a") (lit "b" ++ marker ++ lit "c") eq_refl)
    as (Ht & _ & Hmid).
  destruct (Hmark (lit "foo" ++ newline)
              (newline ++ lit "uid=1 button " ++ dquote :: lit "A" ++ [dquote])
              eq_refl) as (_ & Hnone & _).
  split; [|split; [|split; [|split]]].
  - exact Ht.
  - exact (Hmid (lit "b") (lit "c") eq_refl eq_refl).
  - exact (Hnone eq_refl).
  - exact (Huid (lit "uid=7 link Home") eq_refl eq_refl).
  - exact (Hitem {| textOutput := lit "Clicked"; foundSnapshot := [] |}
             (lit "uid=7 link Home") eq_refl eq_refl).
Defined.

End ResponseFacts.

(** ** The agent: how runs compose *)

Module AgentFacts.
Import Js Response Agent.

Section Composition.
Context {A B : Type}.
Variable phi : nat * Effect -> Prop.

Lemma emits_ret (a : A) : emits phi (ret a).
Proof. intros t. constructor. Qed.

Lemma emits_throw (e : jsstring) : emits phi (@throw A e).
Proof. intros t. constructor. Qed.

Lemma emits_bind (m : M A) (k : A -> M B) :
  emits phi m -> (forall a, emits phi (k a)) -> emits phi (bind m k).
Proof.
  intros Hm Hk t. unfold bind. specialize (Hm t).
  destruct (result (m t)) as [a|e]; cbn [effects]; [|exact Hm].
  apply Forall_app. split; [exact Hm | apply Hk].
Qed.

Lemma emits_tryCatch (m : M A) (h : jsstring -> M A) :
  emits phi m -> (forall e, emits phi (h e)) -> emits phi (tryCatch m h).
Proof.
  intros Hm Hh t. unfold tryCatch. specialize (Hm t).
  destruct (result (m t)) as [a|e]; cbn [effects]; [exact Hm|].
  apply Forall_app. split; [exact Hm | apply Hh].
Qed.

Lemma emits_await (e : Effect) (answer : nat -> Res A) :
  (forall t, phi (t, e)) -> emits phi (await e answer).
Proof. intros H t. repeat constructor. apply H. Qed.

Lemma total_ret (a : A) : total (ret a).
Proof. intros t. now exists a. Qed.

Lemma total_bind (m : M A) (k : A -> M B) :
  total m -> (forall a, total (k a)) -> total (bind m k).
Proof.
  intros Hm Hk t. unfold bind. destruct (Hm t) as [a ->]. apply Hk.
Qed.

Lemma total_tryCatch (m : M A) (h : jsstring -> M A) :
  (forall e, total (h e)) -> total (tryCatch m h).
Proof.
  intros Hh t. unfold tryCatch.
  destruct (result (m t)) as [a|e] eqn:E; [now exists a | apply Hh].
Qed.

Lemma total_await (e : Effect) (a : nat -> A) :
  total (await e (fun t => Ok (a t))).
Proof. intros t. now exists (a t). Qed.

End Composition.

Lemma emits_emit (phi : nat * Effect -> Prop) (e : Effect) :
  (forall t, phi (t, e)) -> emits phi (emit e).
Proof. intros H t. repeat constructor. apply H. Qed.

Lemma emits_pull (phi : nat * Effect -> Prop) : emits phi pull.
Proof. intros t. constructor. Qed.

Lemma emits_aborted (phi : nat * Effect -> Prop) (env : Env) :
  emits phi (aborted env).
Proof. intros t. constructor. Qed.

Lemma total_emit (e : Effect) : total (emit e).
Proof. intros t. now exists tt. Qed.

Lemma total_pull : total pull.
Proof. intros t. now exists tt. Qed.

Lemma total_aborted (env : Env) : total (aborted env).
Proof. intros t. now eexists. Qed.

Lemma emits_weaken {A} (phi psi : nat * Effect -> Prop) (m : M A) :
  (forall e, phi e -> psi e) -> emits phi m -> emits psi m.
Proof. intros H Hm t. eapply Forall_impl; [exact H | apply Hm]. Qed.

(** The steps shared by the proofs that a piece of the agent emits only
    effects of some kind, or never throws. *)
Ltac emits_step :=
  first
    [ assumption
    | apply emits_ret
    | apply emits_throw
    | apply emits_pull
    | apply emits_aborted
    | apply emits_emit; intros ?; try (first [reflexivity | split; reflexivity])
    | apply emits_await; intros ?; try (first [reflexivity | split; reflexivity])
    | apply emits_bind; [|intros ?]
    | apply emits_tryCatch; [|intros ?]
    | match goal with
      | |- emits _ (if ?b then _ else _) => destruct b
      | |- emits _ (match ?x with _ => _ end) => destruct x
      end ].

Ltac total_step :=
  first
    [ assumption
    | apply total_ret
    | apply total_pull
    | apply total_aborted
    | apply total_emit
    | apply total_await
    | apply total_bind; [|intros ?]
    | apply total_tryCatch; intros ?
    | match goal with
      | |- total (if ?b then _ else _) => destruct b
      | |- total (match ?x with _ => _ end) => destruct x
      end ].

Lemma count_app (kind : Effect -> bool) (l l' : list (nat * Effect)) :
  count kind (l ++ l') = count kind l + count kind l'.
Proof. unfold count. now rewrite filter_app, length_app. Qed.

Lemma only_app (kind : Effect -> bool) (l l' : list (nat * Effect)) :
  only kind (l ++ l') = only kind l ++ only kind l'.
Proof. unfold only. now rewrite map_app, filter_app. Qed.

Lemma only_cons (kind : Effect -> bool) (e : nat * Effect) (l : list (nat * Effect)) :
  only kind (e :: l) = (if kind (snd e) then [snd e] else []) ++ only kind l.
Proof. unfold only. simpl. now destruct (kind (snd e)). Qed.

Lemma only_none (kind : Effect -> bool) (l : list (nat * Effect)) :
  Forall (fun e => kind (snd e) = false) l -> only kind l = [].
Proof.
  unfold only. induction 1 as [|e l He _ IH]; simpl; [reflexivity|].
  now rewrite He.
Qed.

Lemma count_only (kind : Effect -> bool) (l : list (nat * Effect)) :
  count kind l = length (only kind l).
Proof.
  unfold count, only. induction l as [|e l IH]; simpl; [reflexivity|].
  destruct (kind (snd e)); simpl; now rewrite IH.
Qed.

Lemma count_none (kind : Effect -> bool) (l : list (nat * Effect)) :
  Forall (fun e => kind (snd e) = false) l -> count kind l = 0.
Proof. intros H. now rewrite count_only, only_none. Qed.

(** How [bind] and [tryCatch] run. *)
Lemma bind_ok {A B} (m : M A) (k : A -> M B) (t : nat) (a : A) :
  result (m t) = Ok a ->
  bind m k t = {| result := result (k a (endTick (m t)));
                  endTick := endTick (k a (endTick (m t)));
                  effects := effects (m t) ++ effects (k a (endTick (m t))) |}.
Proof. intros H. unfold bind. now rewrite H. Qed.

Lemma bind_throw {A B} (m : M A) (k : A -> M B) (t : nat) (e : jsstring) :
  result (m t) = Throw e ->
  bind m k t = {| result := Throw e; endTick := endTick (m t);
                  effects := effects (m t) |}.
Proof. intros H. unfold bind. now rewrite H. Qed.

Lemma emit_then {B} (e : Effect) (k : M B) (t : nat) :
  (emit e;; k) t
  = {| result := result (k t); endTick := endTick (k t);
       effects := (t, e) :: effects (k t) |}.
Proof. reflexivity. Qed.

Lemma pull_then {B} (k : M B) (t : nat) : (pull;; k) t = k (S t).
Proof. reflexivity. Qed.

Lemma aborted_then {B} (env : Env) (k : bool -> M B) (t : nat) :
  (b <- aborted env;; k b) t = k (isAborted env t) t.
Proof. reflexivity. Qed.

Lemma await_then {A B} (e : Effect) (answer : nat -> Res A) (k : A -> M B)
    (t : nat) :
  (x <- await e answer;; k x) t
  = match answer t with
    | Ok a => {| result := result (k a (S t)); endTick := endTick (k a (S t));
                 effects := (t, e) :: effects (k a (S t)) |}
    | Throw e' => {| result := Throw e'; endTick := S t; effects := [(t, e)] |}
    end.
Proof. unfold bind. cbn [await result endTick effects]. now destruct (answer t). Qed.

Lemma tryCatch_throw {A} (m : M A) (h : jsstring -> M A) (t : nat) (e : jsstring) :
  result (m t) = Throw e ->
  tryCatch m h t = {| result := result (h e (endTick (m t)));
                      endTick := endTick (h e (endTick (m t)));
                      effects := effects (m t) ++ effects (h e (endTick (m t))) |}.
Proof. intros H. unfold tryCatch. now rewrite H. Qed.

Lemma tryCatch_ok {A} (m : M A) (h : jsstring -> M A) (t : nat) (a : A) :
  result (m t) = Ok a -> tryCatch m h t = m t.
Proof. intros H. unfold tryCatch. now rewrite H. Qed.

Lemma returns_ret {A} (P : A -> Prop) (a : A) : P a -> returns P (ret a).
Proof. intros H t a' E. injection E as <-. exact H. Qed.

Lemma returns_throw {A} (P : A -> Prop) (e : jsstring) : returns P (@throw A e).
Proof. intros t a E. discriminate E. Qed.

Lemma returns_bind {A B} (P : B -> Prop) (m : M A) (k : A -> M B) :
  (forall a, returns P (k a)) -> returns P (bind m k).
Proof.
  intros Hk t b. unfold bind.
  destruct (result (m t)) as [a|e]; cbn [result]; [apply Hk | discriminate].
Qed.

Lemma returns_tryCatch {A} (P : A -> Prop) (m : M A) (h : jsstring -> M A) :
  returns P m -> (forall e, returns P (h e)) -> returns P (tryCatch m h).
Proof.
  intros Hm Hh t a. unfold tryCatch.
  destruct (result (m t)) as [a'|e] eqn:E; cbn [result].
  - rewrite E. intros [= <-]. now apply (Hm t).
  - apply Hh.
Qed.

Lemma completions_app (l l' : list (nat * Effect)) :
  completions (l ++ l') = completions l ++ completions l'.
Proof. apply flat_map_app. Qed.

Lemma completions_none (l : list (nat * Effect)) :
  Forall (fun e => isCompletion (snd e) = false) l -> completions l = [].
Proof.
  induction 1 as [|[t e] l He _ IH]; simpl; [reflexivity|].
  rewrite IH. destruct e as [d|n| | | | | | | | |]; try reflexivity.
  destruct n; try reflexivity. discriminate He.
Qed.

Lemma flags_same (v : Vars) (l : list (nat * Effect)) :
  completions l = [] -> flags v l v.
Proof.
  intros E. unfold flags. rewrite E. simpl.
  now rewrite orb_false_r.
Qed.

Lemma last_nonempty {A} (l : list A) (x y : A) :
  l <> [] -> last l x = last l y.
Proof.
  induction l as [|a l IH]; intros H; [congruence|].
  destruct l as [|b l]; [reflexivity|].
  change (last (b :: l) x = last (b :: l) y). apply IH. discriminate.
Qed.

Lemma last_app_default {A} (l l' : list A) (d : A) :
  last (l ++ l') d = last l' (last l d).
Proof.
  revert d. induction l as [|a l IH]; intros d; [reflexivity|].
  destruct l as [|b l].
  - destruct l' as [|c l']; [reflexivity|].
    change (last (c :: l') d = last (c :: l') a).
    apply last_nonempty. discriminate.
  - change (last ((b :: l) ++ l') d = last l' (last (b :: l) d)).
    apply IH.
Qed.

Lemma flags_app (v v1 v2 : Vars) (l l' : list (nat * Effect)) :
  flags v l v1 -> flags v1 l' v2 -> flags v (l ++ l') v2.
Proof.
  intros (H1 & H2 & H3) (K1 & K2 & K3). unfold flags.
  rewrite completions_app, length_app, last_app_default.
  repeat split; [congruence | | congruence].
  rewrite K2, H2, <- orb_assoc. f_equal.
  destruct (length (completions l)), (length (completions l')); reflexivity.
Qed.

Lemma flags_setInput (v v1 : Vars) (l : list (nat * Effect)) (parts : list Part) :
  flags v l v1 -> flags v l (setInput parts v1).
Proof. exact (fun H => H). Qed.

Lemma str_eqb_eq (a b : jsstring) : str_eqb a b = true -> a = b.
Proof.
  revert b. induction a as [|c a IH]; intros [|d b] H; simpl in H;
    try discriminate; [reflexivity|].
  apply andb_true_iff in H. destruct H as [Hc H].
  apply N.eqb_eq in Hc. now rewrite Hc, (IH b H).
Qed.

Lemma truthy_orElse (a b : JsVal) : truthy b = true -> truthy (orElse a b) = true.
Proof. intros H. unfold orElse. now destruct (truthy a) eqn:E. Qed.

(** The effects of one run, piece by piece. *)
Lemma run_bind {A B} (phi : nat * Effect -> Prop) (m : M A) (k : A -> M B)
    (t : nat) :
  Forall phi (effects (m t)) ->
  (forall a, result (m t) = Ok a -> Forall phi (effects (k a (endTick (m t))))) ->
  Forall phi (effects (bind m k t)).
Proof.
  intros Hm Hk. unfold bind.
  destruct (result (m t)) as [a|e] eqn:E; cbn [effects]; [|exact Hm].
  apply Forall_app. split; [exact Hm | now apply Hk].
Qed.

Lemma run_tryCatch {A} (phi : nat * Effect -> Prop) (m : M A)
    (h : jsstring -> M A) (t : nat) :
  Forall phi (effects (m t)) ->
  (forall e, result (m t) = Throw e -> Forall phi (effects (h e (endTick (m t))))) ->
  Forall phi (effects (tryCatch m h t)).
Proof.
  intros Hm Hh. unfold tryCatch.
  destruct (result (m t)) as [a|e] eqn:E; cbn [effects]; [exact Hm|].
  apply Forall_app. split; [exact Hm | now apply Hh].
Qed.

Lemma atMost_none {A} (kind : Effect -> bool) (m : M A) :
  emits (fun e => kind (snd e) = false) m -> atMost kind 0 m.
Proof. intros H t. now rewrite count_none. Qed.

Lemma atMost_more {A} (kind : Effect -> bool) (n n' : nat) (m : M A) :
  n <= n' -> atMost kind n m -> atMost kind n' m.
Proof. intros L H t. specialize (H t). lia. Qed.

Lemma atMost_bind {A B} (kind : Effect -> bool) (n n' : nat) (m : M A)
    (k : A -> M B) :
  atMost kind n m -> (forall a, atMost kind n' (k a)) ->
  atMost kind (n + n') (bind m k).
Proof.
  intros Hm Hk t. unfold bind. specialize (Hm t).
  destruct (result (m t)) as [a|e]; cbn [effects]; [|lia].
  rewrite count_app. specialize (Hk a (endTick (m t))). lia.
Qed.

Lemma atMost_tryCatch {A} (kind : Effect -> bool) (n n' : nat) (m : M A)
    (h : jsstring -> M A) :
  atMost kind n m -> (forall e, atMost kind n' (h e)) ->
  atMost kind (n + n') (tryCatch m h).
Proof.
  intros Hm Hh t. unfold tryCatch. specialize (Hm t).
  destruct (result (m t)) as [a|e]; cbn [effects]; [lia|].
  rewrite count_app. specialize (Hh e (endTick (m t))). lia.
Qed.

Lemma atMost_await {A} (kind : Effect -> bool) (e : Effect) (answer : nat -> Res A) :
  atMost kind 1 (await e answer).
Proof. intros t. unfold count. cbn. destruct (kind e); cbn; lia. Qed.

Section WithWorld.
Context {rt : Runtime} (env : Env).

Lemma captureScreenshot_total : total (captureScreenshot env).
Proof. unfold captureScreenshot, print, debug. repeat total_step. Qed.

Lemma visualCall_total (call : FunctionCall) : total (visualCall env call).
Proof. unfold visualCall. repeat total_step. Qed.

Lemma visualCalls_total (calls : list FunctionCall) :
  forall rs h, total (visualCalls env calls rs h).
Proof.
  induction calls as [|call calls IH]; intros rs h; simpl.
  - apply total_ret.
  - apply total_bind; [apply visualCall_total | intros r; apply IH].
Qed.

Lemma invalidateCache_total : total (invalidateCache env).
Proof. unfold invalidateCache. repeat total_step. Qed.

(** *** What the pieces below the two loops emit *)

Section Kinds.
Variable phi : nat * Effect -> Prop.

(** [phi] holds of every effect that is of none of the four kinds. *)
Hypothesis phi_other :
  forall t e,
    isModelCall e = false -> isExecution e = false ->
    isVisualModelCall e = false -> isCompletion e = false -> phi (t, e).

Ltac other := apply phi_other; reflexivity.

Ltac kinds_step :=
  first
    [ assumption
    | apply emits_ret
    | apply emits_throw
    | apply emits_pull
    | apply emits_aborted
    | apply emits_emit; intros ?; other
    | apply emits_await; intros ?; other
    | apply emits_bind; [|intros ?]
    | apply emits_tryCatch; [|intros ?]
    | match goal with
      | |- emits _ (if ?b then _ else _) => destruct b
      | |- emits _ (match ?x with _ => _ end) => destruct x
      end ].

Lemma captureScreenshot_emits : emits phi (captureScreenshot env).
Proof.
  unfold captureScreenshot, updateBorderOverlay, print, debug.
  repeat kinds_step.
Qed.

Lemma invalidateCache_emits : emits phi (invalidateCache env).
Proof. unfold invalidateCache. repeat kinds_step. Qed.

Lemma visualCall_emits (call : FunctionCall) : emits phi (visualCall env call).
Proof. unfold visualCall, visualSwitch, readArgs. repeat kinds_step. Qed.

Lemma visualCalls_emits (calls : list FunctionCall) :
  forall rs h, emits phi (visualCalls env calls rs h).
Proof.
  induction calls as [|call calls IH]; intros rs h; simpl.
  - apply emits_ret.
  - apply emits_bind; [apply visualCall_emits | intros r; apply IH].
Qed.

Lemma withHint_emits (r : JsVal) : emits phi (withHint r).
Proof. unfold withHint, debug. repeat kinds_step. Qed.

Lemma fromTool_emits (method : ToolsMethod) (l : list JsVal) :
  emits phi (fromTool env method l).
Proof. unfold fromTool. repeat kinds_step. Qed.

Lemma announce_emits (calls : list FunctionCall) : emits phi (announce calls).
Proof.
  induction calls as [|call calls IH]; simpl; unfold print; repeat kinds_step.
Qed.

Lemma onEvent_emits (event : StreamEvent) (acc : Collected) :
  emits phi (onEvent event acc).
Proof.
  pose proof announce_emits as Ha.
  unfold onEvent, print. repeat kinds_step; apply Ha.
Qed.

Lemma consume_emits (events : list StreamEvent) (failure : option jsstring) :
  forall acc, emits phi (consume env events failure acc).
Proof.
  induction events as [|event events IH]; intros acc; simpl; unfold debug.
  - repeat kinds_step.
  - pose proof onEvent_emits as Ho. repeat kinds_step; [apply Ho | apply IH].
Qed.

End Kinds.

Section Visual.
Variable phi : nat * Effect -> Prop.

(** [phi] holds of every effect but those three by which the orchestrator
    acts. *)
Hypothesis phi_visual :
  forall t e,
    isModelCall e = false -> isExecution e = false ->
    isCompletion e = false -> phi (t, e).

Lemma phi_visual_other :
  forall t e,
    isModelCall e = false -> isExecution e = false ->
    isVisualModelCall e = false -> isCompletion e = false -> phi (t, e).
Proof. intros t e H1 H2 _ H3. now apply phi_visual. Qed.

Ltac visual := apply phi_visual; reflexivity.

Ltac visual_step :=
  first
    [ assumption
    | apply emits_ret
    | apply emits_throw
    | apply emits_aborted
    | apply (captureScreenshot_emits phi phi_visual_other)
    | apply (invalidateCache_emits phi phi_visual_other)
    | apply (visualCalls_emits phi phi_visual_other)
    | apply emits_emit; intros ?; visual
    | apply emits_await; intros ?; visual
    | apply emits_bind; [|intros ?]
    | apply emits_tryCatch; [|intros ?]
    | match goal with
      | |- emits _ (if ?b then _ else _) => destruct b
      | |- emits _ (match ?x with _ => _ end) => destruct x
      end ].

Lemma visualStep_emits (v : VisualVars) : emits phi (visualStep env v).
Proof. unfold visualStep, print. repeat visual_step. Qed.

Lemma visualExhausted_emits (v : VisualVars) : emits phi (visualExhausted env v).
Proof. unfold visualExhausted. repeat visual_step. Qed.

Lemma visualLoop_emits (todo : nat) : forall v, emits phi (visualLoop env todo v).
Proof.
  induction todo as [|todo IH]; intros v; simpl.
  - apply visualExhausted_emits.
  - apply emits_bind; [apply visualStep_emits|].
    intros [v'|v'|r]; [apply IH | apply visualExhausted_emits | apply emits_ret].
Qed.

Lemma runVisualDelegate_emits (instruction : JsVal) (screen : jsstring) :
  emits phi (runVisualDelegate env instruction screen).
Proof. unfold runVisualDelegate. apply visualLoop_emits. Qed.

End Visual.

Section Inner.
Variable phi : nat * Effect -> Prop.

(** [phi] holds of every effect that is no call of the orchestrator model
    and no start of a tool execution. *)
Hypothesis phi_inner :
  forall t e, isModelCall e = false -> isExecution e = false -> phi (t, e).

Lemma phi_inner_visual :
  forall t e,
    isModelCall e = false -> isExecution e = false ->
    isCompletion e = false -> phi (t, e).
Proof. intros t e H1 H2 _. now apply phi_inner. Qed.

Lemma phi_inner_other :
  forall t e,
    isModelCall e = false -> isExecution e = false ->
    isVisualModelCall e = false -> isCompletion e = false -> phi (t, e).
Proof. intros t e H1 H2 _ _. now apply phi_inner. Qed.

Ltac inner := apply phi_inner; reflexivity.

Ltac inner_step :=
  first
    [ assumption
    | apply emits_ret
    | apply emits_throw
    | apply (captureScreenshot_emits phi phi_inner_other)
    | apply (runVisualDelegate_emits phi phi_inner_visual)
    | apply (fromTool_emits phi phi_inner_other)
    | apply (withHint_emits phi phi_inner_other)
    | apply emits_emit; intros ?; inner
    | apply emits_await; intros ?; inner
    | apply emits_bind; [|intros ?]
    | apply emits_tryCatch; [|intros ?]
    | match goal with
      | |- emits _ (if ?b then _ else _) => destruct b
      | |- emits _ (match ?x with _ => _ end) => destruct x
      end ].

Lemma toolSwitch_emits (fnName : jsstring) (fnArgs : Args) (v : Vars) :
  emits phi (toolSwitch env fnName fnArgs v).
Proof. unfold toolSwitch, print. repeat inner_step. Qed.

Lemma toolBody_emits (fnName : jsstring) (fnArgs : Args) (v : Vars) :
  emits phi (toolBody env fnName fnArgs v).
Proof.
  pose proof toolSwitch_emits as Hs.
  unfold toolBody.
  apply emits_bind; [repeat inner_step|]. intros _.
  apply emits_bind; [apply Hs|]. intros [[raw r] v1].
  repeat inner_step.
Qed.

End Inner.

(** *** One tool execution *)

Lemma notCompletion_other :
  forall t e,
    isModelCall e = false -> isExecution e = false ->
    isVisualModelCall e = false -> isCompletion e = false ->
    notCompletion (t, e).
Proof. intros t e _ _ _ H. exact H. Qed.

Lemma notCompletion_visual :
  forall t e,
    isModelCall e = false -> isExecution e = false ->
    isCompletion e = false -> notCompletion (t, e).
Proof. intros t e _ _ H. exact H. Qed.

Lemma summaryOf_truthy (fnArgs : Args) : truthy (summaryOf fnArgs) = true.
Proof. now apply truthy_orElse. Qed.

Lemma toolSwitch_other_emits (fnName : jsstring) (fnArgs : Args) (v : Vars) :
  str_eqb fnName (lit "complete_task") = false ->
  emits notCompletion (toolSwitch env fnName fnArgs v).
Proof.
  intros H. unfold toolSwitch. rewrite H.
  repeat first
    [ apply emits_ret
    | apply (captureScreenshot_emits _ notCompletion_other)
    | apply (runVisualDelegate_emits _ notCompletion_visual)
    | apply (fromTool_emits _ notCompletion_other)
    | apply emits_await; intros ?; reflexivity
    | apply emits_bind; [|intros ?]
    | match goal with
      | |- emits _ (if ?b then _ else _) => destruct b
      | |- emits _ (match ?x with _ => _ end) => destruct x
      end ].
Qed.

Lemma toolSwitch_other_returns (fnName : jsstring) (fnArgs : Args) (v : Vars) :
  str_eqb fnName (lit "complete_task") = false ->
  returns (fun x => snd x = v) (toolSwitch env fnName fnArgs v).
Proof.
  intros H. unfold toolSwitch. rewrite H.
  repeat first
    [ apply returns_ret; reflexivity
    | apply returns_bind; intros ?
    | match goal with
      | |- returns _ (if ?b then _ else _) => destruct b
      | |- returns _ (match ?x with _ => _ end) => destruct x
      end ].
Qed.

Lemma toolBody_other_emits (fnName : jsstring) (fnArgs : Args) (v : Vars) :
  str_eqb fnName (lit "complete_task") = false ->
  emits notCompletion (toolBody env fnName fnArgs v).
Proof.
  intros H. unfold toolBody.
  apply emits_bind; [apply emits_await; intros ?; reflexivity|]. intros _.
  apply emits_bind; [now apply toolSwitch_other_emits|]. intros [[raw r] v1].
  repeat first
    [ apply emits_ret
    | match goal with |- emits _ (if ?b then _ else _) => destruct b end ].
Qed.

Lemma toolBody_other_returns (fnName : jsstring) (fnArgs : Args) (v : Vars) :
  str_eqb fnName (lit "complete_task") = false ->
  returns (fun x => snd x = v) (toolBody env fnName fnArgs v).
Proof.
  intros H t [r v1]. unfold toolBody.
  unfold bind at 1. destruct (result (await GetMcpClient (getMcpClient env) t));
    cbn [result]; [|discriminate].
  unfold bind.
  destruct (result (toolSwitch env fnName fnArgs v _)) as [[[raw fr] v2]|e] eqn:E;
    cbn [result]; [|discriminate].
  apply (toolSwitch_other_returns _ _ _ H) in E. cbn [snd] in E. subst v2.
  destruct (existsb _ _); [now intros [= _ <-]|].
  destruct (_ && _); now intros [= _ <-].
Qed.

(** The execution of [complete_task], when the protocol client is there. *)
Lemma toolBody_complete (fnArgs : Args) (v : Vars) (t : nat) :
  getMcpClient env t = Ok tt ->
  toolBody env (lit "complete_task") fnArgs v t
  = {| result := Ok (summaryOf fnArgs, complete (summaryOf fnArgs) v);
       endTick := S t;
       effects := [(t, GetMcpClient);
                   (S t, Print (NCompleted (summaryOf fnArgs)))] |}.
Proof.
  intros H. unfold toolBody, bind, await. cbn [result endTick effects]. rewrite H.
  cbn. rewrite andb_false_r. reflexivity.
Qed.

Lemma toolBody_complete_throw (fnArgs : Args) (v : Vars) (t : nat) (e : jsstring) :
  getMcpClient env t = Throw e ->
  toolBody env (lit "complete_task") fnArgs v t
  = {| result := Throw e; endTick := S t; effects := [(t, GetMcpClient)] |}.
Proof.
  intros H. unfold toolBody, bind, await. cbn [result endTick effects].
  now rewrite H.
Qed.

Lemma withHint_run (r : JsVal) (t : nat) :
  result (withHint r t) = Ok (if isBlocked r then appendHint r else r)
  /\ endTick (withHint r t) = t
  /\ completions (effects (withHint r t)) = [].
Proof. unfold withHint. destruct (isBlocked r); repeat split. Qed.

(** What one tool execution gives: it does not throw, it starts with its
    announcement, it pushes one function response under the name of the
    call, and it changes the other loop variables only by completing the
    task. *)
Lemma executeCall_run (fnName : jsstring) (fnArgs : Args) (v : Vars) (t : nat) :
  exists r v1 rest,
    result (executeCall env fnName fnArgs v t)
    = Ok (setInput (currentInputParts v ++ [FunctionResponse fnName r]) v1)
    /\ effects (executeCall env fnName fnArgs v t)
       = (t, Print (NExecuting fnName fnArgs)) :: rest
    /\ flags v rest v1
    /\ currentInputParts v1 = currentInputParts v
    /\ Forall (fun s => truthy s = true) (completions rest)
    /\ (forall phi : nat * Effect -> Prop,
          (forall t' e, isModelCall e = false -> isExecution e = false ->
                        phi (t', e)) ->
          Forall phi rest).
Proof.
  unfold executeCall.
  set (body := tryCatch (toolBody env fnName fnArgs v) _).
  assert (Hphi : forall phi : nat * Effect -> Prop,
             (forall t' e, isModelCall e = false -> isExecution e = false ->
                           phi (t', e)) ->
             Forall phi (effects (body t)
                         ++ effects (withHint
                                       (match result (body t) with
                                        | Ok x => fst x
                                        | Throw _ => VUndefined
                                        end) (endTick (body t))))).
  { intros phi Hin. apply Forall_app. split.
    - subst body. apply emits_tryCatch.
      + now apply toolBody_emits.
      + intros e. apply emits_ret.
    - apply (withHint_emits phi (phi_inner_other phi Hin)). }
  assert (Hbody : exists r v1,
             result (body t) = Ok (r, v1)
             /\ flags v (effects (body t)) v1
             /\ currentInputParts v1 = currentInputParts v
             /\ Forall (fun s => truthy s = true) (completions (effects (body t)))).
  { destruct (str_eqb fnName (lit "complete_task")) eqn:En.
    - apply str_eqb_eq in En. subst fnName. subst body.
      destruct (getMcpClient env t) as [[]|e] eqn:Eg.
      + unfold tryCatch. rewrite (toolBody_complete fnArgs v t Eg).
        cbn [result effects]. eexists _, _. split; [reflexivity|].
        unfold flags. cbn. rewrite orb_true_r. repeat split.
        constructor; [apply summaryOf_truthy | constructor].
      + unfold tryCatch. rewrite (toolBody_complete_throw fnArgs v t e Eg).
        cbn [result effects endTick]. eexists _, _. split; [reflexivity|].
        unfold flags. cbn. rewrite orb_false_r. repeat split. constructor.
    - pose proof (toolBody_other_emits fnName fnArgs v En t) as He.
      pose proof (toolBody_other_returns fnName fnArgs v En t) as Hr.
      apply completions_none in He. subst body. unfold tryCatch.
      destruct (result (toolBody env fnName fnArgs v t)) as [[r v1]|e] eqn:E.
      + specialize (Hr _ eq_refl). cbn [snd] in Hr. subst v1.
        exists r, v. rewrite E.
        split; [reflexivity|]. split; [now apply flags_same|].
        split; [reflexivity|]. rewrite He. constructor.
      + cbn [result effects ret]. rewrite app_nil_r.
        eexists _, v.
        split; [reflexivity|]. split; [now apply flags_same|].
        split; [reflexivity|]. rewrite He. constructor. }
  destruct Hbody as (r & v1 & Hr & Hf & Hp & Ht).
  destruct (withHint_run r (endTick (body t))) as (Wr & We & Wc).
  exists (if isBlocked r then appendHint r else r), v1,
    (effects (body t) ++ effects (withHint r (endTick (body t)))).
  unfold bind, print, emit. cbn [result endTick effects].
  rewrite Hr. cbn [result endTick effects]. rewrite Wr. cbn [result effects ret].
  rewrite Hp, app_nil_r, completions_app, Wc, app_nil_r.
  split; [reflexivity|]. split; [reflexivity|].
  split; [|split; [reflexivity | split; [exact Ht|]]].
  - unfold flags in *. now rewrite completions_app, Wc, app_nil_r.
  - intros phi Hin. specialize (Hphi phi Hin). now rewrite Hr in Hphi.
Qed.

(** *** One round of tool executions *)

Lemma executeCalls_cons (call : FunctionCall) (calls : list FunctionCall)
    (v : Vars) (t : nat) :
  executeCalls env (call :: calls) v t
  = if isAborted env t
    then {| result := Ok v; endTick := t;
            effects := [(t, Print NCancelled); (t, Debug DCancelledBeforeTool)] |}
    else match name call with
         | Some (c :: n) =>
             (v1 <- executeCall env (c :: n) (argsOf call) v;;
              executeCalls env calls v1) t
         | _ => (debug DNoName;; print NNoName;; executeCalls env calls v) t
         end.
Proof.
  cbn [executeCalls]. unfold bind at 1. cbn [aborted result endTick effects].
  destruct (isAborted env t); [reflexivity|].
  destruct (name call) as [[|c n]|]; reflexivity.
Qed.

(** A round of tool executions: the calls in [done] were gone through, in
    their order; those among them that have a name were executed, each
    announced and each answered by one function response, in that order;
    the calls in [skipped] were left out, which happens only once the
    abort signal is raised; nothing is thrown. *)
Lemma executeCalls_run (calls : list FunctionCall) :
  forall (v : Vars) (t : nat),
  exists done skipped v' rs,
    calls = done ++ skipped
    /\ result (executeCalls env calls v t) = Ok v'
    /\ currentInputParts v' = currentInputParts v ++ rs
    /\ Forall2 answers (filter hasName done) rs
    /\ only isExecution (effects (executeCalls env calls v t))
       = map announcement (filter hasName done)
    /\ flags v (effects (executeCalls env calls v t)) v'
    /\ Forall (fun s => truthy s = true)
         (completions (effects (executeCalls env calls v t)))
    /\ (skipped = [] \/ abortAt env <> None).
Proof.
  induction calls as [|call calls IH]; intros v t.
  - exists [], [], v, []. cbn [executeCalls ret result effects app filter map].
    split; [reflexivity|]. split; [reflexivity|].
    split; [now rewrite app_nil_r|]. split; [constructor|].
    split; [reflexivity|]. split; [now apply flags_same|].
    split; [constructor | now left].
  - rewrite executeCalls_cons.
    destruct (isAborted env t) eqn:Ea.
    + exists [], (call :: calls), v, [].
      split; [reflexivity|]. split; [reflexivity|].
      split; [now rewrite app_nil_r|]. split; [constructor|].
      split; [reflexivity|]. split; [now apply flags_same|].
      split; [constructor|].
      right. unfold isAborted in Ea. destruct (abortAt env); congruence.
    + assert (Hskip :
        hasName call = false ->
        exists done skipped v' rs,
          call :: calls = done ++ skipped
          /\ result ((debug DNoName;; print NNoName;; executeCalls env calls v) t)
             = Ok v'
          /\ currentInputParts v' = currentInputParts v ++ rs
          /\ Forall2 answers (filter hasName done) rs
          /\ only isExecution
               (effects ((debug DNoName;; print NNoName;;
                          executeCalls env calls v) t))
             = map announcement (filter hasName done)
          /\ flags v (effects ((debug DNoName;; print NNoName;;
                                executeCalls env calls v) t)) v'
          /\ Forall (fun s => truthy s = true)
               (completions (effects ((debug DNoName;; print NNoName;;
                                      executeCalls env calls v) t)))
          /\ (skipped = [] \/ abortAt env <> None)).
      { intros Hn.
        destruct (IH v t) as (done & skipped & v' & rs & E & Hr & Hp & Ha & Ho & Hf & Ht & Hs).
        exists (call :: done), skipped, v', rs.
        unfold bind, debug, print, emit. cbn [result endTick effects app].
        rewrite Hr. cbn [result effects filter]. rewrite Hn.
        split; [now rewrite E|]. split; [reflexivity|].
        split; [exact Hp|]. split; [exact Ha|].
        split; [exact Ho|]. split; [exact Hf|]. split; [exact Ht | exact Hs]. }
      destruct (name call) as [[|c n]|] eqn:En.
      * apply Hskip. unfold hasName. now rewrite En.
      * destruct (executeCall_run (c :: n) (argsOf call) v t)
          as (r & v1 & rest & Hr1 & He1 & Hf1 & Hp1 & Ht1 & Hi1).
        set (v2 := setInput (currentInputParts v ++ [FunctionResponse (c :: n) r]) v1)
          in *.
        destruct (IH v2 (endTick (executeCall env (c :: n) (argsOf call) v t)))
          as (done & skipped & v' & rs & E & Hr & Hp & Ha & Ho & Hf & Ht & Hs).
        assert (Hn : hasName call = true) by (unfold hasName; now rewrite En).
        assert (Hnm : nameOf call = c :: n) by (unfold nameOf; now rewrite En).
        exists (call :: done), skipped, v', (FunctionResponse (c :: n) r :: rs).
        unfold bind. rewrite Hr1. cbn [result endTick effects].
        rewrite Hr, He1. cbn [filter]. rewrite Hn.
        split; [now rewrite E|]. split; [reflexivity|].
        split; [rewrite Hp; subst v2; cbn; now rewrite <- app_assoc|].
        split.
        { constructor; [|exact Ha]. exists r. now rewrite Hnm. }
        split.
        { rewrite only_app, Ho, only_cons.
          rewrite (only_none isExecution rest)
            by (apply Hi1; intros ? ? _ H; exact H).
          cbn. unfold announcement. now rewrite Hnm. }
        split.
        { apply flags_app with v2; [|exact Hf].
          apply flags_setInput. exact Hf1. }
        split; [|exact Hs].
        rewrite completions_app. apply Forall_app. split; [exact Ht1 | exact Ht].
      * apply Hskip. unfold hasName. now rewrite En.
Qed.

(** *** The two loops *)

Section Guarded.
Variable phi : nat * Effect -> Prop.

Hypothesis phi_inner :
  forall t e, isModelCall e = false -> isExecution e = false -> phi (t, e).

(** [phi] holds of the start of a tool execution and of a call of the
    model at a tick at which the abort signal is not raised. *)
Hypothesis phi_execution :
  forall t n a, isAborted env t = false -> phi (t, Print (NExecuting n a)).

Hypothesis phi_model :
  forall t parts, isAborted env t = false -> phi (t, SendMessageStream parts).

Lemma executeCalls_emits (calls : list FunctionCall) :
  forall v, emits phi (executeCalls env calls v).
Proof.
  induction calls as [|call calls IH]; intros v t.
  - constructor.
  - rewrite executeCalls_cons. destruct (isAborted env t) eqn:Ea.
    + repeat constructor; now apply phi_inner.
    + assert (Hskip : Forall phi (effects ((debug DNoName;; print NNoName;;
                                            executeCalls env calls v) t))).
      { repeat constructor; try (now apply phi_inner). apply IH. }
      destruct (name call) as [[|c n]|]; try exact Hskip.
      destruct (executeCall_run (c :: n) (argsOf call) v t)
        as (r & v1 & rest & Hr1 & He1 & _ & _ & _ & Hi1).
      unfold bind. rewrite Hr1. cbn [effects]. rewrite He1.
      apply Forall_app. split; [|apply IH].
      constructor; [now apply phi_execution | now apply Hi1].
Qed.

Lemma phi_inner_kinds :
  forall t e,
    isModelCall e = false -> isExecution e = false ->
    isVisualModelCall e = false -> isCompletion e = false -> phi (t, e).
Proof. intros t e H1 H2 _ _. now apply phi_inner. Qed.

Lemma modelTurn_emits (messageParts : list Part) (t : nat) :
  isAborted env t = false -> Forall phi (effects (modelTurn env messageParts t)).
Proof.
  intros Ea. unfold modelTurn. apply run_tryCatch.
  - apply run_bind.
    + repeat constructor. now apply phi_model.
    + intros o _. apply emits_bind.
      * destruct o; [apply emits_throw | apply (consume_emits phi phi_inner_kinds)].
      * intros acc. apply emits_bind; [apply emits_aborted|]. intros [|].
        -- unfold print, debug.
           repeat first [ apply emits_ret
                        | apply emits_emit; intros ?; now apply phi_inner
                        | apply emits_bind; [|intros ?] ].
        -- apply emits_ret.
  - intros e _. unfold print, debug.
    repeat first [ apply emits_ret
                 | apply emits_emit; intros ?; now apply phi_inner
                 | apply emits_bind; [|intros ?]
                 | match goal with
                   | |- emits _ (if ?b then _ else _) => destruct b
                   end ].
Qed.

Lemma iteration_emits (v : Vars) : emits phi (iteration env v).
Proof.
  intros t. unfold iteration. apply run_bind; [constructor|].
  intros b [= <-]. cbn [aborted endTick]. destruct (isAborted env t) eqn:Ea.
  - repeat constructor; now apply phi_inner.
  - apply run_bind; [repeat constructor; now apply phi_inner|]. intros _ _.
    cbn [debug emit endTick].
    apply run_bind; [now apply modelTurn_emits|]. intros turn _.
    destruct turn as [|msg|acc]; try apply emits_ret.
    unfold afterModel.
    destruct (Nat.ltb 0 (length (functionCalls acc))).
    + apply emits_bind; [apply executeCalls_emits|]. intros v1.
      destruct (taskCompleted v1); [|apply emits_ret].
      apply emits_bind; [|intros ?; apply emits_ret].
      apply emits_emit. intros ?. now apply phi_inner.
    + unfold print, debug.
      repeat first [ apply emits_ret
                   | apply emits_emit; intros ?; now apply phi_inner
                   | apply emits_bind; [|intros ?] ].
Qed.

Lemma finish_emits (v : Vars) : emits phi (finish v).
Proof.
  unfold finish, debug. apply emits_bind; [|intros ?; apply emits_ret].
  apply emits_emit. intros ?. now apply phi_inner.
Qed.

Lemma taskLoop_emits (todo : nat) : forall v, emits phi (taskLoop env todo v).
Proof.
  induction todo as [|todo IH]; intros v; cbn [taskLoop].
  - apply finish_emits.
  - apply emits_bind; [apply iteration_emits|].
    intros [v'|v'|r]; [apply IH | apply finish_emits | apply emits_ret].
Qed.

Lemma initialInput_emits (prompt : jsstring) : emits phi (initialInput env prompt).
Proof.
  unfold initialInput, debug.
  repeat first
    [ apply emits_ret
    | apply emits_emit; intros ?; now apply phi_inner
    | apply emits_await; intros ?; now apply phi_inner
    | apply emits_bind; [|intros ?]
    | apply emits_tryCatch; [|intros ?]
    | match goal with
      | |- emits _ (if ?b then _ else _) => destruct b
      | |- emits _ (match ?x with _ => _ end) => destruct x
      end ].
Qed.

Lemma runTask_emits (prompt : jsstring) : emits phi (runTask env prompt).
Proof.
  pose proof taskLoop_emits as Hl. pose proof initialInput_emits as Hi.
  unfold runTask, updateBorderOverlay, print, debug.
  repeat first
    [ apply Hl
    | apply Hi
    | apply emits_ret
    | apply emits_emit; intros ?; now apply phi_inner
    | apply emits_await; intros ?; now apply phi_inner
    | apply emits_bind; [|intros ?]
    | apply emits_tryCatch; [|intros ?]
    | match goal with
      | |- emits _ (match ?x with _ => _ end) => destruct x
      end ].
Qed.

End Guarded.

(** *** Nothing escapes the orchestrator *)

Lemma executeCalls_total (calls : list FunctionCall) (v : Vars) :
  total (executeCalls env calls v).
Proof.
  intros t.
  destruct (executeCalls_run calls v t) as (_ & _ & v' & _ & _ & H & _).
  now exists v'.
Qed.

Lemma modelTurn_total (messageParts : list Part) :
  total (modelTurn env messageParts).
Proof.
  unfold modelTurn, print, debug. apply total_tryCatch. intros e.
  repeat total_step.
Qed.

Lemma iteration_total (v : Vars) : total (iteration env v).
Proof.
  pose proof executeCalls_total as He. pose proof modelTurn_total as Hm.
  unfold iteration, afterModel, print, debug.
  repeat first [apply He | apply Hm | total_step].
Qed.

Lemma finish_total (v : Vars) : total (finish v).
Proof. unfold finish, debug. repeat total_step. Qed.

Lemma taskLoop_total (todo : nat) : forall v, total (taskLoop env todo v).
Proof.
  induction todo as [|todo IH]; intros v; cbn [taskLoop].
  - apply finish_total.
  - apply total_bind; [apply iteration_total|].
    intros [v'|v'|r]; [apply IH | apply finish_total | apply total_ret].
Qed.

Lemma initialInput_total (prompt : jsstring) : total (initialInput env prompt).
Proof. unfold initialInput, debug. repeat total_step. Qed.

Lemma runTask_total (prompt : jsstring) : total (runTask env prompt).
Proof.
  pose proof taskLoop_total as Hl. pose proof initialInput_total as Hi.
  unfold runTask, updateBorderOverlay, print, debug.
  repeat first [apply Hl | apply Hi | total_step].
Qed.

(** *** How often the models are called *)

Lemma notModelCall_inner :
  forall t e, isModelCall e = false -> isExecution e = false -> notModelCall (t, e).
Proof. intros t e H _. exact H. Qed.

Lemma notModelCall_kinds :
  forall t e,
    isModelCall e = false -> isExecution e = false ->
    isVisualModelCall e = false -> isCompletion e = false -> notModelCall (t, e).
Proof. intros t e H _ _ _. exact H. Qed.

Lemma executeCalls_calls (calls : list FunctionCall) (v : Vars) :
  atMost isModelCall 0 (executeCalls env calls v).
Proof.
  apply atMost_none, (executeCalls_emits notModelCall notModelCall_inner).
  intros t n a _. reflexivity.
Qed.

Ltac quiet :=
  solve [
  apply atMost_none;
  repeat first
    [ apply emits_ret
    | apply emits_throw
    | apply emits_aborted
    | apply (consume_emits notModelCall notModelCall_kinds)
    | apply (initialInput_emits notModelCall notModelCall_inner)
    | apply emits_emit; intros ?; reflexivity
    | apply emits_await; intros ?; reflexivity
    | apply emits_bind; [|intros ?]
    | apply emits_tryCatch; [|intros ?]
    | match goal with
      | |- emits _ (if ?b then _ else _) => destruct b
      | |- emits _ (match ?x with _ => _ end) => destruct x
      end ] ].

Lemma modelTurn_calls (messageParts : list Part) :
  atMost isModelCall 1 (modelTurn env messageParts).
Proof.
  unfold modelTurn, print, debug.
  apply (atMost_tryCatch isModelCall 1 0).
  - apply (atMost_bind isModelCall 1 0); [apply atMost_await|].
    intros o. quiet.
  - intros e. quiet.
Qed.

Lemma iteration_calls (v : Vars) : atMost isModelCall 1 (iteration env v).
Proof.
  unfold iteration, print, debug.
  apply (atMost_bind isModelCall 0 1); [quiet|]. intros [|].
  - apply atMost_more with 0; [lia | quiet].
  - apply (atMost_bind isModelCall 0 1); [quiet|]. intros _.
    apply (atMost_bind isModelCall 1 0); [apply modelTurn_calls|].
    intros [|msg|acc]; try quiet.
    unfold afterModel.
    destruct (Nat.ltb 0 (length (functionCalls acc))); [|quiet].
    apply (atMost_bind isModelCall 0 0); [apply executeCalls_calls|].
    intros v1. quiet.
Qed.

Lemma finish_calls (v : Vars) : atMost isModelCall 0 (finish v).
Proof. unfold finish, debug. quiet. Qed.

Lemma taskLoop_calls (todo : nat) :
  forall v, atMost isModelCall todo (taskLoop env todo v).
Proof.
  induction todo as [|todo IH]; intros v; cbn [taskLoop].
  - apply finish_calls.
  - apply (atMost_bind isModelCall 1 todo); [apply iteration_calls|].
    intros [v'|v'|r].
    + apply IH.
    + apply atMost_more with 0; [lia | apply finish_calls].
    + apply atMost_more with 0; [lia | quiet].
Qed.

Lemma runTask_calls (prompt : jsstring) :
  atMost isModelCall MAX_ITERATIONS (runTask env prompt).
Proof.
  unfold runTask, updateBorderOverlay, print, debug.
  apply (atMost_bind isModelCall 0 MAX_ITERATIONS); [quiet|]. intros _.
  apply (atMost_bind isModelCall 0 MAX_ITERATIONS); [quiet|]. intros [msg|].
  - apply atMost_more with 0; [lia | quiet].
  - apply (atMost_bind isModelCall 0 MAX_ITERATIONS); [quiet|]. intros _.
    apply (atMost_bind isModelCall 0 MAX_ITERATIONS); [quiet|]. intros parts.
    apply taskLoop_calls.
Qed.

Lemma notVisualCall_kinds :
  forall t e,
    isModelCall e = false -> isExecution e = false ->
    isVisualModelCall e = false -> isCompletion e = false -> notVisualCall (t, e).
Proof. intros t e _ _ H _. exact H. Qed.

Ltac aside :=
  solve [
  apply atMost_none;
  repeat first
    [ apply emits_ret
    | apply emits_throw
    | apply emits_aborted
    | apply (captureScreenshot_emits notVisualCall notVisualCall_kinds)
    | apply (invalidateCache_emits notVisualCall notVisualCall_kinds)
    | apply (visualCalls_emits notVisualCall notVisualCall_kinds)
    | apply emits_emit; intros ?; reflexivity
    | apply emits_await; intros ?; reflexivity
    | apply emits_bind; [|intros ?]
    | apply emits_tryCatch; [|intros ?]
    | match goal with
      | |- emits _ (if ?b then _ else _) => destruct b
      | |- emits _ (match ?x with _ => _ end) => destruct x
      end ] ].

Lemma visualStep_calls (v : VisualVars) :
  atMost isVisualModelCall 1 (visualStep env v).
Proof.
  unfold visualStep, print.
  apply (atMost_bind isVisualModelCall 0 1); [aside|]. intros [|].
  - apply atMost_more with 0; [lia | aside].
  - apply (atMost_bind isVisualModelCall 1 0); [apply atMost_await|].
    intros [response|]; aside.
Qed.

Lemma visualExhausted_calls (v : VisualVars) :
  atMost isVisualModelCall 0 (visualExhausted env v).
Proof. unfold visualExhausted. aside. Qed.

Lemma visualLoop_calls (todo : nat) :
  forall v, atMost isVisualModelCall todo (visualLoop env todo v).
Proof.
  induction todo as [|todo IH]; intros v; cbn [visualLoop].
  - apply visualExhausted_calls.
  - apply (atMost_bind isVisualModelCall 1 todo); [apply visualStep_calls|].
    intros [v'|v'|r].
    + apply IH.
    + apply atMost_more with 0; [lia | apply visualExhausted_calls].
    + apply atMost_more with 0; [lia | aside].
Qed.

(** *** Completion and the cap *)

Lemma modelTurn_quiet (messageParts : list Part) (t : nat) :
  completions (effects (modelTurn env messageParts t)) = [].
Proof.
  apply completions_none. revert t. unfold modelTurn, print, debug.
  repeat first
    [ apply emits_ret
    | apply emits_throw
    | apply emits_aborted
    | apply (consume_emits notCompletion notCompletion_other)
    | apply emits_emit; intros ?; reflexivity
    | apply emits_await; intros ?; reflexivity
    | apply emits_bind; [|intros ?]
    | apply emits_tryCatch; [|intros ?]
    | match goal with
      | |- emits _ (if ?b then _ else _) => destruct b
      | |- emits _ (match ?x with _ => _ end) => destruct x
      end ].
Qed.

(** What the body of the loop does when the abort signal is not raised at
    its start: the model is called with the current input, which never
    throws, and what follows depends on how that call ends. *)
Lemma iteration_live (v : Vars) (t : nat) :
  isAborted env t = false ->
  exists turn,
    let called := modelTurn env (currentInputParts v) t in
    let next :=
      match turn with
      | TurnCancelled => ret (Break v)
      | TurnFailed msg => ret (Return (VString msg))
      | TurnDone acc => afterModel env v acc
      end (endTick called) in
    result called = Ok turn
    /\ result (iteration env v t) = result next
    /\ endTick (iteration env v t) = endTick next
    /\ effects (iteration env v t)
       = (t, Debug (DCallingModel (iterationCount v + 1)
                      (length (currentInputParts v))))
         :: effects called ++ effects next.
Proof.
  intros Ea. destruct (modelTurn_total (currentInputParts v) t) as [turn Hturn].
  exists turn. cbv zeta. split; [exact Hturn|].
  assert (E : iteration env v t
              = (debug (DCallingModel (iterationCount v + 1)
                          (length (currentInputParts v)));;
                 turn' <- modelTurn env (currentInputParts v);;
                 match turn' with
                 | TurnCancelled => ret (Break v)
                 | TurnFailed msg => ret (Return (VString msg))
                 | TurnDone acc => afterModel env v acc
                 end) t).
  { unfold iteration. unfold bind at 1. cbn [aborted result endTick effects].
    rewrite Ea. reflexivity. }
  rewrite E. unfold debug. rewrite emit_then, (bind_ok _ _ _ _ Hturn).
  cbn [result endTick effects]. repeat split.
Qed.

Lemma iteration_aborted (v : Vars) (t : nat) :
  isAborted env t = true ->
  iteration env v t
  = {| result := Ok (Break v); endTick := t;
       effects := [(t, Print NCancelled); (t, Debug DCancelledByUser)] |}.
Proof.
  intros Ea. unfold iteration. unfold bind at 1.
  cbn [aborted result endTick effects]. rewrite Ea. reflexivity.
Qed.

Lemma last_truthy (l : list JsVal) (d : JsVal) :
  l <> [] -> Forall (fun s => truthy s = true) l -> truthy (last l d) = true.
Proof.
  induction l as [|a l IH]; intros Hn H; [congruence|].
  inversion H as [|? ? Ha Hl]; subst.
  destruct l as [|b l]; [exact Ha|].
  change (truthy (last (b :: l) d) = true). apply IH; [discriminate | exact Hl].
Qed.

Lemma afterModel_ending (v : Vars) (acc : Collected) (t : nat) :
  taskCompleted v = false -> Ending v (afterModel env v acc t).
Proof.
  intros Hopen. unfold afterModel.
  destruct (Nat.ltb 0 (length (functionCalls acc))).
  - destruct (executeCalls_run (functionCalls acc) (setInput [] v) t)
      as (done & skipped & v1 & rs & _ & Hr & _ & _ & _ & (Hc & Hd & Hs) & Ht & _).
    rewrite (bind_ok _ _ _ _ Hr).
    set (effs := effects (executeCalls env (functionCalls acc) (setInput [] v) t))
      in *.
    cbn [taskCompleted setInput taskSummary iterationCount] in Hd, Hs, Hc.
    rewrite Hopen in Hd. cbn [orb] in Hd.
    destruct (completions effs) as [|s l] eqn:Ec.
    + cbn in Hd. rewrite Hd. apply GoesOn with (nextIteration v1).
      * reflexivity.
      * cbn [effects ret]. now rewrite app_nil_r.
      * cbn. now rewrite Hs.
      * cbn. now rewrite Hc.
      * exact Hd.
    + cbn in Hd. rewrite Hd. unfold debug. rewrite emit_then.
      cbn [result endTick effects ret].
      assert (Ec' : completions (effs ++ [(endTick (executeCalls env (functionCalls acc)
                                                      (setInput [] v) t),
                                           Debug DCompleted)]) = s :: l).
      { rewrite completions_app, Ec. cbn. now rewrite app_nil_r. }
      apply Completed with v1.
      * reflexivity.
      * cbn [effects]. rewrite Ec'. discriminate.
      * cbn [effects]. rewrite Ec', Hs. apply last_nonempty. discriminate.
      * rewrite Hs. apply last_truthy; [discriminate | exact Ht].
  - apply GoesOn with (nextIteration (setInput [TextPart completionPrompt] v));
      try reflexivity. exact Hopen.
Qed.

Lemma iteration_ending (v : Vars) (t : nat) :
  taskCompleted v = false -> Ending v (iteration env v t).
Proof.
  intros Hopen. destruct (isAborted env t) eqn:Ea.
  - rewrite (iteration_aborted v t Ea). now apply Stopped.
  - destruct (iteration_live v t Ea) as (turn & Hturn & Hr & He & Hf).
    cbv zeta in Hr, He, Hf.
    pose proof (modelTurn_quiet (currentInputParts v) t) as Hq.
    assert (Hcompl : forall next : Run (Flow Vars JsVal),
               completions ((t, Debug (DCallingModel (iterationCount v + 1)
                                         (length (currentInputParts v))))
                            :: effects (modelTurn env (currentInputParts v) t)
                            ++ effects next)
               = completions (effects next)).
    { intros next.
      change (completions (effects (modelTurn env (currentInputParts v) t)
                           ++ effects next) = completions (effects next)).
      now rewrite completions_app, Hq. }
    destruct turn as [|msg|acc].
    + apply Stopped; [now rewrite Hr | now rewrite Hf, Hcompl].
    + apply Failed with msg; [now rewrite Hr | now rewrite Hf, Hcompl].
    + destruct (afterModel_ending v acc
                  (endTick (modelTurn env (currentInputParts v) t)) Hopen)
        as [v1 R1 R2 R3 R4 | R1 R2 | msg R1 R2 | v' R1 R2 R3 R4 R5].
      * apply Completed with v1; rewrite ?Hr, ?Hf, ?Hcompl; assumption.
      * apply Stopped; rewrite ?Hr, ?Hf, ?Hcompl; assumption.
      * apply Failed with msg; rewrite ?Hr, ?Hf, ?Hcompl; assumption.
      * apply GoesOn with v'; rewrite ?Hr, ?Hf, ?Hcompl; assumption.
Qed.

(** Passes that go on leave the task open and the summary as it was. *)
Lemma passes_open (k : nat) :
  forall v t v' t',
    taskCompleted v = false ->
    passes env k v t = Some (v', t') ->
    taskCompleted v' = false
    /\ taskSummary v' = taskSummary v
    /\ iterationCount v' = iterationCount v + k.
Proof.
  induction k as [|k IH]; intros v t v' t' Hopen H; cbn [passes] in H.
  - injection H as <- <-. split; [exact Hopen|]. split; [reflexivity | lia].
  - destruct (iteration_ending v t Hopen)
      as [v1 R1 R2 R3 R4 | R1 R2 | msg R1 R2 | v1 R1 R2 R3 R4 R5];
      rewrite R1 in H; try discriminate.
    destruct (IH _ _ _ _ R5 H) as (K1 & K2 & K3).
    split; [exact K1|]. split; [congruence | lia].
Qed.

(** After [k] passes that go on, the loop is where a loop with [k] passes
    less to do would begin. *)
Lemma taskLoop_passes (k : nat) :
  forall v t v' t' todo,
    passes env k v t = Some (v', t') ->
    result (taskLoop env (k + todo) v t) = result (taskLoop env todo v' t').
Proof.
  induction k as [|k IH]; intros v t v' t' todo H; cbn [passes] in H.
  - now injection H as <- <-.
  - cbn [Nat.add taskLoop].
    destruct (result (iteration env v t)) as [[v1|v1|r]|e] eqn:E; try discriminate.
    rewrite (bind_ok _ _ _ _ E). cbn [result]. now apply IH.
Qed.

Lemma visualLoop_passes (k : nat) :
  forall v t v' t' todo,
    visualPasses env k v t = Some (v', t') ->
    result (visualLoop env (k + todo) v t) = result (visualLoop env todo v' t').
Proof.
  induction k as [|k IH]; intros v t v' t' todo H; cbn [visualPasses] in H.
  - now injection H as <- <-.
  - cbn [Nat.add visualLoop].
    destruct (result (visualStep env v t)) as [[v1|v1|r]|e] eqn:E; try discriminate.
    rewrite (bind_ok _ _ _ _ E). cbn [result]. now apply IH.
Qed.

Lemma visualExhausted_result (v : VisualVars) (t : nat) :
  result (visualExhausted env v t)
  = Ok (lit "Visual Agent reached max steps WITHOUT completing the task. The task may be incomplete or requires more steps."
        ++ newline ++ lit "Actions Taken:" ++ newline
        ++ join newline (actionHistory v)).
Proof.
  unfold visualExhausted.
  destruct (invalidateCache_total t) as [[] H].
  now rewrite (bind_ok _ _ _ _ H).
Qed.

(** *** Errors of the model call *)

(** Whatever the model call throws, the pass ends the task with the
    message of the error. *)
Lemma modelTurn_failed (messageParts : list Part) (t : nat) (e : jsstring) :
  sendMessageStream env t messageParts = SendThrows e ->
  result (modelTurn env messageParts t)
  = Ok (TurnFailed (lit "Error calling model: " ++ e)).
Proof.
  intros H. unfold modelTurn, tryCatch, bind at 1.
  cbn [await result endTick effects]. rewrite H.
  unfold bind at 1. cbn [throw result endTick effects].
  unfold debug, print.
  destruct (includes emptyStreamText (lit "Error calling model: " ++ e));
    reflexivity.
Qed.

Lemma iteration_failed (v : Vars) (t : nat) (e : jsstring) :
  isAborted env t = false ->
  sendMessageStream env t (currentInputParts v) = SendThrows e ->
  result (iteration env v t)
  = Ok (Return (VString (lit "Error calling model: " ++ e))).
Proof.
  intros Ea H. destruct (iteration_live v t Ea) as (turn & Hturn & Hr & _).
  cbv zeta in Hr. rewrite (modelTurn_failed _ _ _ H) in Hturn.
  injection Hturn as <-. exact Hr.
Qed.

End WithWorld.

(** C1: the code ends the task on the empty-stream error.  In a world in
    which the call of the model fails with that error, [runTask] returns
    the message of the error after one call of the model, although it has
    just logged that it continues. *)
Theorem empty_stream_ends_task :
  let run := @runTask plainRuntime emptyStreamWorld (lit "open the page") 0 in
  result run
  = Ok (VString (lit "Error calling model: Model stream ended with empty response text"))
  /\ count isModelCall (effects run) = 1
  /\ only (fun e => match e with Debug DEmptyStreamContinuing => true | _ => false end)
       (effects run)
     = [Debug DEmptyStreamContinuing].
Proof. vm_compute. repeat split. Qed.

(** ** The claims about the two loops *)

Section Bounds.
Context {rt : Runtime} (env : Env).

Lemma runTask_enters_loop (prompt : jsstring) (t : nat) :
  ensureConnection env t = Ok tt ->
  exists parts t0,
    result (runTask env prompt t)
    = result (taskLoop env MAX_ITERATIONS (initialVars parts) t0).
Proof.
  intros Hc. unfold runTask. unfold debug at 1. rewrite emit_then.
  cbn [result].
  set (connecting := tryCatch _ _).
  assert (Hconn : result (connecting t) = Ok None).
  { subst connecting.
    match goal with
    | |- result (tryCatch ?m ?h t) = _ =>
        assert (Hm : result (m t) = Ok None)
    end.
    { assert (H0 : result (await EnsureConnection (ensureConnection env) t) = Ok tt)
        by exact Hc.
      now rewrite (bind_ok _ _ _ _ H0). }
    now rewrite (tryCatch_ok _ _ _ _ Hm). }
  rewrite (bind_ok _ _ _ _ Hconn). cbn [result].
  unfold updateBorderOverlay at 1. unfold bind at 1.
  cbn [await result endTick effects].
  destruct (initialInput_total env prompt (S (endTick (connecting t))))
    as [parts Hparts].
  rewrite (bind_ok _ _ _ _ Hparts). cbn [result].
  now exists parts, (endTick (initialInput env prompt (S (endTick (connecting t))))).
Qed.

(** C7.  The orchestrator calls its model at most 20 times in a run and
    the run never throws; [runTask] enters its loop with no summary and the
    task open, and a loop so entered whose 20 passes all go on returns
    ['Task finished'].  The visual delegate calls its model at most 5 times,
    and when its 5 passes all go on it returns the message that the task
    may be incomplete, followed by the action history. *)
Theorem loops_bounded :
  (forall prompt t,
      count isModelCall (effects (runTask env prompt t)) <= 20
      /\ exists r, result (runTask env prompt t) = Ok r)
  /\ (forall prompt t,
         ensureConnection env t = Ok tt ->
         exists parts t0,
           result (runTask env prompt t)
           = result (taskLoop env MAX_ITERATIONS (initialVars parts) t0))
  /\ (forall v t v' t',
         taskCompleted v = false -> taskSummary v = VString [] ->
         passes env MAX_ITERATIONS v t = Some (v', t') ->
         result (taskLoop env MAX_ITERATIONS v t) = Ok (VString (lit "Task finished"))
         /\ iterationCount v' = iterationCount v + 20)
  /\ (forall instruction screen t,
         count isVisualModelCall
           (effects (runVisualDelegate env instruction screen t)) <= 5)
  /\ (forall v t v' t',
         visualPasses env VISUAL_MAX_STEPS v t = Some (v', t') ->
         result (visualLoop env VISUAL_MAX_STEPS v t)
         = Ok (lit "Visual Agent reached max steps WITHOUT completing the task. The task may be incomplete or requires more steps."
               ++ newline ++ lit "Actions Taken:" ++ newline
               ++ join newline (actionHistory v'))).
Proof.
  split; [|split; [|split; [|split]]].
  - intros prompt t. split.
    + apply (runTask_calls env prompt t).
    + apply (runTask_total env prompt t).
  - apply runTask_enters_loop.
  - intros v t v' t' Hopen Hsum H.
    destruct (passes_open env _ _ _ _ _ Hopen H) as (_ & K2 & K3).
    split; [|exact K3].
    pose proof (taskLoop_passes env _ _ _ _ _ 0 H) as E.
    rewrite Nat.add_0_r in E. rewrite E. cbn [taskLoop].
    unfold finish, debug. rewrite emit_then. cbn [result ret].
    now rewrite K2, Hsum.
  - intros instruction screen t. apply (visualLoop_calls env 5).
  - intros v t v' t' H.
    pose proof (visualLoop_passes env _ _ _ _ _ 0 H) as E.
    rewrite Nat.add_0_r in E. rewrite E. cbn [visualLoop].
    apply visualExhausted_result.
Qed.

End Bounds.

Lemma loops_bounded_witness :
  (exists parts t0,
      result (@runTask plainRuntime idleWorld (lit "wait") 0)
      = result (@taskLoop plainRuntime idleWorld MAX_ITERATIONS
                  (initialVars parts) t0))
  /\ result (@taskLoop plainRuntime idleWorld MAX_ITERATIONS
               (initialVars [TextPart (lit "Task: wait")]) 5)
     = Ok (VString (lit "Task finished"))
  /\ result (@visualLoop plainRuntime busyVisualWorld VISUAL_MAX_STEPS
               (@initialVisualVars plainRuntime (VString (lit "click")) []) 0)
     = Ok (lit "Visual Agent reached max steps WITHOUT completing the task. The task may be incomplete or requires more steps."
           ++ newline ++ lit "Actions Taken:" ++ newline
           ++ join newline
                (repeat (lit "- click_at(x=, y=) => ") 5)).
Proof.
  pose proof (@loops_bounded plainRuntime idleWorld) as (_ & Henter & Hcap & _).
  pose proof (@loops_bounded plainRuntime busyVisualWorld) as (_ & _ & _ & _ & Hvis).
  split; [|split].
  - exact (Henter (lit "wait") 0 eq_refl).
  - refine (proj1 (Hcap (initialVars [TextPart (lit "Task: wait")]) 5
                     _ _ eq_refl eq_refl _)).
    vm_compute. reflexivity.
  - refine (eq_trans
              (Hvis (@initialVisualVars plainRuntime (VString (lit "click")) []) 0
                 _ _ _) _).
    + vm_compute. reflexivity.
    + vm_compute. reflexivity.
Defined.

(** ** The claims about a round of tool executions *)

Lemma filter_shorter {A} (f : A -> bool) (l : list A) :
  length (filter f l) <= length l.
Proof.
  induction l as [|a l IH]; simpl; [lia|]. destruct (f a); simpl; lia.
Qed.

Lemma filter_strictly_shorter {A} (f : A -> bool) (l : list A) :
  existsb (fun a => negb (f a)) l = true -> length (filter f l) < length l.
Proof.
  induction l as [|a l IH]; simpl; [discriminate|].
  pose proof (filter_shorter f l) as L.
  destruct (f a); simpl; intros H; [specialize (IH H)|]; lia.
Qed.

Lemma Forall2_same_length {A B} (R : A -> B -> Prop) (l : list A) (l' : list B) :
  Forall2 R l l' -> length l = length l'.
Proof. induction 1; simpl; congruence. Qed.

Section Rounds.
Context {rt : Runtime} (env : Env).

(** C10.  A call without a name, or with the empty name, is passed over
    with a warning: the round goes on with the calls that follow, from the
    same variables, and no function response is pushed for it.  So a round
    pushes at most as many responses as it has calls with a name, and
    fewer responses than calls when a call has none. *)
Theorem nameless_call_skipped :
  (forall call calls v t,
      hasName call = false -> isAborted env t = false ->
      executeCalls env (call :: calls) v t
      = {| result := result (executeCalls env calls v t);
           endTick := endTick (executeCalls env calls v t);
           effects := (t, Debug DNoName) :: (t, Print NNoName)
                      :: effects (executeCalls env calls v t) |})
  /\ (forall calls v t,
         exists v' rs,
           result (executeCalls env calls v t) = Ok v'
           /\ currentInputParts v' = currentInputParts v ++ rs
           /\ length rs <= length (filter hasName calls)
           /\ (existsb (fun c => negb (hasName c)) calls = true ->
               length rs < length calls)).
Proof.
  split.
  - intros call calls v t Hn Ea. rewrite executeCalls_cons, Ea.
    unfold hasName in Hn.
    destruct (name call) as [[|c n]|]; [reflexivity | discriminate | reflexivity].
  - intros calls v t.
    destruct (executeCalls_run env calls v t)
      as (done & skipped & v' & rs & E & Hr & Hp & Ha & _).
    exists v', rs. split; [exact Hr|]. split; [exact Hp|].
    apply Forall2_same_length in Ha.
    assert (L : length rs <= length (filter hasName calls)).
    { rewrite E, filter_app, length_app. lia. }
    split; [exact L|]. intros Hex.
    apply (filter_strictly_shorter hasName) in Hex. lia.
Qed.

Lemma modelTurn_head (messageParts : list Part) (t : nat) :
  exists rest,
    effects (modelTurn env messageParts t)
    = (t, SendMessageStream messageParts) :: rest.
Proof.
  unfold modelTurn.
  match goal with
  | |- context [tryCatch (bind ?m ?k) ?h] =>
      set (after := k); set (handler := h)
  end.
  assert (Hb : exists rest,
             effects (bind (await (SendMessageStream messageParts)
                              (fun t0 => Ok (sendMessageStream env t0 messageParts)))
                        after t)
             = (t, SendMessageStream messageParts) :: rest).
  { unfold bind. cbn [await result endTick effects app]. now eexists. }
  destruct Hb as [rest Hb]. unfold tryCatch.
  destruct (result (bind _ after t)); cbn [effects]; rewrite Hb; now eexists.
Qed.

(** C3, as amended.  Absent cancellation, a round goes through all the
    calls that the model returned, in their order: the calls that have a
    name are executed one after the other, each announced, and each is
    answered by exactly one function response under its name, in the same
    order, while a call without a name is answered by none; these
    responses are the input of the next pass, which sends them to the
    model as they are. *)
Theorem calls_answered_in_order :
  abortAt env = None ->
  forall calls v t,
  exists v',
    result (executeCalls env calls (setInput [] v) t) = Ok v'
    /\ Forall2 answers (filter hasName calls) (currentInputParts v')
    /\ only isExecution (effects (executeCalls env calls (setInput [] v) t))
       = map announcement (filter hasName calls)
    /\ (forall acc,
          functionCalls acc = calls -> calls <> [] -> taskCompleted v' = false ->
          result (afterModel env v acc t) = Ok (Continue (nextIteration v')))
    /\ (forall t',
          exists rest,
            effects (iteration env (nextIteration v') t')
            = (t', Debug (DCallingModel (S (iterationCount v') + 1)
                            (length (currentInputParts v'))))
              :: (t', SendMessageStream (currentInputParts v')) :: rest).
Proof.
  intros Hcalm calls v t.
  destruct (executeCalls_run env calls (setInput [] v) t)
    as (done & skipped & v' & rs & E & Hr & Hp & Ha & Ho & _ & _ & Hs).
  destruct Hs as [-> | Hs]; [|congruence].
  rewrite app_nil_r in E. subst done. cbn [setInput currentInputParts app] in Hp.
  exists v'. split; [exact Hr|]. split; [now rewrite Hp|]. split; [exact Ho|].
  split.
  - intros acc Hacc Hne Hopen. unfold afterModel. rewrite Hacc.
    destruct calls as [|c calls]; [congruence|]. cbn [length Nat.ltb Nat.leb].
    rewrite (bind_ok _ _ _ _ Hr). now rewrite Hopen.
  - intros t'.
    assert (Ea : isAborted env t' = false) by (unfold isAborted; now rewrite Hcalm).
    destruct (iteration_live env (nextIteration v') t' Ea) as (turn & _ & _ & _ & Hf).
    cbv zeta in Hf.
    destruct (modelTurn_head (currentInputParts (nextIteration v')) t')
      as [rest Hh].
    rewrite Hh in Hf. rewrite Hf. now eexists.
Qed.

(** *** A call that throws, within its batch *)







End Rounds.

Lemma nameless_call_skipped_witness :
  result (@executeCalls plainRuntime idleWorld
            [anonymous; call "click" [(lit "uid", VString (lit "1_2"))]]
            (initialVars []) 0)
  = result (@executeCalls plainRuntime idleWorld
              [call "click" [(lit "uid", VString (lit "1_2"))]]
              (initialVars []) 0)
  /\ exists v' rs,
       result (@executeCalls plainRuntime idleWorld
                 [anonymous; call "click" [(lit "uid", VString (lit "1_2"))]]
                 (initialVars []) 0) = Ok v'
       /\ currentInputParts v' = rs /\ length rs < 2.
Proof.
  pose proof (@nameless_call_skipped plainRuntime idleWorld) as [Hskip Hfew].
  split.
  - now rewrite (Hskip anonymous _ (initialVars []) 0 eq_refl eq_refl).
  - destruct (Hfew [anonymous; call "click" [(lit "uid", VString (lit "1_2"))]]
                (initialVars []) 0) as (v' & rs & Hr & Hp & _ & Hlt).
    exists v', rs. split; [exact Hr|]. split; [exact Hp|]. exact (Hlt eq_refl).
Defined.

Lemma calls_answered_in_order_witness :
  exists v',
    result (@executeCalls plainRuntime idleWorld completeThenNavigate
              (setInput [] (initialVars [TextPart (lit "Task: go")])) 0) = Ok v'
    /\ Forall2 answers completeThenNavigate (currentInputParts v')
    /\ exists v'',
         result (@afterModel plainRuntime idleWorld (initialVars [])
                   {| functionCalls := [call "hover" []]; textResponse := [] |} 0)
         = Ok (Continue (nextIteration v'')).
Proof.
  destruct (@calls_answered_in_order plainRuntime idleWorld eq_refl
              completeThenNavigate (initialVars [TextPart (lit "Task: go")]) 0)
    as (v' & Hr & Ha & _).
  exists v'. split; [exact Hr|]. split; [exact Ha|].
  destruct (@calls_answered_in_order plainRuntime idleWorld eq_refl
              [call "hover" []] (initialVars []) 0)
    as (v'' & Hr' & _ & _ & Hnext & _).
  exists v''. apply Hnext; [reflexivity | discriminate|].
  cbn in Hr'. injection Hr' as <-. reflexivity.
Defined.

(** C3 as stated fails: a round without cancellation and without
    [complete_task] whose only call has no name pushes no function
    response. *)
Lemma nameless_call_unanswered :
  ~ (forall (rt : Runtime) (env : Env) calls v t,
        abortAt env = None ->
        (forall c, In c calls -> name c <> Some (lit "complete_task")) ->
        exists v',
          result (executeCalls env calls (setInput [] v) t) = Ok v'
          /\ length (currentInputParts v') = length calls).
Proof.
  intros H.
  destruct (H plainRuntime idleWorld [anonymous] (initialVars []) 0 eq_refl)
    as (v' & Hr & Hl).
  - intros c [<- | []]. discriminate.
  - cbn in Hr. injection Hr as <-. discriminate Hl.
Qed.



(** ** The claims about completion and cancellation *)

Section Endings.
Context {rt : Runtime} (env : Env).

(** The execution of [complete_task], from its announcement to the push of
    its function response. *)
Lemma executeCall_complete (fnArgs : Args) (v : Vars) (t : nat) :
  getMcpClient env t = Ok tt ->
  let s := summaryOf fnArgs in
  let run := executeCall env (lit "complete_task") fnArgs v t in
  result run
  = Ok (setInput
          (currentInputParts v
           ++ [FunctionResponse (lit "complete_task")
                 (if isBlocked s then appendHint s else s)])
          (complete s v))
  /\ endTick run = S t
  /\ only isExecution (effects run)
     = [Print (NExecuting (lit "complete_task") fnArgs)]
  /\ completions (effects run) = [s].
Proof.
  intros Hg s run. subst run. unfold executeCall, print. rewrite emit_then.
  cbn [result endTick effects].
  match goal with
  | |- context [bind (tryCatch ?m ?h) ?k t] =>
      assert (Hb : tryCatch m h t
                   = {| result := Ok (s, complete s v); endTick := S t;
                        effects := [(t, GetMcpClient);
                                    (S t, Print (NCompleted s))] |})
  end.
  { unfold tryCatch. now rewrite (toolBody_complete env fnArgs v t Hg). }
  unfold bind at 1 3 5 7. rewrite Hb. cbn [result endTick effects].
  destruct (withHint_run s (S t)) as (Hw & Hwe & Hwc).
  rewrite !(bind_ok _ _ _ _ Hw). cbn [result endTick effects ret].
  rewrite Hwe, app_nil_r.
  split; [reflexivity|]. split; [reflexivity|]. split.
  - rewrite only_cons. cbn [snd isExecution app]. f_equal.
    change ([(t, GetMcpClient); (S t, Print (NCompleted s))]
            ++ effects (withHint s (S t)))
      with ((t, GetMcpClient) :: (S t, Print (NCompleted s))
            :: effects (withHint s (S t))).
    rewrite !only_cons. cbn [snd isExecution app].
    apply only_none. revert Hwc. unfold withHint.
    destruct (isBlocked s); intros _; repeat constructor.
  - change (completions ([(t, GetMcpClient); (S t, Print (NCompleted s))]
                         ++ effects (withHint s (S t))) = [s]).
    now rewrite completions_app, Hwc.
Qed.

(** C2, as amended.  The execution of [complete_task] does not end the
    round: the calls that follow it are gone through as in any round, from
    the variables that it leaves, in which the task is completed and the
    summary is its [summary] argument, or ['Task completed'] when that is
    missing or empty.  A pass in which [complete_task] was executed ends
    the loop: [runTask] returns the summary of the last such execution,
    and the model is not called again. *)
Theorem complete_task_ends_loop :
  (forall call calls v t,
      name call = Some (lit "complete_task") ->
      isAborted env t = false -> getMcpClient env t = Ok tt ->
      let s := summaryOf (argsOf call) in
      exists r,
        let v1 := setInput (currentInputParts v
                            ++ [FunctionResponse (lit "complete_task") r])
                    (complete s v) in
        let rest := executeCalls env calls v1 (S t) in
        result (executeCalls env (call :: calls) v t) = result rest
        /\ only isExecution (effects (executeCalls env (call :: calls) v t))
           = announcement call :: only isExecution (effects rest)
        /\ completions (effects (executeCalls env (call :: calls) v t))
           = s :: completions (effects rest))
  /\ (forall fnArgs c s,
         arg fnArgs "summary" = VString (c :: s) ->
         summaryOf fnArgs = VString (c :: s))
  /\ (forall fnArgs,
         arg fnArgs "summary" = VUndefined \/ arg fnArgs "summary" = VString [] ->
         summaryOf fnArgs = VString (lit "Task completed"))
  /\ (forall todo v t,
         taskCompleted v = false ->
         completions (effects (iteration env v t)) <> [] ->
         let s := last (completions (effects (iteration env v t))) VUndefined in
         result (taskLoop env (S todo) v t) = Ok s
         /\ truthy s = true
         /\ effects (taskLoop env (S todo) v t)
            = effects (iteration env v t)
              ++ [(endTick (iteration env v t), Debug DFinished)]
         /\ count isModelCall (effects (taskLoop env (S todo) v t)) <= 1).
Proof.
  split; [|split; [|split]].
  - intros call calls v t En Ea Hg s.
    destruct (executeCall_complete (argsOf call) v t Hg) as (Hr & He & Ho & Hc).
    fold s in Hr, Hc.
    exists (if isBlocked s then appendHint s else s). cbv zeta.
    assert (Hcons : executeCalls env (call :: calls) v t
                    = (v1 <- executeCall env (lit "complete_task") (argsOf call) v;;
                       executeCalls env calls v1) t)
      by (rewrite executeCalls_cons, Ea, En; reflexivity).
    rewrite Hcons, (bind_ok _ _ _ _ Hr). cbn [result effects]. rewrite He.
    split; [reflexivity|]. split.
    + rewrite only_app, Ho. unfold announcement, nameOf. now rewrite En.
    + now rewrite completions_app, Hc.
  - intros fnArgs c s H. unfold summaryOf, orElse. now rewrite H.
  - intros fnArgs [H | H]; unfold summaryOf, orElse; now rewrite H.
  - intros todo v t Hopen Hsome s.
    destruct (iteration_ending env v t Hopen)
      as [v1 R1 R2 R3 R4 | R1 R2 | msg R1 R2 | v1 R1 R2 R3 R4 R5];
      try congruence.
    cbn [taskLoop]. rewrite (bind_ok _ _ _ _ R1).
    unfold finish, debug. rewrite emit_then. cbn [result endTick effects ret].
    unfold orElse. rewrite R4. subst s. rewrite <- R3.
    split; [reflexivity|]. split; [exact R4|]. split; [reflexivity|].
    rewrite count_app. pose proof (iteration_calls env v t) as L.
    change (count isModelCall [(endTick (iteration env v t), Debug DFinished)])
      with 0.
    lia.
Qed.

End Endings.

Lemma complete_task_ends_loop_witness :
  result (@runTask plainRuntime hastyWorld (lit "go") 0) = Ok (VString (lit "Done"))
  /\ result (@taskLoop plainRuntime hastyWorld 20
               (initialVars [TextPart (lit "Task: go")]) 5)
     = Ok (VString (lit "Done"))
  /\ only isExecution
       (effects (@executeCalls plainRuntime hastyWorld completeThenNavigate
                   (initialVars []) 0))
     = map announcement completeThenNavigate
  /\ summaryOf [(lit "summary", VString (lit "Done"))] = VString (lit "Done")
  /\ summaryOf [] = VString (lit "Task completed").
Proof.
  pose proof (@complete_task_ends_loop plainRuntime hastyWorld)
    as (Hround & Hgiven & Hmissing & Hloop).
  split; [|split; [|split; [|split]]];
    [| | | exact (Hgiven [(lit "summary", VString (lit "Done"))] _ _ eq_refl)
         | exact (Hmissing [] (or_introl eq_refl))].
  - vm_compute. reflexivity.
  - refine (eq_trans
              (proj1 (Hloop 19 (initialVars [TextPart (lit "Task: go")]) 5
                        eq_refl _)) _).
    + vm_compute. discriminate.
    + vm_compute. reflexivity.
  - destruct (Hround (call "complete_task" [(lit "summary", VString (lit "Done"))])
                [call "navigate" [(lit "url", VString (lit "https://example.com"))]]
                (initialVars []) 0 eq_refl eq_refl eq_refl)
      as (r & _ & Ho & _).
    cbv zeta in Ho. unfold completeThenNavigate. rewrite Ho.
    vm_compute. reflexivity.
Defined.

(** C2 as stated fails in its part (a): in a round in which the model
    returns [complete_task] and then [navigate], the navigation is
    executed after the completion. *)
Lemma complete_task_does_not_stop_round :
  ~ (forall (rt : Runtime) (env : Env) calls v t tc s before after,
        effects (executeCalls env calls v t)
        = before ++ (tc, Print (NCompleted s)) :: after ->
        only isExecution after = []).
Proof.
  intros H.
  specialize (H plainRuntime hastyWorld completeThenNavigate (initialVars []) 0
                1 (VString (lit "Done"))
                [(0, Print (NExecuting (lit "complete_task")
                              [(lit "summary", VString (lit "Done"))]));
                 (0, GetMcpClient)]
                [(1, Print (NExecuting (lit "navigate")
                              [(lit "url", VString (lit "https://example.com"))]));
                 (1, GetMcpClient);
                 (2, CallTool (lit "navigate_page")
                       [(lit "url", VString (lit "https://example.com"))])]
                eq_refl).
  discriminate H.
Qed.

Section Cancellation.
Context {rt : Runtime} (env : Env).

Lemma isAborted_stays (t t' : nat) :
  isAborted env t = true -> t <= t' -> isAborted env t' = true.
Proof.
  unfold isAborted. destruct (abortAt env) as [a|]; [|discriminate].
  intros H L. apply Nat.leb_le in H. apply Nat.leb_le. lia.
Qed.

Lemma runTask_guarded (prompt : jsstring) (t : nat) :
  Forall (guarded env) (effects (runTask env prompt t)).
Proof.
  apply (runTask_emits env (guarded env)).
  - intros t' e H1 H2 [H | H]; cbn in H; congruence.
  - intros t' n a Ea _. exact Ea.
  - intros t' parts Ea _. exact Ea.
Qed.

(** The abort signal is raised while the response streams: the events that
    follow are left in the stream and the call of the model ends
    cancelled. *)
Lemma modelTurn_cancelled (messageParts : list Part) (t : nat)
    (event : StreamEvent) (events : list StreamEvent) (failure : option jsstring) :
  sendMessageStream env t messageParts = Stream (event :: events) failure ->
  isAborted env (S (S t)) = true ->
  modelTurn env messageParts t
  = {| result := Ok TurnCancelled;
       endTick := S (S t);
       effects := [(t, SendMessageStream messageParts);
                   (S (S t), Debug DCancelledStreaming);
                   (S (S t), Print NCancelled);
                   (S (S t), Debug DCancelledAfterModel)] |}.
Proof.
  intros Hs Ea.
  assert (Hc : forall acc,
             consume env (event :: events) failure acc (S t)
             = {| result := Ok acc; endTick := S (S t);
                  effects := [(S (S t), Debug DCancelledStreaming)] |}).
  { intros acc. cbn [consume]. now rewrite pull_then, aborted_then, Ea. }
  unfold modelTurn.
  match goal with
  | |- tryCatch ?m ?h t = _ =>
      assert (Hm : m t = {| result := Ok TurnCancelled;
                            endTick := S (S t);
                            effects := [(t, SendMessageStream messageParts);
                                        (S (S t), Debug DCancelledStreaming);
                                        (S (S t), Print NCancelled);
                                        (S (S t), Debug DCancelledAfterModel)] |})
  end.
  { rewrite await_then, Hs.
    assert (Hacc : result (consume env (event :: events) failure
                             {| functionCalls := []; textResponse := [] |} (S t))
                   = Ok {| functionCalls := []; textResponse := [] |})
      by now rewrite Hc.
    rewrite (bind_ok _ _ _ _ Hacc), Hc. cbn [result endTick effects].
    now rewrite aborted_then, Ea. }
  unfold tryCatch. now rewrite Hm.
Qed.

(** C4.  No call of the orchestrator model and no tool execution starts
    once the abort signal is raised, so [complete_task] is not invoked
    either; the signal stays raised.  When it is raised before a call of
    the model, the pass stops the loop at once and [runTask] returns the
    summary so far, which is ['Task finished'] when there is none; when it
    is raised while the response streams, the call of the model ends
    cancelled and the pass stops the loop; when it is raised before a
    queued tool execution, that call and the calls after it in the batch
    are left out and the variables stay as the calls before left them. *)
Theorem cancellation_stops_loop :
  (forall prompt t0 t e,
      In (t, e) (effects (runTask env prompt t0)) ->
      isModelCall e = true \/ isExecution e = true ->
      isAborted env t = false)
  /\ (forall t t', isAborted env t = true -> t <= t' -> isAborted env t' = true)
  /\ (forall v t todo,
         isAborted env t = true ->
         iteration env v t
         = {| result := Ok (Break v); endTick := t;
              effects := [(t, Print NCancelled); (t, Debug DCancelledByUser)] |}
         /\ taskLoop env (S todo) v t
            = {| result := Ok (orElse (taskSummary v) (VString (lit "Task finished")));
                 endTick := t;
                 effects := [(t, Print NCancelled); (t, Debug DCancelledByUser);
                             (t, Debug DFinished)] |})
  /\ (forall v t event events failure,
         isAborted env t = false ->
         sendMessageStream env t (currentInputParts v)
         = Stream (event :: events) failure ->
         isAborted env (S (S t)) = true ->
         result (iteration env v t) = Ok (Break v)
         /\ only isExecution (effects (iteration env v t)) = []
         /\ count isModelCall (effects (iteration env v t)) = 1)
  /\ (forall call calls v t,
         isAborted env t = true ->
         executeCalls env (call :: calls) v t
         = {| result := Ok v; endTick := t;
              effects := [(t, Print NCancelled);
                          (t, Debug DCancelledBeforeTool)] |}).
Proof.
  split; [|split; [|split; [|split]]].
  - intros prompt t0 t e Hin Hk.
    pose proof (runTask_guarded prompt t0) as G.
    rewrite Forall_forall in G. exact (G _ Hin Hk).
  - exact isAborted_stays.
  - intros v t todo Ea. pose proof (iteration_aborted env v t Ea) as Hi.
    split; [exact Hi|].
    cbn [taskLoop]. unfold bind. rewrite Hi. reflexivity.
  - intros v t event events failure Ea Hs Ea2.
    destruct (iteration_live env v t Ea) as (turn & Hturn & Hr & _ & Hf).
    cbv zeta in Hr, Hf.
    rewrite (modelTurn_cancelled _ _ _ _ _ Hs Ea2) in Hturn, Hr, Hf.
    cbn [result endTick effects] in Hturn, Hr, Hf. injection Hturn as <-.
    rewrite Hr, Hf. repeat split.
  - intros call calls v t Ea. now rewrite executeCalls_cons, Ea.
Qed.

End Cancellation.

Lemma cancellation_stops_loop_witness :
  @taskLoop plainRuntime
    (cancelledWorld 0 (fun _ _ => Stream [chunkOf completeThenNavigate] None))
    MAX_ITERATIONS (initialVars [TextPart (lit "Task: go")]) 5
  = {| result := Ok (VString (lit "Task finished"));
       endTick := 5;
       effects := [(5, Print NCancelled); (5, Debug DCancelledByUser);
                   (5, Debug DFinished)] |}
  /\ @executeCalls plainRuntime
       (cancelledWorld 0 (fun _ _ => Stream [] None)) completeThenNavigate
       (initialVars []) 3
     = {| result := Ok (initialVars []); endTick := 3;
          effects := [(3, Print NCancelled); (3, Debug DCancelledBeforeTool)] |}
  /\ isAborted (cancelledWorld 0 (fun _ _ => Stream [] None)) 7 = true
  /\ result (@iteration plainRuntime
               (cancelledWorld 1 (fun _ _ => Stream [chunkOf completeThenNavigate] None))
               (initialVars []) 0)
     = Ok (Break (initialVars []))
  /\ isAborted (cancelledWorld 9 (fun _ _ => Stream [chunkOf completeThenNavigate] None))
       5 = false.
Proof.
  pose proof (@cancellation_stops_loop plainRuntime
                (cancelledWorld 0 (fun _ _ => Stream [chunkOf completeThenNavigate] None)))
    as (_ & _ & Htop & _).
  pose proof (@cancellation_stops_loop plainRuntime
                (cancelledWorld 0 (fun _ _ => Stream [] None)))
    as (_ & Hstay & _ & _ & Hbatch).
  pose proof (@cancellation_stops_loop plainRuntime
                (cancelledWorld 1 (fun _ _ => Stream [chunkOf completeThenNavigate] None)))
    as (_ & _ & _ & Hstream & _).
  pose proof (@cancellation_stops_loop plainRuntime
                (cancelledWorld 9 (fun _ _ => Stream [chunkOf completeThenNavigate] None)))
    as (Hguard & _).
  split; [|split; [|split; [|split]]].
  - exact (proj2 (Htop (initialVars [TextPart (lit "Task: go")]) 5 19 eq_refl)).
  - exact (Hbatch _ _ (initialVars []) 3 eq_refl).
  - exact (Hstay 0 7 eq_refl (Nat.le_0_l 7)).
  - exact (proj1 (Hstream (initialVars []) 0 (chunkOf completeThenNavigate) [] None
                    eq_refl eq_refl eq_refl)).
  - refine (Hguard (lit "go") 0 5
              (SendMessageStream [TextPart (lit "Task: go")]) _ (or_introl eq_refl)).
    vm_compute. tauto.
Defined.

End AgentFacts.

(** ** The session connection manager *)

Module ManagerFacts.
Import Js Manager.
Import Agent (Res, Ok, Throw).

Section WithWorld.
Variable env : Env.

Ltac run :=
  unfold ensureConnection, ensureBrowserLaunched, launchBrowser, connectMcp,
    bind, read, ask, write, await, ret, throw, launches, registrations;
  cbn [fst snd fields clock log mcpClient browser page remoteDebuggingPort
       setPort setBrowser setPage setMcpClient negb].

Lemma ensureConnection_connected (s : State) (b : Browser) (c : McpClient) :
  browser (fields s) = Some b -> isConnected env (clock s) b = true ->
  mcpClient (fields s) = Some c -> getStatus env (clock s) c = true ->
  noPort (remoteDebuggingPort (fields s)) = false ->
  ensureConnection env s = (Ok tt, s).
Proof.
  intros Hb Hbc Hc Hcc Hp. run. rewrite Hp. cbn. rewrite Hb. cbn.
  rewrite Hbc. cbn. rewrite Hc. cbn. rewrite Hcc. reflexivity.
Qed.

Lemma repeatEnsure_connected (n : nat) (s : State) (b : Browser) (c : McpClient) :
  browser (fields s) = Some b -> isConnected env (clock s) b = true ->
  mcpClient (fields s) = Some c -> getStatus env (clock s) c = true ->
  noPort (remoteDebuggingPort (fields s)) = false ->
  repeatEnsure env n s = s.
Proof.
  intros Hb Hbc Hc Hcc Hp. induction n as [|n IH]; [reflexivity|].
  cbn [repeatEnsure].
  now rewrite (ensureConnection_connected s b c Hb Hbc Hc Hcc Hp).
Qed.

(** A session that stays connected: whether or not a port was noted, no
    browser is launched and no client is registered, and the session keeps
    its browser and its client. *)
Lemma ensureConnection_steady (s : State) (b : Browser) (c : McpClient) :
  browser (fields s) = Some b -> mcpClient (fields s) = Some c ->
  (forall t, clock s <= t ->
             isConnected env t b = true /\ getStatus env t c = true) ->
  launches (snd (ensureConnection env s)) = launches s
  /\ registrations (snd (ensureConnection env s)) = registrations s
  /\ browser (fields (snd (ensureConnection env s))) = Some b
  /\ mcpClient (fields (snd (ensureConnection env s))) = Some c.
Proof.
  intros Hb Hc Hstay.
  destruct (Hstay (clock s) (le_n _)) as [H0b H0c].
  destruct (Hstay (S (clock s)) (le_S _ _ (le_n _))) as [H1b H1c].
  run. destruct (noPort (remoteDebuggingPort (fields s))).
  - destruct (getFreePort env (clock s)) as [p|e]; cbn.
    + rewrite Hb. cbn. rewrite H1b. cbn. rewrite Hc. cbn. rewrite H1c. cbn.
      now rewrite Hb, Hc.
    + now rewrite Hb, Hc.
  - cbn. rewrite Hb. cbn. rewrite H0b. cbn. rewrite Hc. cbn. rewrite H0c. cbn.
    now rewrite Hb, Hc.
Qed.

Lemma grows_more {A} (a b a' b' : nat) (m : M A) :
  a <= a' -> b <= b' -> grows a b m -> grows a' b' m.
Proof. intros La Lb H s. destruct (H s). split; lia. Qed.

Lemma grows_bind {A B} (a b a' b' : nat) (m : M A) (k : A -> M B) :
  grows a b m -> (forall x, grows a' b' (k x)) ->
  grows (a + a') (b + b') (bind m k).
Proof.
  intros Hm Hk s. unfold bind. destruct (Hm s) as [H1 H2].
  destruct (m s) as [[x|e] s1]; cbn [snd] in *.
  - destruct (Hk x s1). split; lia.
  - split; lia.
Qed.

Lemma grows_still {A} (m : M A) :
  (forall s, log (snd (m s)) = log s) -> grows 0 0 m.
Proof. intros H s. unfold launches, registrations. rewrite H. split; lia. Qed.

Lemma grows_await {A} (e : Effect) (answer : nat -> Res A) :
  grows (if isLaunch (0, e) then 1 else 0)
        (if isRegistration (0, e) then 1 else 0) (await e answer).
Proof.
  intros s. unfold await, launches, registrations, isLaunch, isRegistration.
  cbn [snd log filter]. destruct e; cbn [length]; split; lia.
Qed.

Ltac still := apply grows_still; intros ?; reflexivity.

Lemma launchBrowser_grows (port : N) : grows 1 0 (launchBrowser env port).
Proof.
  unfold launchBrowser.
  apply (grows_bind 0 0 1 0); [apply (grows_await AcquireChromium)|]. intros _.
  apply (grows_bind 1 0 0 0); [apply (grows_await (Launch port (headless env)))|].
  intros b.
  apply (grows_bind 0 0 0 0); [still|]. intros _.
  apply (grows_bind 0 0 0 0); [apply (grows_await (NewContext b))|]. intros _.
  apply (grows_bind 0 0 0 0); [apply (grows_await (NewPage b))|]. intros p.
  still.
Qed.

Lemma connectMcp_grows (port : N) : grows 0 1 (connectMcp env port).
Proof.
  unfold connectMcp. destruct (negb (hasMcpManager env)).
  - apply grows_more with 0 0; [lia | lia | still].
  - apply (grows_bind 0 0 0 1); [still|]. intros client.
    apply (grows_bind 0 1 0 0).
    + destruct client as [c|].
      * apply grows_more with 0 0; [lia | lia | still].
      * apply (grows_bind 0 1 0 0);
          [apply (grows_await (MaybeDiscoverMcpServer port))|].
        intros _. still.
    + intros [c|]; [|still].
      apply (grows_bind 0 0 0 0); [still|]. intros connected.
      apply (grows_bind 0 0 0 0).
      * destruct (negb connected); [apply (grows_await (Connect c)) | still].
      * intros _. still.
Qed.

(** One call launches at most one browser and registers at most one
    client. *)
Lemma ensureConnection_once (s : State) :
  launches (snd (ensureConnection env s)) <= S (launches s)
  /\ registrations (snd (ensureConnection env s)) <= S (registrations s).
Proof.
  assert (H : grows 1 1 (ensureConnection env)).
  { unfold ensureConnection, ensureBrowserLaunched.
    apply (grows_bind 0 0 1 1); [still|]. intros p.
    apply (grows_bind 0 0 1 1).
    { destruct (noPort p); [|still].
      apply (grows_bind 0 0 0 0); [apply (grows_await GetFreePort)|].
      intros fresh. still. }
    intros _.
    apply (grows_bind 0 0 1 1); [still|]. intros p1.
    apply (grows_bind 0 0 1 1); [still|]. intros b.
    apply (grows_bind 0 0 1 1); [destruct b; still|]. intros running.
    apply (grows_bind 1 0 0 1).
    { destruct (negb running); [apply launchBrowser_grows|].
      apply grows_more with 0 0; [lia | lia | still]. }
    intros _.
    apply (grows_bind 0 0 0 1); [still|]. intros c.
    apply (grows_bind 0 0 0 1); [destruct c; still|]. intros connected.
    destruct (negb connected); [apply connectMcp_grows|].
    apply grows_more with 0 0; [lia | lia | still]. }
  destruct (H s). split; lia.
Qed.

(** C6.  In a session whose browser is connected and whose client
    reports ['connected'], with its port noted, establishing the connection
    again changes nothing, however often it is done: no browser is
    launched, no client is registered, the session keeps what it holds.
    The same holds without a noted port as long as both stay connected.
    The session holds at most one browser and one client, and one call
    launches at most one browser and registers at most one client. *)
Theorem ensureConnection_idempotent :
  (forall s b c,
      browser (fields s) = Some b -> isConnected env (clock s) b = true ->
      mcpClient (fields s) = Some c -> getStatus env (clock s) c = true ->
      noPort (remoteDebuggingPort (fields s)) = false ->
      ensureConnection env s = (Ok tt, s)
      /\ forall n, repeatEnsure env n s = s)
  /\ (forall s b c,
         browser (fields s) = Some b -> mcpClient (fields s) = Some c ->
         (forall t, clock s <= t ->
                    isConnected env t b = true /\ getStatus env t c = true) ->
         launches (snd (ensureConnection env s)) = launches s
         /\ registrations (snd (ensureConnection env s)) = registrations s
         /\ browser (fields (snd (ensureConnection env s))) = Some b
         /\ mcpClient (fields (snd (ensureConnection env s))) = Some c)
  /\ (forall s,
         launches (snd (ensureConnection env s)) <= S (launches s)
         /\ registrations (snd (ensureConnection env s)) <= S (registrations s)).
Proof.
  split; [|split].
  - intros s b c Hb Hbc Hc Hcc Hp. split.
    + now apply ensureConnection_connected with b c.
    + intros n. now apply repeatEnsure_connected with b c.
  - exact ensureConnection_steady.
  - exact ensureConnection_once.
Qed.

End WithWorld.

Lemma ensureConnection_idempotent_witness :
  launches connected = 1 /\ registrations connected = 1
  /\ ensureConnection steady connected = (Ok tt, connected)
  /\ launches (repeatEnsure steady 2 fresh) = 1
  /\ registrations (repeatEnsure steady 2 fresh) = 1
  /\ launches (snd (ensureConnection steady connected)) = launches connected.
Proof.
  pose proof (ensureConnection_idempotent steady) as (Hsame & Hstay & _).
  destruct (Hsame connected 1 1 eq_refl eq_refl eq_refl eq_refl eq_refl)
    as [Hone Hmany].
  split; [reflexivity|]. split; [reflexivity|]. split; [exact Hone|].
  change (repeatEnsure steady 2 fresh) with (repeatEnsure steady 1 connected).
  rewrite (Hmany 1). split; [reflexivity|]. split; [reflexivity|].
  refine (proj1 (Hstay connected 1 1 eq_refl eq_refl _)).
  intros t L. change (clock connected) with 7 in L.
  split; [reflexivity|]. apply Nat.leb_le. exact L.
Defined.

End ManagerFacts.

(** ** The session connection manager: what a call leaves behind *)

Module SessionFacts.
Import Js Manager.
Import Agent (Res, Ok, Throw).

Section Triples.
Context {A B : Type}.

Lemma triple_bind (P : State -> Prop) (m : M A) (Q : A -> State -> Prop)
    (k : A -> M B) (Q' : B -> State -> Prop) (R : jsstring -> State -> Prop) :
  triple P m Q R -> (forall a, triple (Q a) (k a) Q' R) ->
  triple P (bind m k) Q' R.
Proof.
  intros Hm Hk s Hs. unfold bind. specialize (Hm s Hs).
  destruct (m s) as [[a|e] s1]; [now apply Hk | exact Hm].
Qed.

Lemma triple_weaken (P P' : State -> Prop) (m : M A)
    (Q Q' : A -> State -> Prop) (R R' : jsstring -> State -> Prop) :
  (forall s, P' s -> P s) -> (forall a s, Q a s -> Q' a s) ->
  (forall e s, R e s -> R' e s) ->
  triple P m Q R -> triple P' m Q' R'.
Proof.
  intros HP HQ HR Hm s Hs. specialize (Hm s (HP s Hs)).
  destruct (m s) as [[a|e] s1]; [now apply HQ | now apply HR].
Qed.

Lemma triple_ret (a : A) (P : State -> Prop) (Q : A -> State -> Prop)
    (R : jsstring -> State -> Prop) :
  (forall s, P s -> Q a s) -> triple P (ret a) Q R.
Proof. intros H s Hs. now apply H. Qed.

Lemma triple_throw (e : jsstring) (P : State -> Prop) (Q : A -> State -> Prop)
    (R : jsstring -> State -> Prop) :
  (forall s, P s -> R e s) -> triple P (@throw A e) Q R.
Proof. intros H s Hs. now apply H. Qed.

Lemma triple_await (e : Effect) (answer : nat -> Res A) (P : State -> Prop)
    (Q : A -> State -> Prop) (R : jsstring -> State -> Prop) :
  (forall s, P s -> match answer (clock s) with
                    | Ok a => Q a (after e s)
                    | Throw x => R x (after e s)
                    end) ->
  triple P (await e answer) Q R.
Proof.
  intros H s Hs. specialize (H s Hs). unfold await.
  destruct (answer (clock s)); exact H.
Qed.

Lemma triple_ask (answer : nat -> A) (P : State -> Prop)
    (Q : A -> State -> Prop) (R : jsstring -> State -> Prop) :
  (forall s, P s -> Q (answer (clock s)) s) -> triple P (ask answer) Q R.
Proof. intros H s Hs. now apply H. Qed.

Lemma triple_read (field : Fields -> A) (P : State -> Prop)
    (Q : A -> State -> Prop) (R : jsstring -> State -> Prop) :
  (forall s, P s -> Q (field (fields s)) s) -> triple P (read field) Q R.
Proof. intros H s Hs. now apply H. Qed.

End Triples.

Lemma triple_write (update : Fields -> Fields) (P : State -> Prop)
    (Q : unit -> State -> Prop) (R : jsstring -> State -> Prop) :
  (forall s, P s -> Q tt {| fields := update (fields s); clock := clock s;
                            log := log s |}) ->
  triple P (write update) Q R.
Proof. intros H s Hs. now apply H. Qed.

Lemma triple_pure {A} (phi : Prop) (P : State -> Prop) (m : M A)
    (Q : A -> State -> Prop) (R : jsstring -> State -> Prop) :
  (phi -> triple P m Q R) -> triple (fun s => phi /\ P s) m Q R.
Proof. intros H s [Hphi Hs]. now apply H. Qed.

Lemma triple_snd {A} (P Q : State -> Prop) (m : M A) :
  triple P m (fun _ => Q) (fun _ => Q) -> forall s, P s -> Q (snd (m s)).
Proof. intros H s Hs. specialize (H s Hs). now destruct (m s) as [[a|e] s1]. Qed.

Lemma triple_top {A} (P : State -> Prop) (m : M A) :
  triple P m (fun _ _ => True) (fun _ _ => True).
Proof. intros s _. now destruct (m s) as [[a|e] s1]. Qed.

Section WithWorld.
Variable env : Env.

(** *** A normal return leaves a client *)

Lemma connectMcp_sets (port : N) :
  triple (fun _ => True) (connectMcp env port)
    (fun _ s => mcpClient (fields s) <> None) (fun _ _ => True).
Proof.
  unfold connectMcp. destruct (negb (hasMcpManager env)).
  - now apply triple_throw.
  - apply triple_bind with (Q := fun _ _ => True); [apply triple_top|].
    intros client.
    apply triple_bind with (Q := fun _ _ => True); [apply triple_top|].
    intros [c|]; [|now apply triple_throw].
    apply triple_bind with (Q := fun _ _ => True); [apply triple_top|].
    intros connected.
    apply triple_bind with (Q := fun _ _ => True); [apply triple_top|].
    intros _. apply triple_write. intros s _. discriminate.
Qed.

Lemma ensureConnection_sets :
  triple (fun _ => True) (ensureConnection env)
    (fun _ s => mcpClient (fields s) <> None) (fun _ _ => True).
Proof.
  unfold ensureConnection, ensureBrowserLaunched.
  apply triple_bind with (Q := fun _ _ => True); [apply triple_top|]. intros p.
  apply triple_bind with (Q := fun _ _ => True); [apply triple_top|]. intros _.
  apply triple_bind with (Q := fun _ _ => True); [apply triple_top|]. intros p1.
  apply triple_bind with (Q := fun _ _ => True); [apply triple_top|]. intros b.
  apply triple_bind with (Q := fun _ _ => True); [apply triple_top|]. intros running.
  apply triple_bind with (Q := fun _ _ => True); [apply triple_top|]. intros _.
  apply triple_bind with (Q := fun c s => mcpClient (fields s) = c);
    [now apply triple_read|].
  intros c.
  apply triple_bind
    with (Q := fun connected s => connected = true -> mcpClient (fields s) <> None).
  - destruct c as [h|].
    + apply triple_ask. intros s Hs _. rewrite Hs. discriminate.
    + apply triple_ret. intros s _. discriminate.
  - intros [|]; cbn [negb].
    + apply triple_ret. intros s Hs. now apply Hs.
    + apply triple_weaken with (P := fun _ => True)
        (Q := fun _ s => mcpClient (fields s) <> None) (R := fun _ _ => True);
        auto using connectMcp_sets.
Qed.

(** X1.  A normal return of [ensureConnection] leaves a client in the
    session; [getMcpClient] returns the client that the session then holds,
    and what it throws is what [ensureConnection] threw, so that its own
    check after [ensureConnection] never fires; a client that reports
    ['connected'] is handed out at once, and the session stays as it is. *)
Theorem connection_yields_client :
  (forall s s',
      ensureConnection env s = (Ok tt, s') ->
      exists c, mcpClient (fields s') = Some c)
  /\ (forall s c s',
         getMcpClient env s = (Ok c, s') -> mcpClient (fields s') = Some c)
  /\ (forall s e s',
         getMcpClient env s = (Throw e, s') ->
         ensureConnection env s = (Throw e, s'))
  /\ (forall s c,
         mcpClient (fields s) = Some c -> getStatus env (clock s) c = true ->
         getMcpClient env s = (Ok c, s)).
Proof.
  assert (Hsets : forall s s',
             ensureConnection env s = (Ok tt, s') ->
             exists c, mcpClient (fields s') = Some c).
  { intros s s' E. pose proof (ensureConnection_sets s I) as H. rewrite E in H.
    destruct (mcpClient (fields s')) as [c|]; [now exists c | congruence]. }
  split; [exact Hsets|]. split; [|split].
  - intros s c s'. unfold getMcpClient, bind, read, ask, ret, throw.
    destruct (mcpClient (fields s)) as [h|] eqn:Ec.
    + destruct (getStatus env (clock s) h).
      * intros [= <- <-]. exact Ec.
      * destruct (ensureConnection env s) as [[[]|e] s1]; [|discriminate].
        destruct (mcpClient (fields s1)) as [h1|] eqn:E1; [|discriminate].
        intros [= <- <-]. exact E1.
    + destruct (ensureConnection env s) as [[[]|e] s1]; [|discriminate].
      destruct (mcpClient (fields s1)) as [h1|] eqn:E1; [|discriminate].
      intros [= <- <-]. exact E1.
  - intros s e s' H.
    assert (Hrest :
      (let (r, s1) := ensureConnection env s in
       match r with
       | Ok _ =>
           match mcpClient (fields s1) with
           | Some h => (Ok h, s1)
           | None =>
               (Throw (lit "Failed to initialize chrome-devtools MCP client"), s1)
           end
       | Throw e0 => (Throw e0, s1)
       end) = (Throw e, s') ->
      ensureConnection env s = (Throw e, s')).
    { destruct (ensureConnection env s) as [[[]|e0] s1] eqn:E;
        [|now intros [= -> ->]].
      destruct (Hsets s s1 E) as [c Hc]. rewrite Hc. discriminate. }
    unfold getMcpClient, bind, read, ask, ret, throw in H.
    destruct (mcpClient (fields s)) as [h|];
      [destruct (getStatus env (clock s) h); [discriminate|]|];
      cbv beta iota in H; apply Hrest; rewrite <- H;
      destruct (ensureConnection env s) as [[[]|e0] s1]; try reflexivity;
      now destruct (mcpClient (fields s1)).
  - intros s c Hc Hs. unfold getMcpClient, bind, read, ask, ret.
    now rewrite Hc, Hs.
Qed.

(** *** One port for the browser and the client *)

Ltac kept :=
  first
    [ apply triple_ret; intros ? ?; assumption
    | apply triple_throw; intros ? ?; assumption
    | apply triple_read; intros ? ?; assumption
    | apply triple_ask; intros ? ?; assumption
    | apply triple_write; intros ? [? ?]; split; assumption
    | apply triple_await; intros ? [? ?];
      match goal with
      | |- match ?x with _ => _ end =>
          destruct x; (split; [assumption | constructor; [now cbn | assumption]])
      end
    | match goal with
      | |- triple _ (if ?b then _ else _) _ _ => destruct b
      | |- triple _ (match ?x with _ => _ end) _ _ => destruct x
      end ].

Lemma launchBrowser_port (p1 : option N) :
  triple (portKept p1) (launchBrowser env (portOf p1))
    (fun _ => portKept p1) (fun _ => portKept p1).
Proof.
  unfold launchBrowser.
  repeat first [ apply triple_bind with (Q := fun _ => portKept p1); [|intros ?]
               | kept ].
Qed.

Lemma connectMcp_port (p1 : option N) :
  triple (portKept p1) (connectMcp env (portOf p1))
    (fun _ => portKept p1) (fun _ => portKept p1).
Proof.
  unfold connectMcp.
  repeat first [ apply triple_bind with (Q := fun _ => portKept p1); [|intros ?]
               | kept ].
Qed.

Ltac kept_on p1 :=
  cbv zeta;
  repeat first
    [ apply (launchBrowser_port p1)
    | apply (connectMcp_port p1)
    | apply triple_bind with (Q := fun _ => portKept p1); [|intros ?]
    | kept ].

Lemma quiet_usesPort (q : N) (s : State) :
  quietLog s -> Forall (usesPort q) (log s).
Proof. intros H. eapply Forall_impl; [|exact H]. intros e He. apply He. Qed.

Lemma portKept_onePort (p1 : option N) (s : State) : portKept p1 s -> onePort s.
Proof. intros [H1 H2] q Hq. rewrite Hq in H1. now subst p1. Qed.

Lemma ensureBrowserLaunched_ports (p0 : option N) :
  triple (fun s => remoteDebuggingPort (fields s) = p0
                   /\ if noPort p0 then quietLog s
                      else Forall (usesPort (portOf p0)) (log s))
    (ensureBrowserLaunched env)
    (fun _ s => (noPort p0 = false -> remoteDebuggingPort (fields s) = p0)
                /\ onePort s)
    (fun _ s => (noPort p0 = false -> remoteDebuggingPort (fields s) = p0)
                /\ onePort s).
Proof.
  unfold ensureBrowserLaunched.
  apply triple_bind
    with (Q := fun x s => x = p0
                          /\ (remoteDebuggingPort (fields s) = p0
                              /\ if noPort p0 then quietLog s
                                 else Forall (usesPort (portOf p0)) (log s))).
  { apply triple_read. intros s [H1 H2]. now repeat split. }
  intros x. apply triple_pure. intros ->.
  destruct (noPort p0) eqn:Ep.
  - apply triple_bind with (Q := fun _ s => quietLog s).
    + apply triple_bind with (Q := fun _ s => quietLog s).
      * apply triple_await. intros s [_ Hq].
        destruct (getFreePort env (clock s)) as [fresh|e].
        -- constructor; [now intros q | exact Hq].
        -- split; [discriminate|]. intros q _. apply quiet_usesPort.
           constructor; [now intros q' | exact Hq].
      * intros fresh. apply triple_write. intros s Hq. exact Hq.
    + intros _.
      apply triple_bind with (Q := fun p1 s => portKept p1 s).
      { apply triple_read. intros s Hq. split; [reflexivity|].
        now apply quiet_usesPort. }
      intros p1.
      apply triple_weaken with (P := portKept p1) (Q := fun _ => portKept p1)
        (R := fun _ => portKept p1);
        [ auto
        | intros _ s H; split; [discriminate | now apply portKept_onePort with p1]
        | intros _ s H; split; [discriminate | now apply portKept_onePort with p1]
        | ].
      kept_on p1.
  - apply triple_bind with (Q := fun _ s => portKept p0 s).
    + apply triple_ret. intros s H. exact H.
    + intros _.
      apply triple_bind with (Q := fun p1 s => p1 = p0 /\ portKept p0 s).
      { apply triple_read. intros s H. split; [apply H | exact H]. }
      intros p1. apply triple_pure. intros ->.
      apply triple_weaken with (P := portKept p0) (Q := fun _ => portKept p0)
        (R := fun _ => portKept p0);
        [ auto
        | intros _ s H; split; [intros _; apply H | now apply portKept_onePort with p0]
        | intros _ s H; split; [intros _; apply H | now apply portKept_onePort with p0]
        | ].
      kept_on p0.
Qed.

Lemma ensureBrowserLaunched_ported (p : N) :
  p <> 0%N ->
  triple (ported p) (ensureBrowserLaunched env)
    (fun _ => ported p) (fun _ => ported p).
Proof.
  intros Hp.
  assert (Hn : noPort (Some p) = false) by now apply N.eqb_neq.
  apply triple_weaken with (4 := ensureBrowserLaunched_ports (Some p)).
  - intros s [H1 H2]. split; [exact H1|]. rewrite Hn. exact H2.
  - intros _ s [H1 H2]. split; [now apply H1 | apply H2; now apply H1].
  - intros _ s [H1 H2]. split; [now apply H1 | apply H2; now apply H1].
Qed.

(** X2.  The client is registered for the port on which the browser was
    launched.  Once a port other than 0 is noted, the session keeps it,
    and every browser it launches and every client it registers, by
    [ensureConnection], [getMcpClient] or [getPage], is for that port; and
    after the first call on a session that has done nothing yet, what was
    launched and registered is for the port that the session then holds. *)
Theorem one_port_per_session :
  (forall p s,
      p <> 0%N -> ported p s ->
      ported p (snd (ensureConnection env s))
      /\ ported p (snd (getMcpClient env s))
      /\ ported p (snd (getPage env s)))
  /\ (forall s, log s = [] -> onePort (snd (ensureConnection env s))).
Proof.
  split.
  - intros p s Hp Hs.
    pose proof (ensureBrowserLaunched_ported p Hp) as He.
    split; [|split].
    + exact (triple_snd _ _ _ He s Hs).
    + refine (triple_snd _ _ _ _ s Hs). unfold getMcpClient.
      repeat first
        [ apply He
        | apply triple_bind with (Q := fun _ => ported p); [|intros ?]
        | kept ].
    + refine (triple_snd _ _ _ _ s Hs). unfold getPage.
      repeat first
        [ apply He
        | apply triple_bind with (Q := fun _ => ported p); [|intros ?]
        | kept ].
  - intros s Hl.
    refine (triple_snd _ onePort _ _ s _).
    + apply triple_weaken
        with (4 := ensureBrowserLaunched_ports (remoteDebuggingPort (fields s)));
        [ intros s' H; exact H | intros _ s' H; apply H | intros _ s' H; apply H ].
    + cbv beta. split; [reflexivity|]. unfold quietLog. rewrite Hl.
      destruct (noPort _); constructor.
Qed.

(** *** When the browser or its page cannot be had *)

Lemma triple_false {A} (m : M A) (Q : A -> State -> Prop)
    (R : jsstring -> State -> Prop) :
  triple (fun _ => False) m Q R.
Proof. intros s []. Qed.

Ltac held :=
  first
    [ apply triple_ret; intros ? ?; assumption
    | apply triple_throw; intros ? ?; assumption
    | apply triple_read; intros ? ?; assumption
    | apply triple_ask; intros ? ?; assumption
    | apply triple_write; intros ? [? ?]; split; assumption
    | apply triple_await; intros ? [? ?];
      match goal with
      | |- match ?x with _ => _ end =>
          destruct x; (split; [assumption|]);
          unfold untouched, pageless, registrations, launches in *; cbn; assumption
      end
    | match goal with
      | |- triple _ (if ?b then _ else _) _ _ => destruct b
      | |- triple _ (match ?x with _ => _ end) _ _ => destruct x
      end ].

(** X3.  If the browser cannot be launched, [ensureConnection] throws,
    whatever else works, and the session is left without browser: it holds
    the client and the page it held, and no client was registered or
    connected. *)
Theorem launch_failure_stops_connection :
  (forall t q, exists e, launch env t q = Throw e) ->
  forall s,
    browser (fields s) = None ->
    exists e s',
      ensureConnection env s = (Throw e, s')
      /\ browser (fields s') = None /\ untouched s s'.
Proof.
  intros Hl s0 Hb0.
  set (K := fun s => browser (fields s) = None /\ untouched s0 s).
  assert (H : triple K (ensureConnection env) (fun _ _ => False) (fun _ => K)).
  { unfold ensureConnection, ensureBrowserLaunched.
    apply triple_bind with (Q := fun _ => K); [held|]. intros p.
    apply triple_bind with (Q := fun _ => K).
    { destruct (noPort p); [|held].
      apply triple_bind with (Q := fun _ => K); [held|]. intros fresh. held. }
    intros _.
    apply triple_bind with (Q := fun _ => K); [held|]. intros p1. cbv zeta.
    apply triple_bind with (Q := fun b s => b = None /\ K s).
    { apply triple_read. intros s Hs. split; [apply Hs | exact Hs]. }
    intros b. apply triple_pure. intros ->.
    apply triple_bind with (Q := fun r s => r = false /\ K s).
    { apply triple_ret. intros s Hs. now split. }
    intros r. apply triple_pure. intros ->. cbn [negb].
    apply triple_bind with (Q := fun _ _ => False); [|intros _; apply triple_false].
    unfold launchBrowser.
    apply triple_bind with (Q := fun _ => K); [held|]. intros _.
    apply triple_bind with (Q := fun _ _ => False); [|intros b; apply triple_false].
    apply triple_await. intros s [Hb Hu].
    destruct (Hl (clock s) (portOf p1)) as [e He].
    change (match p1 with Some n => n | None => 0%N end) with (portOf p1).
    rewrite He. split; [exact Hb|].
    unfold untouched, registrations in *. cbn. exact Hu. }
  assert (K0 : K s0) by (split; [exact Hb0 | now repeat split]).
  specialize (H s0 K0).
  destruct (ensureConnection env s0) as [[[]|e] s']; [contradiction|].
  exists e, s'. split; [reflexivity | exact H].
Qed.

Lemma connectMcp_pageless (s0 : State) (port : N) :
  triple (pageless s0) (connectMcp env port)
    (fun _ => pageless s0) (fun _ => pageless s0).
Proof.
  unfold connectMcp.
  repeat first [ apply triple_bind with (Q := fun _ => pageless s0); [|intros ?]
               | held ].
Qed.

(** X4.  [getPage] trusts what the session holds.  A stored page is handed
    out as it is, without a look at the browser and with no effect on the
    session.  When the launch succeeds but opening the context fails,
    [ensureConnection] throws what the context threw and the session keeps
    the browser without a page; and in a session without a page whose
    browser is connected, [getPage] launches nothing and throws, leaving
    the session without a page: with a connected client, it throws
    ['Browser page not available'] and changes nothing. *)
Theorem getPage_trusts_session :
  (forall s p, page (fields s) = Some p -> getPage env s = (Ok p, s))
  /\ (forall s port b e,
         remoteDebuggingPort (fields s) = Some port -> port <> 0%N ->
         browser (fields s) = None ->
         acquireChromium env (clock s) = Ok tt ->
         launch env (S (clock s)) port = Ok b ->
         newContext env (S (S (clock s))) b = Throw e ->
         exists s',
           ensureConnection env s = (Throw e, s')
           /\ browser (fields s') = Some b
           /\ page (fields s') = page (fields s)
           /\ mcpClient (fields s') = mcpClient (fields s))
  /\ (forall s b,
         page (fields s) = None ->
         noPort (remoteDebuggingPort (fields s)) = false ->
         browser (fields s) = Some b -> isConnected env (clock s) b = true ->
         exists e s',
           getPage env s = (Throw e, s')
           /\ page (fields s') = None /\ launches s' = launches s)
  /\ (forall s b c,
         page (fields s) = None ->
         noPort (remoteDebuggingPort (fields s)) = false ->
         browser (fields s) = Some b -> isConnected env (clock s) b = true ->
         mcpClient (fields s) = Some c -> getStatus env (clock s) c = true ->
         getPage env s = (Throw (lit "Browser page not available"), s)).
Proof.
  split; [|split; [|split]].
  - intros s p Hp. unfold getPage, bind, read, ret.
    rewrite Hp. cbv beta iota. now rewrite Hp.
  - intros s port b e Hport Hp Hb Ha Hl Hc.
    assert (Hn : noPort (Some port) = false) by now apply N.eqb_neq.
    unfold ensureConnection, ensureBrowserLaunched, launchBrowser, bind, read, ask,
      write, await, ret.
    cbn [fst snd fields clock log mcpClient browser page remoteDebuggingPort].
    repeat (progress (rewrite ?Hport, ?Hn, ?Hb, ?Ha, ?Hl, ?Hc; cbn [negb];
                      cbv beta iota;
                      cbn [fst snd fields clock log mcpClient browser page
                           remoteDebuggingPort setBrowser])).
    eexists. split; [reflexivity|]. now repeat split.
  - intros s b Hp Hn Hb Hc.
    assert (H : triple (fun s1 => s1 = s) (getPage env)
                  (fun _ _ => False) (fun _ => pageless s)).
    { unfold getPage.
      apply triple_bind with (Q := fun p s1 => p = None /\ s1 = s).
      { apply triple_read. intros s1 ->. now split. }
      intros p. apply triple_pure. intros ->.
      apply triple_bind with (Q := fun _ => pageless s).
      - unfold ensureBrowserLaunched.
        apply triple_bind with (Q := fun p s1 => s1 = s
                                  /\ p = remoteDebuggingPort (fields s)).
        { apply triple_read. intros s1 ->. now split. }
        intros p.
        apply triple_weaken
          with (P := fun s1 => p = remoteDebuggingPort (fields s) /\ s1 = s)
               (Q := fun _ : unit => pageless s) (R := fun _ => pageless s);
          [tauto | auto | auto |].
        apply triple_pure. intros ->. rewrite Hn.
        apply triple_bind with (Q := fun _ s1 => s1 = s); [held|]. intros _.
        apply triple_bind with (Q := fun _ s1 => s1 = s); [held|]. intros p1.
        cbv zeta.
        apply triple_bind with (Q := fun x s1 => x = Some b /\ s1 = s).
        { apply triple_read. intros s1 ->. now split. }
        intros x. apply triple_pure. intros ->.
        apply triple_bind with (Q := fun r s1 => r = true /\ s1 = s).
        { apply triple_ask. intros s1 ->. now split. }
        intros r. apply triple_pure. intros ->. cbn [negb].
        apply triple_bind with (Q := fun _ => pageless s).
        { apply triple_ret. intros s1 ->. now split. }
        intros _.
        repeat first
          [ apply connectMcp_pageless
          | apply triple_bind with (Q := fun _ => pageless s); [|intros ?]
          | held ].
      - intros _.
        apply triple_bind with (Q := fun p1 s1 => p1 = None /\ pageless s s1).
        { apply triple_read. intros s1 Hs. split; [apply Hs | exact Hs]. }
        intros p1. apply triple_pure. intros ->. held. }
    specialize (H s eq_refl).
    destruct (getPage env s) as [[p|e] s']; [contradiction|].
    exists e, s'. split; [reflexivity | exact H].
  - intros s b c Hp Hn Hb Hbc Hc Hcc.
    unfold getPage, ensureBrowserLaunched, bind, read, ask, ret, throw.
    repeat (progress (rewrite ?Hp, ?Hn, ?Hb, ?Hbc, ?Hc, ?Hcc; cbn [negb];
                      cbv beta iota)).
    reflexivity.
Qed.

End WithWorld.

Lemma launch_failure_stops_connection_witness :
  exists e s',
    ensureConnection noBrowser fresh = (Throw e, s')
    /\ browser (fields s') = None /\ untouched fresh s'.
Proof.
  apply (launch_failure_stops_connection noBrowser).
  - intros t q. now eexists.
  - reflexivity.
Defined.

Lemma getPage_trusts_session_witness :
  getPage steady connected = (Ok 1, connected)
  /\ (exists s',
        ensureConnection noContext (snd (ensureConnection noBrowser fresh))
        = (Throw (lit "Target closed"), s')
        /\ browser (fields s') = Some 1 /\ page (fields s') = None)
  /\ (exists e s',
        getPage noContext stranded = (Throw e, s') /\ page (fields s') = None)
  /\ getPage noContext (snd (getPage noContext stranded))
     = (Throw (lit "Browser page not available"),
        snd (getPage noContext stranded)).
Proof.
  pose proof (getPage_trusts_session steady) as (Hstored & _).
  pose proof (getPage_trusts_session noContext) as (_ & Hfailed & Hnone & Hstuck).
  split; [|split; [|split]].
  - exact (Hstored connected 1 eq_refl).
  - destruct (Hfailed (snd (ensureConnection noBrowser fresh)) 9222%N 1
                (lit "Target closed") eq_refl ltac:(discriminate) eq_refl
                eq_refl eq_refl eq_refl) as (s' & E & Hb & Hp & _).
    exists s'. split; [exact E|]. split; [exact Hb | exact Hp].
  - destruct (Hnone stranded 1 eq_refl eq_refl eq_refl eq_refl)
      as (e & s' & E & Hp & _).
    exists e, s'. split; [exact E | exact Hp].
  - exact (Hstuck (snd (getPage noContext stranded)) 1 1
             eq_refl eq_refl eq_refl eq_refl eq_refl eq_refl).
Defined.

Lemma one_port_per_session_witness :
  ported 9222 connected
  /\ ported 9222 (snd (ensureConnection steady connected))
  /\ onePort (snd (ensureConnection steady fresh)).
Proof.
  pose proof (one_port_per_session steady) as [Hkeep Hfirst].
  assert (H : ported 9222 connected).
  { split; [reflexivity|]. repeat constructor. }
  split; [exact H|]. split.
  - exact (proj1 (Hkeep 9222%N connected ltac:(discriminate) H)).
  - exact (Hfirst fresh eq_refl).
Defined.

Lemma connection_yields_client_witness :
  (exists c, mcpClient (fields connected) = Some c)
  /\ mcpClient (fields (snd (getMcpClient steady fresh))) = Some 1
  /\ ensureConnection noBrowser fresh
     = (Throw (lit "spawn ENOENT"), snd (getMcpClient noBrowser fresh))
  /\ getMcpClient steady connected = (Ok 1, connected).
Proof.
  pose proof (connection_yields_client steady) as (Hsets & Hgot & _ & Hfast).
  pose proof (connection_yields_client noBrowser) as (_ & _ & Hthrown & _).
  split; [|split; [|split]].
  - exact (Hsets fresh connected eq_refl).
  - exact (Hgot fresh 1 (snd (getMcpClient steady fresh)) eq_refl).
  - exact (Hthrown fresh (lit "spawn ENOENT") (snd (getMcpClient noBrowser fresh))
             eq_refl).
  - exact (Hfast connected 1 eq_refl eq_refl).
Defined.

End SessionFacts.

(** ** The overlay heuristic: close buttons and letter case *)

Module SnapshotFacts.
Import Js JsFacts Overlay OverlayFacts.

(** *** The capture of [uid=(\S+)] *)

Lemma nonSpaceRun_prefix (s : jsstring) :
  exists rest,
    s = nonSpaceRun s ++ rest
    /\ forallb (fun c => negb (isWhiteSpace c)) (nonSpaceRun s) = true.
Proof.
  induction s as [|c s (rest & E & H)]; simpl.
  - now exists [].
  - destruct (isWhiteSpace c) eqn:Ec.
    + now exists (c :: s).
    + exists rest. simpl. rewrite Ec, H. split; [now rewrite <- E | reflexivity].
Qed.

Lemma matchUid_some (s u : jsstring) :
  matchUid s = Some u ->
  u <> []
  /\ forallb (fun c => negb (isWhiteSpace c)) u = true
  /\ includes (lit "uid=" ++ u) s = true.
Proof.
  induction s as [|c s IH]; [discriminate|].
  intros H.
  assert (Hlater : matchUid s = Some u ->
                   u <> []
                   /\ forallb (fun c => negb (isWhiteSpace c)) u = true
                   /\ includes (lit "uid=" ++ u) (c :: s) = true).
  { intros H'. destruct (IH H') as (H1 & H2 & H3).
    split; [exact H1|]. split; [exact H2|].
    change (includes (lit "uid=" ++ u) (c :: s))
      with (startsWith (lit "uid=" ++ u) (c :: s) || includes (lit "uid=" ++ u) s).
    rewrite H3. apply orb_true_r. }
  cbn [matchUid] in H.
  destruct (startsWith (lit "uid=") (c :: s)) eqn:Es; [|now apply Hlater].
  destruct (nonSpaceRun (skipn 4 (c :: s))) as [|d run] eqn:Er; [now apply Hlater|].
  injection H as <-.
  destruct (startsWith_inv _ _ Es) as [rest E].
  destruct (nonSpaceRun_prefix rest) as (rest' & E' & Hw).
  assert (Hskip : skipn 4 (c :: s) = rest) by (rewrite E; reflexivity).
  rewrite Hskip in Er. rewrite Er in E', Hw.
  split; [discriminate|]. split; [exact Hw|].
  rewrite E, E'.
  change (includes (lit "uid=" ++ d :: run) (lit "uid=" ++ (d :: run) ++ rest'))
    with (includes (lit "uid=" ++ d :: run) ([] ++ lit "uid=" ++ (d :: run) ++ rest')).
  rewrite (app_assoc (lit "uid=") (d :: run) rest').
  apply includes_intro.
Qed.

Lemma matchUid_none (s : jsstring) :
  includes (lit "uid=") s = false -> matchUid s = None.
Proof.
  induction s as [|c s IH]; [reflexivity|].
  intros H. destruct (includes_false_tail _ _ _ H) as [Hs Hi].
  cbn [matchUid]. rewrite Hs. now apply IH.
Qed.

Section WithRuntime.
Context {rt : Runtime}.

(** *** Close buttons *)

Lemma scanCloseTexts_spec (patterns : list jsstring) (u line l : jsstring)
    (btns : list CloseButton) :
  scanCloseTexts patterns u line l btns
  = btns ++ (if existsb (fun closeText => includes closeText l) patterns
                && (includes (lit "button") l || includes (lit "link") l)
             then [{| uid := u; text := trim line |}] else []).
Proof.
  induction patterns as [|c patterns IH]; simpl.
  - now rewrite app_nil_r.
  - destruct (includes c l); simpl.
    + destruct (includes (lit "button") l || includes (lit "link") l);
        [reflexivity|].
      rewrite IH. now rewrite andb_false_r.
    + exact IH.
Qed.

Lemma scanLine_buttons (acc : Found) (line : jsstring) :
  closeButtons (scanLine acc line) = closeButtons acc ++ lineButtons line.
Proof.
  unfold scanLine, lineButtons. cbn [closeButtons].
  destruct (matchUid line) as [u|]; [|now rewrite app_nil_r].
  apply scanCloseTexts_spec.
Qed.

Lemma scanLines_buttons (lines : list jsstring) :
  closeButtons (scanLines lines) = flat_map lineButtons lines.
Proof.
  unfold scanLines.
  change (flat_map lineButtons lines)
    with (closeButtons {| overlayElements := []; closeButtons := [] |}
          ++ flat_map lineButtons lines).
  generalize {| overlayElements := []; closeButtons := [] |} as acc.
  induction lines as [|line lines IH]; intros acc; simpl.
  - now rewrite app_nil_r.
  - now rewrite IH, scanLine_buttons, <- app_assoc.
Qed.

Lemma lineButtons_uid (line : jsstring) (b : CloseButton) :
  In b (lineButtons line) ->
  uid b <> []
  /\ forallb (fun c => negb (isWhiteSpace c)) (uid b) = true
  /\ includes (lit "uid=" ++ uid b) line = true
  /\ text b = trim line
  /\ (includes (lit "button") (toLowerCase line) = true
      \/ includes (lit "link") (toLowerCase line) = true).
Proof.
  unfold lineButtons. destruct (matchUid line) as [u|] eqn:Eu; [|intros []].
  destruct (existsb _ _); [|intros []].
  destruct (includes (lit "button") (toLowerCase line)) eqn:Eb;
    [|destruct (includes (lit "link") (toLowerCase line)) eqn:El; [|intros []]];
    (intros [<- | []]; cbn [uid text];
     destruct (matchUid_some _ _ Eu) as (H1 & H2 & H3);
     split; [exact H1|]; split; [exact H2|]; split; [exact H3|];
     split; [reflexivity | tauto]).
Qed.

(** X5.  The close buttons that [detectBlockingOverlays] suggests.  Each
    line of the snapshot gives at most one; each one carries a uid that is
    not empty, holds no white space and stands behind [uid=] in a line of
    the snapshot that, in lower case, names a button or a link, and its
    text is that line, trimmed; and when no line contains [uid=], nothing
    is suggested. *)
Theorem close_buttons_suggested (snapshot : jsstring) :
  let lines := split newline snapshot in
  let buttons := closeButtons (scanLines lines) in
  length buttons <= length lines
  /\ Forall (fun b =>
               uid b <> []
               /\ forallb (fun c => negb (isWhiteSpace c)) (uid b) = true
               /\ exists line,
                    In line lines
                    /\ includes (lit "uid=" ++ uid b) line = true
                    /\ text b = trim line
                    /\ (includes (lit "button") (toLowerCase line) = true
                        \/ includes (lit "link") (toLowerCase line) = true))
       buttons
  /\ suggestedAction (detectBlockingOverlays snapshot)
     = (if Nat.ltb 0 (length buttons)
        then lit "Found potential close buttons: "
             ++ join (lit ", ") (map (fun b => lit "uid=" ++ uid b) buttons)
        else [])
  /\ ((forall line, In line lines -> includes (lit "uid=") line = false) ->
      suggestedAction (detectBlockingOverlays snapshot) = []).
Proof.
  cbv zeta. rewrite scanLines_buttons.
  split; [|split; [|split]].
  - induction (split newline snapshot) as [|line lines IH]; simpl; [lia|].
    rewrite length_app.
    assert (L : length (lineButtons line) <= 1).
    { unfold lineButtons. destruct (matchUid line); [|simpl; lia].
      destruct (_ && _); simpl; lia. }
    lia.
  - apply Forall_forall. intros b Hb. apply in_flat_map in Hb.
    destruct Hb as (line & Hl & Hb).
    destruct (lineButtons_uid line b Hb) as (H1 & H2 & H3 & H4 & H5).
    split; [exact H1|]. split; [exact H2|]. now exists line.
  - unfold detectBlockingOverlays. cbn [suggestedAction].
    now rewrite scanLines_buttons.
  - intros H. unfold detectBlockingOverlays. cbn [suggestedAction].
    rewrite scanLines_buttons.
    assert (E : flat_map lineButtons (split newline snapshot) = []).
    { induction (split newline snapshot) as [|line lines IH]; [reflexivity|].
      simpl. rewrite IH by (intros l Hl; apply H; now right).
      unfold lineButtons. rewrite (matchUid_none line) by (apply H; now left).
      reflexivity. }
    now rewrite E.
Qed.

(** *** Letter case *)

Lemma lowerFrom_ascii (q before rest : jsstring) :
  isAscii q = true ->
  lowerFrom before (q ++ rest)
  = lowerAsciiString q ++ lowerFrom (before ++ q) rest.
Proof.
  revert before. induction q as [|c q IH]; intros before H; simpl.
  - now rewrite app_nil_r.
  - simpl in H. apply andb_true_iff in H. destruct H as [Hc Hq].
    rewrite Hc. simpl. rewrite (IH (before ++ [c]) Hq), <- app_assoc.
    reflexivity.
Qed.

Lemma includes_lowered (q s : jsstring) :
  isAscii q = true -> includes q s = true ->
  includes (lowerAsciiString q) (toLowerCase s) = true.
Proof.
  intros Hq H. destruct (includes_inv _ _ H) as (a & rest & ->).
  unfold toLowerCase. destruct (lowerFrom_app a [] (q ++ rest)) as [x ->].
  rewrite lowerFrom_ascii by exact Hq. apply includes_intro.
Qed.

(** X6.  The heuristic ignores the case of ASCII letters.  A line that
    contains, in any spelling of upper and lower case, one of the four
    markers or one of the three role names between two spaces makes the
    snapshot one with an overlay. *)
Theorem overlay_detection_ignores_case (snapshot : jsstring) :
  forall line q,
    In line (split newline snapshot) ->
    isAscii q = true -> In (lowerAsciiString q) overlayPatterns ->
    includes q line = true ->
    hasOverlay (detectBlockingOverlays snapshot) = true.
Proof.
  intros line q Hl Hq Hp H. rewrite hasOverlay_lines.
  apply existsb_exists. exists line. split; [exact Hl|].
  pose proof (includes_lowered _ _ Hq H) as L.
  unfold overlayLine, roleHit, overlayRoles. cbn [existsb].
  unfold overlayPatterns, overlayMarkers, overlayRoles in Hp.
  cbn [map app] in Hp.
  destruct Hp as [E | [E | [E | [E | [E | [E | [E | []]]]]]]];
    rewrite <- E in L; rewrite L;
    repeat rewrite ?orb_true_r, ?orb_true_l; reflexivity.
Qed.

End WithRuntime.

Lemma overlay_detection_ignores_case_witness :
  @hasOverlay (@detectBlockingOverlays plainRuntime shoutingSnapshot) = true.
Proof.
  apply (@overlay_detection_ignores_case plainRuntime shoutingSnapshot
           (lit "uid=4_0 DIALOG Subscribe") (lit " DIALOG ")).
  - now left.
  - reflexivity.
  - do 4 right. now left.
  - reflexivity.
Defined.

Lemma close_buttons_suggested_witness :
  @suggestedAction (@detectBlockingOverlays plainRuntime (lit "heading Welcome")) = []
  /\ @suggestedAction (@detectBlockingOverlays plainRuntime dialogSnapshot)
     = lit "Found potential close buttons: uid=1_1".
Proof.
  pose proof (@close_buttons_suggested plainRuntime (lit "heading Welcome"))
    as (_ & _ & _ & Hnone).
  pose proof (@close_buttons_suggested plainRuntime dialogSnapshot)
    as (_ & _ & Hsome & _).
  split.
  - apply Hnone. intros line [<- | []]. reflexivity.
  - rewrite Hsome. reflexivity.
Defined.

End SnapshotFacts.

(** ** Tool responses: several parts *)

Module ChannelFacts.
Import Js JsFacts Response ResponseFacts.

Lemma fold_plain (items : list ContentItem) :
  forallb plain items = true ->
  forall acc,
    fold_left processItem items acc
    = {| textOutput := textOutput acc ++ concat (map narrative items);
         foundSnapshot := foundSnapshot acc |}.
Proof.
  induction items as [|item items IH]; intros H acc.
  - destruct acc. cbn. now rewrite app_nil_r.
  - cbn [forallb] in H. apply andb_true_iff in H. destruct H as [Hi H].
    cbn [fold_left map concat]. rewrite (IH H).
    destruct item as [t|u|]; cbn [processItem narrative plain] in *.
    + apply andb_true_iff in Hi. destruct Hi as [Hm Hu].
      apply negb_true_iff in Hm. apply negb_true_iff in Hu.
      destruct t as [|c t]; cbn [nonEmpty].
      * reflexivity.
      * rewrite Hm, Hu. cbn [textOutput foundSnapshot].
        now rewrite <- app_assoc.
    + cbn [textOutput foundSnapshot]. now rewrite <- !app_assoc.
    + reflexivity.
Qed.

(** X7.  A response none of whose parts carries the marker or [uid=] has
    no snapshot, and its text is made of its parts in their order, put
    together without anything between them and trimmed as a whole: the
    text of a text part, [[Resource: <uri>]] and a line feed for a
    resource, nothing for a part of another type. *)
Theorem plain_parts_concatenate (items : list ContentItem) :
  forallb plain items = true ->
  processToolResponse items
  = {| text := trim (concat (map narrative items)); snapshot := [] |}.
Proof.
  intros H. unfold processToolResponse. rewrite (fold_plain items H).
  reflexivity.
Qed.

Lemma plain_parts_concatenate_witness :
  processToolResponse
    [TextItem (lit "Clicked "); OtherItem; ResourceItem (lit "file:///a");
     TextItem (lit "ok ")]
  = {| text := lit "Clicked [Resource: file:///a]" ++ newline ++ lit "ok";
       snapshot := [] |}.
Proof.
  rewrite (plain_parts_concatenate
             [TextItem (lit "Clicked "); OtherItem; ResourceItem (lit "file:///a");
              TextItem (lit "ok ")] eq_refl).
  reflexivity.
Defined.

(** X8.  What a part with the marker does to the channels collected so far,
    when the first marker stands after [pre] and the marker does not occur
    again in [post], the rest of the part.  The text before the marker is
    added to the narrative channel, trimmed and closed by a line feed,
    unless it is blank.  The snapshot collected so far is replaced by
    [post], trimmed, and kept only when [post] is empty; so of two parts
    with a snapshot the later one wins when it carries the marker, while a
    part with [uid=] and no marker is added to what is there. *)
Theorem marker_part_replaces_snapshot :
  (forall acc pre post,
      firstAt marker pre = true -> includes marker post = false ->
      processItem acc (TextItem (pre ++ marker ++ post))
      = {| textOutput :=
             if nonEmpty (trim pre)
             then textOutput acc ++ trim pre ++ newline
             else textOutput acc;
           foundSnapshot :=
             if nonEmpty post then trim post else foundSnapshot acc |})
  /\ (forall earlier pre post,
         includes marker earlier = false ->
         includes (lit "uid=") earlier = true ->
         firstAt marker pre = true -> includes marker post = false ->
         snapshot (processToolResponse
                     [TextItem earlier; TextItem (pre ++ marker ++ post)])
         = (if nonEmpty post then trim post else trim earlier)
         /\ snapshot (processToolResponse
                        [TextItem (pre ++ marker ++ post); TextItem earlier])
            = trim ((if nonEmpty post then trim post else []) ++ earlier)).
Proof.
  assert (Hone : forall acc pre post,
             firstAt marker pre = true -> includes marker post = false ->
             processItem acc (TextItem (pre ++ marker ++ post))
             = {| textOutput :=
                    if nonEmpty (trim pre)
                    then textOutput acc ++ trim pre ++ newline
                    else textOutput acc;
                  foundSnapshot :=
                    if nonEmpty post then trim post else foundSnapshot acc |}).
  { intros acc pre post Hpre Hpost. unfold processItem.
    rewrite nonEmpty_app_marker, includes_intro.
    rewrite (split_first _ _ post marker_nonempty Hpre).
    rewrite (split_none _ _ marker_nonempty Hpost).
    reflexivity. }
  assert (Huid : forall acc t,
             includes marker t = false -> includes (lit "uid=") t = true ->
             processItem acc (TextItem t)
             = {| textOutput := textOutput acc;
                  foundSnapshot := foundSnapshot acc ++ t |}).
  { intros acc t Hm Hu. unfold processItem. rewrite Hm, Hu.
    destruct t; [discriminate Hu | reflexivity]. }
  split; [exact Hone|].
  intros earlier pre post Hm Hu Hpre Hpost.
  unfold processToolResponse. cbn [fold_left].
  split.
  - rewrite (Huid _ _ Hm Hu), (Hone _ _ _ Hpre Hpost).
    cbn [snapshot foundSnapshot app].
    destruct (nonEmpty post); [apply trim_idem | reflexivity].
  - rewrite (Hone _ _ _ Hpre Hpost), (Huid _ _ Hm Hu).
    cbn [snapshot foundSnapshot].
    reflexivity.
Qed.

Lemma marker_part_replaces_snapshot_witness :
  snapshot (processToolResponse
              [TextItem (lit "uid=1 old"); TextItem (marker ++ lit " uid=2 new")])
  = lit "uid=2 new"
  /\ snapshot (processToolResponse
                 [TextItem (lit "uid=1 old"); TextItem (lit "Done" ++ marker)])
     = lit "uid=1 old".
Proof.
  pose proof marker_part_replaces_snapshot as [_ Htwo].
  split.
  - exact (proj1 (Htwo (lit "uid=1 old") [] (lit " uid=2 new")
                    eq_refl eq_refl eq_refl eq_refl)).
  - exact (proj1 (Htwo (lit "uid=1 old") (lit "Done") []
                    eq_refl eq_refl eq_refl eq_refl)).
Defined.

End ChannelFacts.

(** ** One tool execution: what each kind of tool answers *)

Module ExecutionFacts.
Import Js JsFacts Response Agent AgentFacts.

Section WithWorld.
Context {rt : Runtime} (env : Env).
















End WithWorld.





End ExecutionFacts.

(** ** The task as a whole: connection, first message, errors, idle model *)

Module TaskFacts.
Import Js JsFacts Response Agent AgentFacts ExecutionFacts.

Lemma returns_bind_dep {A B} (Q : A -> Prop) (P : B -> Prop) (m : M A)
    (k : A -> M B) :
  returns Q m -> (forall a, Q a -> returns P (k a)) -> returns P (bind m k).
Proof.
  intros Hm Hk t b. unfold bind.
  destruct (result (m t)) as [a|e] eqn:E; cbn [result]; [|discriminate].
  apply (Hk a (Hm t a E)).
Qed.

Lemma returns_await {A} (P : A -> Prop) (e : Effect) (answer : nat -> Res A) :
  (forall t a, answer t = Ok a -> P a) -> returns P (await e answer).
Proof. intros H t a E. exact (H t a E). Qed.

Lemma returns_weaken {A} (P Q : A -> Prop) (m : M A) :
  (forall a, P a -> Q a) -> returns P m -> returns Q m.
Proof. intros H Hm t a E. apply H, (Hm t a E). Qed.

Section WithWorld.
Context {rt : Runtime} (env : Env).

(** *** Screenshots and the visual model *)

Lemma executeCall_plain (fnName : jsstring) (fnArgs : Args) (v : Vars) :
  str_eqb fnName (lit "delegate_to_visual_agent") = false ->
  emits scrollAtMost (executeCall env fnName fnArgs v).
Proof.
  intros H.
  unfold executeCall, toolBody, toolSwitch, fromTool, withHint, print, debug.
  rewrite H. cbv beta iota.
  repeat emits_step.
Qed.

Lemma executeCall_blind (fnName : jsstring) (fnArgs : Args) (v : Vars) :
  str_eqb fnName (lit "delegate_to_visual_agent") = false ->
  str_eqb fnName (lit "scroll_document") = false ->
  emits notVisualWork (executeCall env fnName fnArgs v).
Proof.
  intros H H'.
  unfold executeCall, toolBody, toolSwitch, fromTool, withHint, print, debug.
  rewrite H, H'. cbv beta iota.
  repeat emits_step.
Qed.

Lemma executeCalls_plain (calls : list FunctionCall) :
  forallb notDelegated calls = true ->
  forall v, emits scrollAtMost (executeCalls env calls v).
Proof.
  induction calls as [|call calls IH]; intros H v.
  - apply emits_ret.
  - cbn [forallb] in H. apply andb_true_iff in H. destruct H as [Hc H].
    cbn [executeCalls]. unfold print, debug.
    apply emits_bind; [apply emits_aborted|]. intros [|].
    + repeat emits_step.
    + destruct (name call) as [[|c n]|] eqn:En.
      * repeat emits_step. now apply IH.
      * apply emits_bind; [|intros v1; now apply IH].
        apply executeCall_plain.
        unfold notDelegated, nameIs in Hc. rewrite En in Hc.
        now apply negb_true_iff in Hc.
      * repeat emits_step. now apply IH.
Qed.

Lemma announce_plain (calls : list FunctionCall) :
  emits scrollAtMost (announce calls).
Proof.
  induction calls as [|call calls IH]; cbn [announce]; unfold print;
    repeat emits_step.
Qed.

Lemma onEvent_plain (event : StreamEvent) (acc : Collected) :
  emits scrollAtMost (onEvent event acc).
Proof.
  pose proof announce_plain as Ha. unfold onEvent, print.
  repeat first [apply Ha | emits_step].
Qed.

Lemma consume_plain (events : list StreamEvent) (failure : option jsstring) :
  forall acc, emits scrollAtMost (consume env events failure acc).
Proof.
  pose proof onEvent_plain as Ho.
  induction events as [|event events IH]; intros acc; cbn [consume];
    unfold debug; repeat first [apply Ho | apply IH | emits_step].
Qed.

Lemma modelTurn_plain (messageParts : list Part) :
  emits scrollAtMost (modelTurn env messageParts).
Proof.
  pose proof consume_plain as Hc. unfold modelTurn, print, debug.
  repeat first [apply Hc | emits_step].
Qed.

(** The calls that a turn collects are calls that the stream yielded. *)
Lemma announce_total (calls : list FunctionCall) : total (announce calls).
Proof.
  induction calls as [|call calls IH]; cbn [announce]; unfold print;
    repeat total_step.
Qed.

Lemma onEvent_calls (Q : FunctionCall -> Prop) (event : StreamEvent)
    (acc : Collected) :
  (forall calls, chunkCalls event = Some calls -> Forall Q calls) ->
  Forall Q (functionCalls acc) ->
  returns (fun acc' => Forall Q (functionCalls acc')) (onEvent event acc).
Proof.
  intros He Ha. unfold onEvent.
  destruct (isChunk event); [|now apply returns_ret].
  apply returns_bind. intros _.
  destruct (chunkCalls event) as [calls|].
  - apply returns_bind. intros _. apply returns_ret. cbn [functionCalls].
    apply Forall_app. split; [exact Ha | now apply He].
  - now apply returns_ret.
Qed.

Lemma consume_calls (Q : FunctionCall -> Prop) (events : list StreamEvent)
    (failure : option jsstring) :
  Forall (fun event => forall calls, chunkCalls event = Some calls -> Forall Q calls)
    events ->
  forall acc,
    Forall Q (functionCalls acc) ->
    returns (fun acc' => Forall Q (functionCalls acc'))
      (consume env events failure acc).
Proof.
  induction 1 as [|event events He _ IH]; intros acc Ha; cbn [consume].
  - apply returns_bind. intros _.
    destruct failure; [apply returns_throw | now apply returns_ret].
  - apply returns_bind. intros _. apply returns_bind. intros [|].
    + apply returns_bind. intros _. now apply returns_ret.
    + apply returns_bind_dep with (Q := fun acc' => Forall Q (functionCalls acc')).
      * now apply onEvent_calls.
      * exact IH.
Qed.

Lemma modelTurn_calls_streamed (Q : FunctionCall -> Prop) (messageParts : list Part) :
  (forall t events failure,
      sendMessageStream env t messageParts = Stream events failure ->
      Forall (fun event => forall calls, chunkCalls event = Some calls ->
                                         Forall Q calls) events) ->
  returns (fun turn => forall acc, turn = TurnDone acc -> Forall Q (functionCalls acc))
    (modelTurn env messageParts).
Proof.
  intros Hs. unfold modelTurn. apply returns_tryCatch.
  - apply returns_bind_dep
      with (Q := fun outcome => exists t, outcome = sendMessageStream env t messageParts).
    { apply returns_await. intros t a [= <-]. now exists t. }
    intros outcome [t ->].
    apply returns_bind_dep with (Q := fun acc' => Forall Q (functionCalls acc')).
    + destruct (sendMessageStream env t messageParts) as [e|events failure] eqn:E.
      * apply returns_throw.
      * apply consume_calls; [now apply (Hs t events failure) | constructor].
    + intros acc Ha. apply returns_bind. intros [|].
      * apply returns_bind. intros _. apply returns_bind. intros _.
        apply returns_ret. discriminate.
      * apply returns_ret. now intros acc' [= <-].
  - intros e. apply returns_bind. intros _. apply returns_bind. intros _.
    apply returns_bind. intros _. apply returns_ret. discriminate.
Qed.

(** *** The connection and the first message *)

(** X13.  A failed connection is fatal.  When [ensureConnection] throws,
    [runTask] returns [Error: Failed to connect to browser: <message>]
    after logging and showing it, and does nothing else: no snapshot is
    taken and no model is called. *)
Theorem connection_failure_is_fatal :
  forall prompt t e,
    ensureConnection env t = Throw e ->
    runTask env prompt t
    = {| result := Ok (VString (connectionError e));
         endTick := S t;
         effects := [(t, Debug DConnecting); (t, EnsureConnection);
                     (S t, Debug (DMessage (connectionError e)));
                     (S t, Print (NMessage (connectionError e)))] |}.
Proof.
  intros prompt t e H. unfold runTask, debug. rewrite emit_then.
  match goal with
  | |- context [bind (tryCatch ?m ?h) ?k t] =>
      assert (Hm : m t = {| result := Throw e; endTick := S t;
                            effects := [(t, EnsureConnection)] |})
        by (rewrite await_then; now rewrite H);
      assert (Hc : tryCatch m h t
                   = {| result := Ok (Some (connectionError e)); endTick := S t;
                        effects := [(t, EnsureConnection);
                                    (S t, Debug (DMessage (connectionError e)));
                                    (S t, Print (NMessage (connectionError e)))] |})
        by (unfold tryCatch; rewrite Hm; reflexivity);
      assert (Hr : result (tryCatch m h t) = Ok (Some (connectionError e)))
        by now rewrite Hc
  end.
  rewrite (bind_ok _ _ _ _ Hr), Hc. reflexivity.
Qed.

(** The first message, when the snapshot can be taken. *)
Lemma initialInput_snapshot (prompt : jsstring) (t : nat)
    (content : option (list ContentItem)) :
  getMcpClient env t = Ok tt ->
  callTool env (S t) (lit "take_snapshot") snapshotArgs = Ok content ->
  let snap := snapshotText (rawContent content) in
  let check := Overlay.detectBlockingOverlays snap in
  result (initialInput env prompt t)
  = Ok (taskPart prompt
        :: (if nonEmpty snap
            then (if Overlay.hasOverlay check
                  then [TextPart (overlayWarning check)] else [])
                 ++ [treePart snap]
            else [])).
Proof.
  intros Hg Hc snap check. unfold initialInput.
  match goal with
  | |- result (tryCatch ?m ?h t) = Ok ?x =>
      assert (Hm : result (m t) = Ok x)
  end.
  { rewrite await_then, Hg. cbn [result].
    change [(lit "verbose", VBool false)] with snapshotArgs.
    rewrite await_then, Hc. cbn [result].
    destruct content as [content|]; [|reflexivity].
    change (concat (map itemText (filter isTextItem content)))
      with (snapshotText (rawContent (Some content))).
    fold snap. fold check.
    destruct (nonEmpty snap); [|reflexivity].
    destruct (Overlay.hasOverlay check); reflexivity. }
  now rewrite (tryCatch_ok _ _ _ _ Hm).
Qed.

Lemma initialInput_failed (prompt : jsstring) (t : nat) (e : jsstring) :
  getMcpClient env t = Throw e
  \/ (getMcpClient env t = Ok tt
      /\ callTool env (S t) (lit "take_snapshot") snapshotArgs = Throw e) ->
  result (initialInput env prompt t) = Ok [taskPart prompt]
  /\ In (Debug (DSnapshotFailed e)) (map snd (effects (initialInput env prompt t))).
Proof.
  intros H. unfold initialInput.
  match goal with
  | |- result (tryCatch ?m ?h t) = _ /\ _ =>
      assert (Hm : result (m t) = Throw e)
  end.
  { destruct H as [Hg | [Hg Hc]].
    - rewrite await_then. now rewrite Hg.
    - rewrite await_then, Hg. cbn [result].
      change [(lit "verbose", VBool false)] with snapshotArgs.
      rewrite await_then. now rewrite Hc. }
  rewrite (tryCatch_throw _ _ _ _ Hm). cbn [result effects]. split; [reflexivity|].
  rewrite map_app. apply in_or_app. right. now left.
Qed.

(** X14.  The first message to the model.  It begins with [Task: <prompt>]
    and has at most two parts more.  When the protocol client or the
    snapshot cannot be had, the failure is logged and the message is the
    task alone; so it is when the snapshot has no text.  Otherwise the
    snapshot follows between its tags, as the last part, with the warning
    of a blocking overlay before it exactly when the heuristic finds
    one. *)
Theorem first_message :
  (forall prompt t,
      exists rest,
        result (initialInput env prompt t) = Ok (taskPart prompt :: rest)
        /\ length rest <= 2)
  /\ (forall prompt t e,
         getMcpClient env t = Throw e
         \/ (getMcpClient env t = Ok tt
             /\ callTool env (S t) (lit "take_snapshot") snapshotArgs = Throw e) ->
         result (initialInput env prompt t) = Ok [taskPart prompt]
         /\ In (Debug (DSnapshotFailed e))
              (map snd (effects (initialInput env prompt t))))
  /\ (forall prompt t content,
         getMcpClient env t = Ok tt ->
         callTool env (S t) (lit "take_snapshot") snapshotArgs = Ok content ->
         let snap := snapshotText (rawContent content) in
         let check := Overlay.detectBlockingOverlays snap in
         result (initialInput env prompt t)
         = Ok (taskPart prompt
               :: (if nonEmpty snap
                   then (if Overlay.hasOverlay check
                         then [TextPart (overlayWarning check)] else [])
                        ++ [treePart snap]
                   else []))).
Proof.
  split; [|split; [exact initialInput_failed | exact initialInput_snapshot]].
  intros prompt t.
  destruct (getMcpClient env t) as [[]|e] eqn:Hg.
  - destruct (callTool env (S t) (lit "take_snapshot") snapshotArgs)
      as [content|e] eqn:Hc.
    + rewrite (initialInput_snapshot prompt t content Hg Hc). cbv zeta.
      eexists. split; [reflexivity|].
      destruct (nonEmpty _); [|cbn; lia].
      destruct (Overlay.hasOverlay _); cbn; lia.
    + destruct (initialInput_failed prompt t e (or_intror (conj Hg Hc))) as [-> _].
      exists []. split; [reflexivity | cbn; lia].
  - destruct (initialInput_failed prompt t e (or_introl Hg)) as [-> _].
    exists []. split; [reflexivity | cbn; lia].
Qed.

(** *** Errors of the model call *)

(** A run of [runTask] whose connection succeeds, taken apart. *)
Lemma runTask_connected (prompt : jsstring) (t : nat) (parts : list Part) :
  ensureConnection env t = Ok tt ->
  result (initialInput env prompt (S (S (S t)))) = Ok parts ->
  let input := initialInput env prompt (S (S (S t))) in
  let loop := taskLoop env MAX_ITERATIONS (initialVars parts) (endTick input) in
  runTask env prompt t
  = {| result := result loop;
       endTick := endTick loop;
       effects := [(t, Debug DConnecting); (t, EnsureConnection);
                   (S t, UpdateBorderOverlay true false);
                   (S (S t), Debug DConnected);
                   (S (S t), UpdateBorderOverlay true false)]
                  ++ effects input ++ effects loop |}.
Proof.
  intros Hc Hparts input loop. unfold runTask, debug. rewrite emit_then.
  match goal with
  | |- context [bind (tryCatch ?m ?h) ?k t] =>
      assert (Hconn : tryCatch m h t
                      = {| result := Ok None; endTick := S (S t);
                           effects := [(t, EnsureConnection);
                                       (S t, UpdateBorderOverlay true false);
                                       (S (S t), Debug DConnected)] |})
        by (unfold tryCatch, bind, await, updateBorderOverlay, emit, ret;
            cbn [result endTick effects]; rewrite Hc; reflexivity);
      assert (Hr : result (tryCatch m h t) = Ok None) by now rewrite Hconn
  end.
  rewrite (bind_ok _ _ _ _ Hr), Hconn. cbn [result endTick effects].
  unfold updateBorderOverlay. rewrite await_then. cbn [result endTick effects].
  rewrite (bind_ok _ _ _ _ Hparts). reflexivity.
Qed.

Lemma onEvent_total (event : StreamEvent) (acc : Collected) :
  total (onEvent event acc).
Proof.
  pose proof announce_total as Ha. unfold onEvent, print.
  repeat first [apply Ha | total_step].
Qed.

Lemma never_aborted (t : nat) : abortAt env = None -> isAborted env t = false.
Proof. intros H. unfold isAborted. now rewrite H. Qed.

Lemma consume_fails (events : list StreamEvent) (e : jsstring) :
  abortAt env = None ->
  forall acc t, result (consume env events (Some e) acc t) = Throw e.
Proof.
  intros Hn. induction events as [|event events IH]; intros acc t; cbn [consume].
  - reflexivity.
  - rewrite pull_then, aborted_then, (never_aborted _ Hn).
    destruct (onEvent_total event acc (S t)) as [acc1 H1].
    rewrite (bind_ok _ _ _ _ H1). cbn [result]. apply IH.
Qed.

Lemma modelTurn_stream_failed (messageParts : list Part) (t : nat)
    (events : list StreamEvent) (e : jsstring) :
  abortAt env = None ->
  sendMessageStream env t messageParts = Stream events (Some e) ->
  result (modelTurn env messageParts t) = Ok (TurnFailed (modelError e)).
Proof.
  intros Hn Hs. unfold modelTurn.
  match goal with
  | |- result (tryCatch ?m ?h t) = _ => assert (Hm : result (m t) = Throw e)
  end.
  { rewrite await_then. cbn [result]. rewrite Hs.
    now rewrite (bind_throw _ _ _ _ (consume_fails events e Hn _ (S t))). }
  rewrite (tryCatch_throw _ _ _ _ Hm). cbn [result]. unfold debug, print.
  destruct (includes emptyStreamText (lit "Error calling model: " ++ e));
    reflexivity.
Qed.

(** X15.  An error of the model ends the task, whichever it is.  Absent
    cancellation, when the call of the model throws, or when the stream
    breaks after it has yielded events, the pass returns [Error calling
    model: <message>] and so does the loop; the model was called once, and
    none of the function calls that the stream yielded before it broke is
    executed. *)
Theorem model_error_ends_task :
  abortAt env = None ->
  forall v t e,
    sendMessageStream env t (currentInputParts v) = SendThrows e
    \/ (exists events,
          sendMessageStream env t (currentInputParts v) = Stream events (Some e)) ->
    result (iteration env v t) = Ok (Return (VString (modelError e)))
    /\ only isExecution (effects (iteration env v t)) = []
    /\ count isModelCall (effects (iteration env v t)) = 1
    /\ forall todo,
         result (taskLoop env (S todo) v t) = Ok (VString (modelError e)).
Proof.
  intros Hn v t e Hs.
  pose proof (never_aborted t Hn) as Ea.
  assert (Hturn : result (modelTurn env (currentInputParts v) t)
                  = Ok (TurnFailed (modelError e))).
  { destruct Hs as [Hs | [events Hs]].
    - exact (modelTurn_failed env _ _ _ Hs).
    - exact (modelTurn_stream_failed _ _ _ _ Hn Hs). }
  destruct (iteration_live env v t Ea) as (turn & Hturn' & Hr & _ & Hf).
  cbv zeta in Hr, Hf. rewrite Hturn in Hturn'. injection Hturn' as <-.
  cbn [ret result effects] in Hr, Hf. rewrite app_nil_r in Hf.
  split; [exact Hr|]. split; [|split].
  - rewrite Hf, only_cons. cbn [snd isExecution app].
    apply only_none.
    apply (modelTurn_emits env (fun x => isExecution (snd x) = false)).
    + intros t' x _ H. exact H.
    + intros t' parts _. reflexivity.
    + exact Ea.
  - pose proof (iteration_calls env v t) as Hle.
    destruct (modelTurn_head env (currentInputParts v) t) as [rest Hh].
    rewrite Hf, Hh in Hle |- *. unfold count in *. cbn in *. lia.
  - intros todo. cbn [taskLoop]. now rewrite (bind_ok _ _ _ _ Hr).
Qed.

(** *** A model that calls no tool *)

Lemma consume_ends (events : list StreamEvent) :
  forall acc, total (consume env events None acc).
Proof.
  pose proof onEvent_total as Ho.
  induction events as [|event events IH]; intros acc; cbn [consume];
    unfold debug; repeat first [apply Ho | apply IH | total_step].
Qed.

Lemma modelTurn_idle (messageParts : list Part) (t : nat)
    (events : list StreamEvent) :
  abortAt env = None ->
  sendMessageStream env t messageParts = Stream events None ->
  Forall callFree events ->
  exists acc,
    result (modelTurn env messageParts t) = Ok (TurnDone acc)
    /\ functionCalls acc = [].
Proof.
  intros Hn Hs He.
  destruct (consume_ends events {| functionCalls := []; textResponse := [] |} (S t))
    as [acc Hacc].
  assert (Hc : Forall (fun _ : FunctionCall => False) (functionCalls acc)).
  { refine (consume_calls (fun _ => False) events None _ _ _ (S t) acc Hacc).
    - eapply Forall_impl; [|exact He]. intros event H calls Hcalls.
      rewrite (H calls Hcalls). constructor.
    - constructor. }
  exists acc. split.
  - unfold modelTurn.
    match goal with
    | |- result (tryCatch ?m ?h t) = _ =>
        assert (Hm : result (m t) = Ok (TurnDone acc))
    end.
    { rewrite await_then. cbn [result]. rewrite Hs.
      rewrite (bind_ok _ _ _ _ Hacc). cbn [result].
      now rewrite aborted_then, (never_aborted _ Hn). }
    now rewrite (tryCatch_ok _ _ _ _ Hm).
  - destruct (functionCalls acc) as [|c l]; [reflexivity|].
    now inversion Hc.
Qed.

Section Idle.

Hypothesis never_cancelled : abortAt env = None.

(** The model answers every call without a function call and without
    failing. *)
Hypothesis never_calls :
  forall t parts,
    exists events,
      sendMessageStream env t parts = Stream events None /\ Forall callFree events.

Lemma iteration_idle (v : Vars) (t : nat) :
  result (iteration env v t)
  = Ok (Continue (nextIteration (setInput [TextPart completionPrompt] v)))
  /\ count isModelCall (effects (iteration env v t)) = 1.
Proof.
  pose proof (never_aborted t never_cancelled) as Ea.
  destruct (never_calls t (currentInputParts v)) as (events & Hs & He).
  destruct (modelTurn_idle _ _ _ never_cancelled Hs He) as (acc & Hturn & Hacc).
  destruct (iteration_live env v t Ea) as (turn & Hturn' & Hr & _ & Hf).
  cbv zeta in Hr, Hf. rewrite Hturn in Hturn'. injection Hturn' as <-.
  split.
  - rewrite Hr. unfold afterModel. now rewrite Hacc.
  - pose proof (iteration_calls env v t) as Hle.
    destruct (modelTurn_head env (currentInputParts v) t) as [rest Hh].
    rewrite Hf, Hh in Hle |- *. unfold count in *. cbn in *. lia.
Qed.

Lemma taskLoop_idle (todo : nat) :
  forall v t,
    result (taskLoop env todo v t)
    = Ok (orElse (taskSummary v) (VString (lit "Task finished")))
    /\ count isModelCall (effects (taskLoop env todo v t)) = todo.
Proof.
  induction todo as [|todo IH]; intros v t; cbn [taskLoop].
  - split; reflexivity.
  - destruct (iteration_idle v t) as [Hr Hc].
    rewrite (bind_ok _ _ _ _ Hr). cbn [result effects].
    destruct (IH (nextIteration (setInput [TextPart completionPrompt] v))
                (endTick (iteration env v t))) as [Hr' Hc'].
    split; [exact Hr'|]. rewrite count_app, Hc, Hc'. reflexivity.
Qed.

(** X16.  A model that never calls a tool cannot keep the task going.  When
    every call of the model ends without a function call, each pass
    answers with the reminder to call [complete_task], which is all of the
    next input; absent cancellation the model is called 20 times, no more
    and no less, and [runTask] returns ['Task finished']. *)
Theorem idle_model_exhausts_loop :
  (forall v t,
      result (iteration env v t)
      = Ok (Continue (nextIteration (setInput [TextPart completionPrompt] v))))
  /\ (forall prompt t,
         ensureConnection env t = Ok tt ->
         result (runTask env prompt t) = Ok (VString (lit "Task finished"))
         /\ count isModelCall (effects (runTask env prompt t)) = 20).
Proof.
  split; [intros v t; apply iteration_idle|].
  intros prompt t Hc.
  destruct (initialInput_total env prompt (S (S (S t)))) as [parts Hparts].
  rewrite (runTask_connected prompt t parts Hc Hparts). cbn [result effects].
  destruct (taskLoop_idle MAX_ITERATIONS (initialVars parts)
              (endTick (initialInput env prompt (S (S (S t)))))) as [Hr Hn].
  split; [exact Hr|].
  assert (Hinput : Forall notModelCall
                     (effects (initialInput env prompt (S (S (S t)))))).
  { generalize (S (S (S t))).
    match goal with
    | |- forall t0, Forall _ (effects (?m t0)) => change (emits notModelCall m)
    end.
    unfold initialInput, debug. repeat emits_step. }
  rewrite !count_app, Hn, (count_none _ _ Hinput). reflexivity.
Qed.

End Idle.

(** *** What the task returns *)

Lemma truthy_nonempty (msg : jsstring) : msg <> [] -> truthy (VString msg) = true.
Proof. destruct msg; [congruence | reflexivity]. Qed.

Lemma modelTurn_message (messageParts : list Part) :
  returns (fun turn => forall msg, turn = TurnFailed msg -> msg <> [])
    (modelTurn env messageParts).
Proof.
  unfold modelTurn. apply returns_tryCatch.
  - apply returns_bind. intros outcome. apply returns_bind. intros acc.
    apply returns_bind. intros [|].
    + apply returns_bind. intros _. apply returns_bind. intros _.
      apply returns_ret. discriminate.
    + apply returns_ret. discriminate.
  - intros e. apply returns_bind. intros _. apply returns_bind. intros _.
    apply returns_bind. intros _. apply returns_ret.
    intros msg [= <-]. discriminate.
Qed.

Lemma afterModel_goes_on (v : Vars) (acc : Collected) :
  returns (fun f => forall r, f <> Return r) (afterModel env v acc).
Proof.
  unfold afterModel. destruct (Nat.ltb 0 (length (functionCalls acc))).
  - apply returns_bind. intros v1. destruct (taskCompleted v1).
    + apply returns_bind. intros _. apply returns_ret. discriminate.
    + apply returns_ret. discriminate.
  - apply returns_bind. intros _. apply returns_bind. intros _.
    apply returns_ret. discriminate.
Qed.

Lemma iteration_returns (v : Vars) :
  returns (fun f => forall r, f = Return r -> truthy r = true) (iteration env v).
Proof.
  unfold iteration. apply returns_bind. intros [|].
  - apply returns_bind. intros _. apply returns_bind. intros _.
    apply returns_ret. discriminate.
  - apply returns_bind. intros _.
    apply returns_bind_dep
      with (Q := fun turn => forall msg, turn = TurnFailed msg -> msg <> []);
      [apply modelTurn_message|].
    intros [|msg|acc] Hturn.
    + apply returns_ret. discriminate.
    + apply returns_ret. intros r [= <-]. apply truthy_nonempty. now apply Hturn.
    + apply returns_weaken with (2 := afterModel_goes_on v acc).
      intros f Hf r ->. now destruct (Hf r).
Qed.

Lemma finish_truthy (v : Vars) : returns (fun r => truthy r = true) (finish v).
Proof.
  unfold finish. apply returns_bind. intros _. apply returns_ret.
  now apply truthy_orElse.
Qed.

Lemma taskLoop_truthy (todo : nat) :
  forall v, returns (fun r => truthy r = true) (taskLoop env todo v).
Proof.
  induction todo as [|todo IH]; intros v; cbn [taskLoop].
  - apply finish_truthy.
  - apply returns_bind_dep
      with (Q := fun f => forall r, f = Return r -> truthy r = true);
      [apply iteration_returns|].
    intros [v'|v'|r] Hf; [apply IH | apply finish_truthy|].
    apply returns_ret. now apply Hf.
Qed.

(** X17.  [runTask] never throws and never returns an empty answer.  What
    it returns is the message of a failed connection, the message of a
    failed call of the model, the summary of [complete_task], or ['Task
    finished']: in every case a value that JavaScript takes for true. *)
Theorem runTask_answer_never_empty :
  forall prompt t,
    exists r, result (runTask env prompt t) = Ok r /\ truthy r = true.
Proof.
  intros prompt t. destruct (runTask_total env prompt t) as [r Hr].
  exists r. split; [exact Hr|]. revert t r Hr.
  change (returns (fun r => truthy r = true) (runTask env prompt)).
  unfold runTask. apply returns_bind. intros _.
  apply returns_bind_dep
    with (Q := fun failed : option jsstring =>
                 forall msg, failed = Some msg -> msg <> []).
  - apply returns_tryCatch.
    + apply returns_bind. intros _. apply returns_bind. intros _.
      apply returns_bind. intros _. apply returns_ret. discriminate.
    + intros e. apply returns_bind. intros _. apply returns_bind. intros _.
      apply returns_ret. intros msg [= <-]. discriminate.
  - intros [msg|] Hf.
    + apply returns_ret. apply truthy_nonempty. now apply Hf.
    + apply returns_bind. intros _. apply returns_bind. intros parts.
      apply taskLoop_truthy.
Qed.

Section Undelegated.

Hypothesis never_delegated : neverDelegates env.

Lemma iteration_plain (v : Vars) : emits scrollAtMost (iteration env v).
Proof.
  intros t. unfold iteration. apply run_bind; [constructor|].
  intros b [= <-]. cbn [aborted endTick]. destruct (isAborted env t).
  - repeat constructor.
  - apply run_bind; [repeat constructor|]. intros _ _.
    cbn [debug emit endTick].
    apply run_bind; [apply modelTurn_plain|]. intros turn Hturn.
    destruct turn as [|msg|acc]; try apply emits_ret.
    pose proof (modelTurn_calls_streamed _ (currentInputParts v)
                  (fun t0 => never_delegated t0 (currentInputParts v))
                  t _ Hturn acc eq_refl) as Hc.
    unfold afterModel, print, debug.
    destruct (Nat.ltb 0 (length (functionCalls acc))).
    + apply emits_bind.
      * apply executeCalls_plain. apply forallb_forall.
        rewrite Forall_forall in Hc. exact Hc.
      * intros v1. repeat emits_step.
    + repeat emits_step.
Qed.

Lemma taskLoop_plain (todo : nat) :
  forall v, emits scrollAtMost (taskLoop env todo v).
Proof.
  induction todo as [|todo IH]; intros v; cbn [taskLoop].
  - unfold finish, debug. repeat emits_step.
  - apply emits_bind; [apply iteration_plain|].
    intros [v'|v'|r]; [apply IH | | apply emits_ret].
    unfold finish, debug. repeat emits_step.
Qed.

Lemma runTask_plain (prompt : jsstring) : emits scrollAtMost (runTask env prompt).
Proof.
  pose proof taskLoop_plain as Hl.
  unfold runTask, initialInput, updateBorderOverlay, print, debug.
  repeat first [apply Hl | emits_step].
Qed.

End Undelegated.

(** X18.  The orchestrator takes no screenshot and calls no visual model
    unless the model asks for the visual delegate.  The execution of a
    call under any other name brings no page to the front, takes no
    screenshot and calls no visual model, and of the five tools of the
    visual delegate it uses at most [scrollDocument], which the case
    [scroll_document] of the orchestrator calls too; under a name that is
    not [scroll_document] either, it uses none of the five.  In a run in
    which the model never asks for [delegate_to_visual_agent], the same
    holds of all that [runTask] does. *)
Theorem screenshots_only_when_delegated :
  (forall fnName fnArgs v t,
      str_eqb fnName (lit "delegate_to_visual_agent") = false ->
      Forall scrollAtMost (effects (executeCall env fnName fnArgs v t))
      /\ (str_eqb fnName (lit "scroll_document") = false ->
          Forall notVisualWork (effects (executeCall env fnName fnArgs v t))))
  /\ (neverDelegates env ->
      forall prompt t, Forall scrollAtMost (effects (runTask env prompt t))).
Proof.
  split.
  - intros fnName fnArgs v t H. split.
    + now apply executeCall_plain.
    + intros H'. now apply executeCall_blind.
  - intros H prompt. now apply runTask_plain.
Qed.

End WithWorld.

Lemma connection_failure_is_fatal_witness :
  result (@runTask plainRuntime unreachableWorld (lit "go") 0)
  = Ok (VString (lit "Error: Failed to connect to browser: spawn ENOENT"))
  /\ count isModelCall (effects (@runTask plainRuntime unreachableWorld (lit "go") 0))
     = 0.
Proof.
  rewrite (@connection_failure_is_fatal plainRuntime unreachableWorld
             (lit "go") 0 (lit "spawn ENOENT") eq_refl).
  split; reflexivity.
Defined.

Lemma first_message_witness :
  result (@initialInput plainRuntime offlineWorld (lit "go") 0)
  = Ok [taskPart (lit "go")]
  /\ length (match result (@initialInput plainRuntime dialogWorld (lit "go") 0) with
             | Ok parts => parts
             | Throw _ => []
             end) = 3
  /\ result (@initialInput plainRuntime idleWorld (lit "go") 0)
     = Ok [taskPart (lit "go")].
Proof.
  pose proof (@first_message plainRuntime offlineWorld) as (_ & Hfailed & _).
  pose proof (@first_message plainRuntime dialogWorld) as (_ & _ & Hdialog).
  pose proof (@first_message plainRuntime idleWorld) as (_ & _ & Hidle).
  split; [|split].
  - exact (proj1 (Hfailed (lit "go") 0 (lit "offline") (or_introl eq_refl))).
  - rewrite (Hdialog (lit "go") 0 (Some [TextItem Overlay.dialogSnapshot])
               eq_refl eq_refl).
    reflexivity.
  - exact (Hidle (lit "go") 0 (Some []) eq_refl eq_refl).
Defined.

Lemma model_error_ends_task_witness :
  result (@taskLoop plainRuntime brokenStreamWorld 20
            (initialVars [TextPart (lit "Task: go")]) 0)
  = Ok (VString (lit "Error calling model: socket hang up"))
  /\ only isExecution
       (effects (@iteration plainRuntime brokenStreamWorld
                   (initialVars [TextPart (lit "Task: go")]) 0)) = [].
Proof.
  destruct (@model_error_ends_task plainRuntime brokenStreamWorld eq_refl
              (initialVars [TextPart (lit "Task: go")]) 0 (lit "socket hang up")
              (or_intror (ex_intro _ [chunkOf completeThenNavigate] eq_refl)))
    as (_ & Hnone & _ & Hloop).
  split; [exact (Hloop 19) | exact Hnone].
Defined.

Lemma idle_model_exhausts_loop_witness :
  result (@runTask plainRuntime chattyWorld (lit "go") 0)
  = Ok (VString (lit "Task finished"))
  /\ count isModelCall (effects (@runTask plainRuntime chattyWorld (lit "go") 0)) = 20.
Proof.
  refine (proj2 (@idle_model_exhausts_loop plainRuntime chattyWorld eq_refl _)
            (lit "go") 0 eq_refl).
  intros t parts. eexists. split; [reflexivity|].
  constructor; [|constructor]. intros calls H. discriminate H.
Defined.

Lemma screenshots_only_when_delegated_witness :
  Forall scrollAtMost (effects (@runTask plainRuntime hastyWorld (lit "go") 0))
  /\ Forall notVisualWork
       (effects (@executeCall plainRuntime hastyWorld (lit "take_snapshot") []
                   (initialVars []) 0))
  /\ Forall scrollAtMost
       (effects (@executeCall plainRuntime hastyWorld (lit "scroll_document")
                   [(lit "direction", VString (lit "down"))] (initialVars []) 0))
  /\ only isVisualWork
       (effects (@executeCall plainRuntime hastyWorld (lit "scroll_document")
                   [(lit "direction", VString (lit "down"))] (initialVars []) 0))
     = [BrowserTool ScrollDocument [VString (lit "down"); VUndefined]].
Proof.
  assert (H : neverDelegates hastyWorld).
  { intros t parts events failure [= <- <-].
    constructor; [|constructor]. intros calls [= <-]. now repeat constructor. }
  pose proof (@screenshots_only_when_delegated plainRuntime hastyWorld)
    as [Hcall Hrun].
  split; [|split; [|split]].
  - exact (Hrun H (lit "go") 0).
  - exact (proj2 (Hcall (lit "take_snapshot") [] (initialVars []) 0 eq_refl)
             eq_refl).
  - exact (proj1 (Hcall (lit "scroll_document")
                    [(lit "direction", VString (lit "down"))] (initialVars []) 0
                    eq_refl)).
  - reflexivity.
Defined.

End TaskFacts.

(** ** The visual delegate and the screenshot *)

Module DelegateFacts.
Import Js JsFacts Response Agent AgentFacts ExecutionFacts.

Section WithWorld.
Context {rt : Runtime} (env : Env).

(** *** The screenshot *)

(** X19.  [captureScreenshot] never throws.  When the page comes to the
    front and is photographed, it returns the picture, and the border is
    set to capturing before and back after; when the page cannot be
    brought to the front it returns the empty string and the border is not
    touched; when the page cannot be photographed it returns the empty
    string and the border is left capturing.  A failure is logged. *)
Theorem captureScreenshot_outcomes :
  (forall t screenshot,
      bringToFront env t = Ok tt ->
      pageScreenshot env (S (S t)) = Ok screenshot ->
      captureScreenshot env t
      = {| result := Ok screenshot;
           endTick := S (S (S (S t)));
           effects := [(t, BringToFront);
                       (S t, UpdateBorderOverlay true true);
                       (S (S t), PageScreenshot);
                       (S (S (S t)), UpdateBorderOverlay true false)] |})
  /\ (forall t e,
         bringToFront env t = Throw e ->
         captureScreenshot env t
         = {| result := Ok [];
              endTick := S t;
              effects := [(t, BringToFront); (S t, Debug (DScreenshotFailed e))] |})
  /\ (forall t e,
         bringToFront env t = Ok tt ->
         pageScreenshot env (S (S t)) = Throw e ->
         captureScreenshot env t
         = {| result := Ok [];
              endTick := S (S (S t));
              effects := [(t, BringToFront);
                          (S t, UpdateBorderOverlay true true);
                          (S (S t), PageScreenshot);
                          (S (S (S t)), Debug (DScreenshotFailed e))] |})
  /\ (forall t, exists screenshot, result (captureScreenshot env t) = Ok screenshot).
Proof.
  split; [|split; [|split]].
  - intros t screenshot Hb Hp.
    unfold captureScreenshot, updateBorderOverlay. unfold tryCatch, bind, await, ret.
    cbn [result endTick effects]. rewrite Hb. cbn [result endTick effects].
    rewrite Hp. reflexivity.
  - intros t e Hb.
    unfold captureScreenshot, updateBorderOverlay. unfold tryCatch, bind, await, ret.
    cbn [result endTick effects]. rewrite Hb. reflexivity.
  - intros t e Hb Hp.
    unfold captureScreenshot, updateBorderOverlay. unfold tryCatch, bind, await, ret.
    cbn [result endTick effects]. rewrite Hb. cbn [result endTick effects].
    rewrite Hp. reflexivity.
  - apply captureScreenshot_total.
Qed.

(** *** How the delegate ends *)

Lemma visualStep_live (v : VisualVars) (t : nat) :
  isAborted env t = false ->
  visualStep env v t
  = (result <- await (GenerateContent (contents v))
                 (fun t0 => generateContent env t0 (contents v));;
     match result with
     | None => ret (Break v)
     | Some response =>
         let textResponse := concat (textsOf response) in
         let functionCalls := callsOf response in
         (if nonEmpty textResponse || negb (Nat.eqb (length functionCalls) 0)
          then print (NVisualTurn (step v + 1) textResponse functionCalls)
          else ret tt);;
         let contents1 := contents v ++ [ModelContent response] in
         if Nat.eqb (length functionCalls) 0 then
           invalidateCache env;;
           ret (Return (visualCompleted (finalText response) (actionHistory v)))
         else
           '(functionResponses, history1) <-
              visualCalls env functionCalls [] (actionHistory v);;
           finalScreenshot <- captureScreenshot env;;
           let functionResponses1 :=
             if nonEmpty finalScreenshot
             then functionResponses ++ [InlineData finalScreenshot]
             else functionResponses in
           ret (Continue {| step := S (step v);
                            contents := contents1 ++ [UserContent functionResponses1];
                            actionHistory := history1 |})
     end) t.
Proof.
  intros Ea. unfold visualStep. rewrite aborted_then, Ea. reflexivity.
Qed.

Lemma visualExhausted_answer (v : VisualVars) (t : nat) :
  result (visualExhausted env v t) = Ok (visualIncomplete (actionHistory v)).
Proof. apply visualExhausted_result. Qed.

Lemma visualGuarded_other :
  forall t e,
    isModelCall e = false -> isExecution e = false ->
    isVisualModelCall e = false -> isCompletion e = false ->
    visualGuarded env (t, e).
Proof. intros t e _ _ H _ H'. cbn in H'. congruence. Qed.

Lemma visualStep_guarded (v : VisualVars) :
  emits (visualGuarded env) (visualStep env v).
Proof.
  intros t. destruct (isAborted env t) eqn:Ea.
  - unfold visualStep. rewrite aborted_then, Ea.
    repeat constructor. intros H. discriminate H.
  - rewrite (visualStep_live v t Ea). apply run_bind.
    + repeat constructor. intros _. exact Ea.
    + intros response _. generalize (endTick (await (GenerateContent (contents v))
                                        (fun t0 => generateContent env t0 (contents v)) t)).
      destruct response as [response|]; [|intros t1; constructor].
      cbv zeta.
      match goal with
      | |- forall t1, Forall ?phi (effects (?m t1)) => change (emits phi m)
      end.
      unfold print.
      repeat first
        [ apply (captureScreenshot_emits env _ visualGuarded_other)
        | apply (invalidateCache_emits env _ visualGuarded_other)
        | apply (visualCalls_emits env _ visualGuarded_other)
        | apply emits_emit; intros ? H; discriminate H
        | emits_step ].
Qed.

Lemma visualLoop_guarded (todo : nat) :
  forall v, emits (visualGuarded env) (visualLoop env todo v).
Proof.
  assert (He : forall v, emits (visualGuarded env) (visualExhausted env v)).
  { intros v. unfold visualExhausted.
    apply emits_bind; [apply (invalidateCache_emits env _ visualGuarded_other)|].
    intros _. apply emits_ret. }
  induction todo as [|todo IH]; intros v; cbn [visualLoop]; [apply He|].
  apply emits_bind; [apply visualStep_guarded|].
  intros [v'|v'|r]; [apply IH | apply He | apply emits_ret].
Qed.

(** X20.  How the visual delegate ends, at whichever step.  Cancelled at the
    start of a step, it returns [Visual agent cancelled by user.] at once,
    without a call of its model.  When its model gives no response, it
    answers as if the steps had run out, with the actions taken so far.
    When the response has no function call, it answers that it completed,
    with the text of the response, or ['Done'] when there is none, and the
    actions taken.  When the call of its model throws, the delegate throws
    the same.  And its model is called only while the abort signal is not
    raised. *)
Theorem visual_delegate_endings :
  (forall todo v t,
      isAborted env t = true ->
      visualLoop env (S todo) v t
      = {| result := Ok visualCancelled; endTick := t;
           effects := [(t, Print NVisualCancelled)] |})
  /\ (forall todo v t,
         isAborted env t = false ->
         generateContent env t (contents v) = Ok None ->
         result (visualLoop env (S todo) v t)
         = Ok (visualIncomplete (actionHistory v)))
  /\ (forall todo v t response,
         isAborted env t = false ->
         generateContent env t (contents v) = Ok (Some response) ->
         callsOf response = [] ->
         result (visualLoop env (S todo) v t)
         = Ok (visualCompleted (finalText response) (actionHistory v)))
  /\ (forall todo v t e,
         isAborted env t = false ->
         generateContent env t (contents v) = Throw e ->
         result (visualLoop env (S todo) v t) = Throw e)
  /\ (forall instruction screen t0,
         Forall (visualGuarded env)
           (effects (runVisualDelegate env instruction screen t0))).
Proof.
  split; [|split; [|split; [|split]]].
  - intros todo v t Ea.
    assert (Hs : visualStep env v t
                 = {| result := Ok (Return visualCancelled); endTick := t;
                      effects := [(t, Print NVisualCancelled)] |}).
    { unfold visualStep. rewrite aborted_then, Ea. reflexivity. }
    cbn [visualLoop]. unfold bind. rewrite Hs. reflexivity.
  - intros todo v t Ea Hg.
    assert (Hs : result (visualStep env v t) = Ok (Break v)).
    { rewrite (visualStep_live v t Ea), await_then, Hg. reflexivity. }
    cbn [visualLoop]. rewrite (bind_ok _ _ _ _ Hs). cbn [result].
    apply visualExhausted_answer.
  - intros todo v t response Ea Hg Hc.
    assert (Hs : result (visualStep env v t)
                 = Ok (Return (visualCompleted (finalText response)
                                 (actionHistory v)))).
    { rewrite (visualStep_live v t Ea), await_then, Hg. cbn [result]. cbv zeta.
      rewrite Hc. cbn [length Nat.eqb negb].
      match goal with
      | |- result (bind ?m ?k ?t1) = _ =>
          assert (Hp : result (m t1) = Ok tt)
            by (destruct (nonEmpty (concat (textsOf response)) || false);
                reflexivity)
      end.
      rewrite (bind_ok _ _ _ _ Hp). cbn [result].
      destruct (invalidateCache_total env
                  (endTick ((if nonEmpty (concat (textsOf response)) || false
                             then print (NVisualTurn (step v + 1)
                                           (concat (textsOf response)) [])
                             else ret tt) (S t)))) as [[] Hi].
      now rewrite (bind_ok _ _ _ _ Hi). }
    cbn [visualLoop]. now rewrite (bind_ok _ _ _ _ Hs).
  - intros todo v t e Ea Hg.
    assert (Hs : result (visualStep env v t) = Throw e).
    { rewrite (visualStep_live v t Ea), await_then. now rewrite Hg. }
    cbn [visualLoop]. now rewrite (bind_throw _ _ _ _ Hs).
  - intros instruction screen t0. unfold runVisualDelegate.
    apply visualLoop_guarded.
Qed.

(** *** The tools of the delegate *)

Lemma nameIs_exclusive (n : option jsstring) (a b : string) :
  nameIs n a = true -> lit a <> lit b -> nameIs n b = false.
Proof.
  destruct n as [x|]; [|discriminate]. unfold nameIs. intros Ha Hab.
  apply str_eqb_eq in Ha. subst x.
  destruct (str_eqb (lit a) (lit b)) eqn:E; [|reflexivity].
  apply str_eqb_eq in E. congruence.
Qed.

(** X21.  What a call of the visual delegate does to the browser.  A name
    that is none of its five tools gives the result [{ error: 'Unknown
    visual tool: <name>' }] and touches nothing; a call of one of the five
    that has no arguments gives as its error what reading the first
    argument throws, and touches nothing either; and no call acts on the
    browser more than once. *)
Theorem visual_call_guards :
  (forall call t,
      isVisualTool (name call) = false ->
      visualCall env call t
      = {| result := Ok {| output := None;
                           error := Some (lit "Unknown visual tool: "
                                          ++ shownName (name call));
                           url := None |};
           endTick := t; effects := [] |})
  /\ (forall call t,
         isVisualTool (name call) = true -> args call = None ->
         visualCall env call t
         = {| result := Ok {| output := None;
                              error := Some (readUndefined (firstKey (name call)));
                              url := None |};
              endTick := t; effects := [] |})
  /\ (forall call t, count isBrowserAction (effects (visualCall env call t)) <= 1).
Proof.
  split; [|split].
  - intros call t H. unfold isVisualTool, visualToolNames in H.
    cbn [existsb] in H.
    repeat (apply orb_false_iff in H; destruct H as [? H]).
    unfold visualCall, visualSwitch, tryCatch.
    repeat match goal with
           | E : nameIs (name call) _ = false |- _ => rewrite E; clear E
           end.
    reflexivity.
  - intros call t H Ha. unfold isVisualTool, visualToolNames in H.
    cbn [existsb] in H. unfold visualCall, visualSwitch, readArgs, firstKey, tryCatch.
    rewrite Ha.
    destruct (nameIs (name call) "click_at") eqn:E1.
    { rewrite (nameIs_exclusive _ _ "press_key" E1) by discriminate.
      rewrite (nameIs_exclusive _ _ "scroll_document" E1) by discriminate.
      reflexivity. }
    destruct (nameIs (name call) "type_text_at") eqn:E2.
    { rewrite (nameIs_exclusive _ _ "press_key" E2) by discriminate.
      rewrite (nameIs_exclusive _ _ "scroll_document" E2) by discriminate.
      reflexivity. }
    destruct (nameIs (name call) "drag_and_drop") eqn:E3.
    { rewrite (nameIs_exclusive _ _ "press_key" E3) by discriminate.
      rewrite (nameIs_exclusive _ _ "scroll_document" E3) by discriminate.
      reflexivity. }
    destruct (nameIs (name call) "press_key") eqn:E4; [reflexivity|].
    destruct (nameIs (name call) "scroll_document") eqn:E5; [reflexivity|].
    discriminate H.
  - intros call. change (atMost isBrowserAction 1 (visualCall env call)).
    unfold visualCall, visualSwitch, readArgs.
    apply (atMost_tryCatch isBrowserAction 1 0).
    + repeat match goal with
             | |- atMost _ _ (if ?b then _ else _) => destruct b
             end;
        try (apply (atMost_bind isBrowserAction 0 1);
             [ destruct (args call); apply atMost_none;
               [apply emits_ret | apply emits_throw]
             | intros a; apply atMost_await ]).
      apply atMost_more with 0; [lia|]. apply atMost_none, emits_ret.
    + intros e. apply atMost_none, emits_ret.
Qed.

(** *** The delegate as a tool of the orchestrator *)



End WithWorld.

Lemma captureScreenshot_outcomes_witness :
  result (@captureScreenshot idleWorld 0) = Ok (lit "png")
  /\ captureScreenshot darkWorld 0
     = {| result := Ok [];
          endTick := 3;
          effects := [(0, BringToFront); (1, UpdateBorderOverlay true true);
                      (2, PageScreenshot);
                      (3, Debug (DScreenshotFailed (lit "Target closed")))] |}.
Proof.
  pose proof (captureScreenshot_outcomes idleWorld) as (Hok & _).
  pose proof (captureScreenshot_outcomes darkWorld) as (_ & _ & Hdark & _).
  split.
  - now rewrite (Hok 0 (lit "png") eq_refl eq_refl).
  - exact (Hdark 0 (lit "Target closed") eq_refl eq_refl).
Defined.

Lemma visual_delegate_endings_witness :
  result (@runVisualDelegate plainRuntime (cancelledWorld 0 (fun _ _ => Stream [] None))
            (VString (lit "click the red button")) (lit "png") 0)
  = Ok visualCancelled
  /\ result (@runVisualDelegate plainRuntime idleWorld
               (VString (lit "click the red button")) (lit "png") 0)
     = Ok (visualIncomplete [])
  /\ result (@runVisualDelegate plainRuntime contentWorld
               (VString (lit "click the red button")) (lit "png") 0)
     = Ok (visualCompleted (lit "Clicked it") [])
  /\ result (@runVisualDelegate plainRuntime blindWorld
               (VString (lit "click the red button")) (lit "png") 0)
     = Throw (lit "quota exceeded").
Proof.
  pose proof (@visual_delegate_endings plainRuntime
                (cancelledWorld 0 (fun _ _ => Stream [] None))) as (Hc & _).
  pose proof (@visual_delegate_endings plainRuntime idleWorld) as (_ & Hn & _).
  pose proof (@visual_delegate_endings plainRuntime contentWorld)
    as (_ & _ & Hd & _).
  pose proof (@visual_delegate_endings plainRuntime blindWorld)
    as (_ & _ & _ & Ht & _).
  split; [|split; [|split]].
  - unfold runVisualDelegate, VISUAL_MAX_STEPS. now rewrite (Hc 4 _ 0 eq_refl).
  - exact (Hn 4 (initialVisualVars (VString (lit "click the red button")) (lit "png"))
             0 eq_refl eq_refl).
  - exact (Hd 4 (initialVisualVars (VString (lit "click the red button")) (lit "png"))
             0 _ eq_refl eq_refl eq_refl).
  - exact (Ht 4 (initialVisualVars (VString (lit "click the red button")) (lit "png"))
             0 (lit "quota exceeded") eq_refl eq_refl).
Defined.

Lemma visual_call_guards_witness :
  result (@visualCall plainRuntime idleWorld (call "navigate" []) 0)
  = Ok {| output := None; error := Some (lit "Unknown visual tool: navigate");
          url := None |}
  /\ effects (@visualCall plainRuntime idleWorld
                {| name := Some (lit "click_at"); args := None |} 0) = [].
Proof.
  pose proof (@visual_call_guards plainRuntime idleWorld) as (Hunknown & Hbare & _).
  split.
  - now rewrite (Hunknown (call "navigate" []) 0 eq_refl).
  - now rewrite (Hbare {| name := Some (lit "click_at"); args := None |} 0
                   eq_refl eq_refl).
Defined.


End DelegateFacts.

(* --------------------------------------------------------------------- *)
(** ** The browser tools *)

Module ToolsFacts.
Import Js Response Tools JsFacts.
Import Agent (Res, Ok, Throw).

(** *** White space *)

Lemma blank_trimStart (s : jsstring) :
  forallb isWhiteSpace s = true -> trimStart s = [].
Proof.
  induction s as [|c s IH]; simpl; [reflexivity|].
  destruct (isWhiteSpace c); simpl; [exact IH | discriminate].
Qed.

Lemma blank_trim (s : jsstring) : forallb isWhiteSpace s = true -> trim s = [].
Proof. intros H. unfold trim. now rewrite blank_trimStart. Qed.

Lemma blank_collapseFrom (b : bool) (s : jsstring) :
  forallb isWhiteSpace s = true ->
  forallb isWhiteSpace (collapseFrom b s) = true.
Proof.
  revert b. induction s as [|c s IH]; intros b; simpl; [reflexivity|].
  destruct (isWhiteSpace c) eqn:E; simpl; [|discriminate].
  intros H. destruct b; simpl; auto.
Qed.

Lemma inked_collapseFrom (b : bool) (s : jsstring) :
  forallb isWhiteSpace s = false ->
  forallb isWhiteSpace (collapseFrom b s) = false.
Proof.
  revert b. induction s as [|c s IH]; intros b; simpl; [discriminate|].
  destruct (isWhiteSpace c) eqn:E; simpl.
  - intros H. destruct b; simpl; auto.
  - intros _. now rewrite E.
Qed.

Lemma inked_trimStart (s : jsstring) :
  forallb isWhiteSpace s = false ->
  forallb isWhiteSpace (trimStart s) = false.
Proof.
  induction s as [|c s IH]; simpl; [discriminate|].
  destruct (isWhiteSpace c) eqn:E; simpl; [exact IH|].
  intros _. now rewrite E.
Qed.

Lemma forallb_reversed (f : N -> bool) (s : jsstring) :
  forallb f (rev s) = forallb f s.
Proof.
  induction s as [|c s IH]; simpl; [reflexivity|].
  rewrite forallb_app, IH. simpl. rewrite andb_true_r. apply andb_comm.
Qed.

Lemma inked_trim (s : jsstring) :
  forallb isWhiteSpace s = false -> forallb isWhiteSpace (trim s) = false.
Proof.
  intros H. unfold trim, trimEnd. rewrite forallb_reversed.
  apply inked_trimStart. rewrite forallb_reversed. now apply inked_trimStart.
Qed.

Lemma collapseFrom_spaced (b : bool) (s : jsstring) :
  singleSpaced (collapseFrom b s) = true
  /\ (b = true -> noSpaceAhead (collapseFrom b s) = true).
Proof.
  revert b. induction s as [|c s IH]; intros b; simpl; [now split|].
  destruct (isWhiteSpace c) eqn:E.
  - destruct b.
    + apply IH.
    + split; [|discriminate]. simpl.
      destruct (IH true) as [H1 H2]. now rewrite H1, H2.
  - simpl. rewrite E. simpl. split; [apply IH | reflexivity].
Qed.

Lemma singleSpaced_prefix (a b : jsstring) :
  singleSpaced (a ++ b) = true -> singleSpaced a = true.
Proof.
  induction a as [|c a IH]; simpl; [reflexivity|].
  intros H. apply andb_true_iff in H. destruct H as [H1 H2].
  rewrite (IH H2), andb_true_r.
  destruct (isWhiteSpace c); [|reflexivity].
  apply andb_true_iff in H1. destruct H1 as [H1 H3]. rewrite H1. simpl.
  destruct a; [reflexivity | exact H3].
Qed.

Lemma singleSpaced_suffix (a b : jsstring) :
  singleSpaced (a ++ b) = true -> singleSpaced b = true.
Proof.
  induction a as [|c a IH]; simpl; [tauto|].
  intros H. apply andb_true_iff in H. now apply IH.
Qed.

Lemma trimStart_suffix (s : jsstring) : exists p, s = p ++ trimStart s.
Proof.
  induction s as [|c s [p IH]]; simpl; [now exists []|].
  destruct (isWhiteSpace c).
  - exists (c :: p). simpl. now f_equal.
  - now exists [].
Qed.

Lemma trimEnd_prefix (s : jsstring) : exists r, s = trimEnd s ++ r.
Proof.
  induction s as [|c s [r IH]] using rev_ind; [now exists []|].
  rewrite trimEnd_snoc. destruct (isWhiteSpace c).
  - exists (r ++ [c]). rewrite app_assoc. now f_equal.
  - exists []. now rewrite app_nil_r.
Qed.

Lemma singleSpaced_trim (s : jsstring) :
  singleSpaced s = true -> singleSpaced (trim s) = true.
Proof.
  intros H. unfold trim.
  destruct (trimEnd_prefix (trimStart s)) as [r Hr].
  apply singleSpaced_prefix with (b := r). rewrite <- Hr.
  destruct (trimStart_suffix s) as [p Hp].
  apply singleSpaced_suffix with (a := p). now rewrite <- Hp.
Qed.

Lemma singleSpaced_dots (a : jsstring) :
  singleSpaced a = true -> singleSpaced (a ++ lit "...") = true.
Proof.
  induction a as [|c a IH]; simpl; [reflexivity|].
  intros H. apply andb_true_iff in H. destruct H as [H1 H2].
  rewrite (IH H2), andb_true_r.
  destruct (isWhiteSpace c); [|reflexivity].
  apply andb_true_iff in H1. destruct H1 as [H1 H3]. rewrite H1. simpl.
  destruct a; [reflexivity | exact H3].
Qed.

Section Labels.
Context {rt : Runtime}.

Lemma label_length (text : jsstring) :
  length (firstn 30 text ++ (if Nat.ltb 30 (length text) then lit "..." else []))
  <= 33.
Proof.
  rewrite length_app, length_firstn.
  destruct (Nat.ltb 30 (length text));
    [change (length (lit "...")) with 3 | change (@length N []) with 0]; lia.
Qed.

(** X23. A label made of a text of the element, be it its inner text or
    an attribute, is at most 33 code units long.  Of an inner text that
    is all white space nothing is made: the label is the one of the
    element without the text.  Of any other inner text the label is not
    empty, does not begin with white space, and holds no white space
    but single spaces. *)
Theorem element_label (el : Element) :
  (elementText el <> None -> length (labelOf el) <= 33)
  /\ (forall s, innerText el = Some s ->
        if forallb isWhiteSpace s
        then labelOf el = labelOf (withoutText el)
        else exists c r,
               labelOf el = c :: r
               /\ isWhiteSpace c = false
               /\ singleSpaced (labelOf el) = true
               /\ length (labelOf el) <= 33).
Proof.
  split.
  - unfold labelOf. destruct (elementText el) as [text|]; [|congruence].
    intros _. apply label_length.
  - intros s Hs. destruct (forallb isWhiteSpace s) eqn:Hb.
    + unfold labelOf, elementText, withoutText. cbn [innerText ariaLabel
        placeholder title alt tagName option_map]. rewrite Hs.
      cbn [option_map]. unfold collapse.
      rewrite (blank_trim _ (blank_collapseFrom false s Hb)). reflexivity.
    + pose proof (inked_trim _ (inked_collapseFrom false s Hb)) as Hink.
      pose proof (singleSpaced_trim _ (proj1 (collapseFrom_spaced false s)))
        as Hsp.
      fold (collapse s) in Hink, Hsp.
      assert (Htext : elementText el = Some (trim (collapse s))).
      { unfold elementText. rewrite Hs. cbn [option_map]. unfold orText at 1.
        destruct (trim (collapse s)); [discriminate | reflexivity]. }
      unfold labelOf. rewrite Htext.
      destruct (trim_shape (collapse s)) as [E | (c & r & E & Hc)].
      * rewrite E in Hink. discriminate.
      * set (text := trim (collapse s)) in *.
        exists c. eexists. split; [rewrite E; cbn [firstn app]; reflexivity|].
        split; [exact Hc|]. split; [|apply label_length].
        assert (Hcut : singleSpaced (firstn 30 text) = true).
        { apply singleSpaced_prefix with (b := skipn 30 text).
          now rewrite firstn_skipn. }
        destruct (Nat.ltb 30 (length text)).
        -- now apply singleSpaced_dots.
        -- now rewrite app_nil_r.
Qed.

End Labels.

(** *** The border *)

Lemma class_eq (a b : jsstring) : str_eqb a b = true <-> a = b.
Proof.
  revert b. induction a as [|x a IH]; intros [|y b]; simpl;
    try (split; [discriminate | congruence]); [tauto|].
  rewrite andb_true_iff, N.eqb_eq, IH. split; [intros [-> ->]; reflexivity|].
  intros [= -> ->]. now split.
Qed.

Lemma class_sym (a b : jsstring) : str_eqb a b = str_eqb b a.
Proof.
  destruct (str_eqb a b) eqn:E1, (str_eqb b a) eqn:E2; try reflexivity.
  - apply class_eq in E1. subst. rewrite (proj2 (class_eq b b) eq_refl) in E2.
    discriminate.
  - apply class_eq in E2. subst. rewrite (proj2 (class_eq a a) eq_refl) in E1.
    discriminate.
Qed.

Lemma hasClass_add (c x : jsstring) (l : list jsstring) :
  hasClass c (classAdd x l) = str_eqb c x || hasClass c l.
Proof.
  unfold classAdd. destruct (hasClass x l) eqn:E.
  - destruct (str_eqb c x) eqn:Ec; [|reflexivity].
    apply class_eq in Ec. subst. now rewrite E.
  - unfold hasClass. rewrite existsb_app. simpl. rewrite orb_false_r.
    apply orb_comm.
Qed.

Lemma hasClass_remove (c x : jsstring) (l : list jsstring) :
  hasClass c (classRemove x l) = negb (str_eqb c x) && hasClass c l.
Proof.
  unfold hasClass, classRemove. induction l as [|y l IH]; simpl.
  - now rewrite andb_false_r.
  - destruct (str_eqb y x) eqn:Ey; simpl.
    + rewrite IH. apply class_eq in Ey. subst y.
      destruct (str_eqb c x); reflexivity.
    + rewrite IH. destruct (str_eqb c y) eqn:Ec; simpl.
      * apply class_eq in Ec. subst y. now rewrite Ey.
      * reflexivity.
Qed.

Lemma classRemove_absent (x : jsstring) (l : list jsstring) :
  hasClass x l = false -> classRemove x l = l.
Proof.
  unfold hasClass, classRemove. induction l as [|y l IH]; simpl; [reflexivity|].
  intros H. apply orb_false_iff in H. destruct H as [H1 H2].
  rewrite class_sym, H1. simpl. now rewrite IH.
Qed.

Lemma classAdd_present (x : jsstring) (l : list jsstring) :
  hasClass x l = true -> classAdd x l = l.
Proof. intros H. unfold classAdd. now rewrite H. Qed.

(** X24. After the script of [updateBorderOverlay] the style sheet is in
    the page and the container is there; the container is hidden exactly
    when the border is not active, and breathes exactly when the border
    is active and no screenshot is being captured, whatever its classes
    were before.  Every other class is kept, and to run the script again
    with the same options changes nothing. *)
Theorem border_follows_options (active capturing : bool) (d : Border) :
  let d' := borderScript active capturing d in
  styled d' = true
  /\ classes d' <> None
  /\ hasClass hidden (current d') = negb active
  /\ hasClass breathing (current d') = active && negb capturing
  /\ (forall c, c <> hidden -> c <> breathing ->
        hasClass c (current d') = hasClass c (current d))
  /\ borderScript active capturing d' = d'.
Proof.
  assert (Hother : forall c x, c <> x -> str_eqb c x = false).
  { intros c x Hc. destruct (str_eqb c x) eqn:E; [|reflexivity].
    now apply class_eq in E. }
  assert (Hself : forall c, str_eqb c c = true)
    by (intros c; now apply class_eq).
  cbv zeta. unfold borderScript. cbn [styled classes current].
  set (l := current d).
  split; [reflexivity|]. split; [discriminate|].
  destruct active, capturing; cbn [negb andb];
    rewrite ?hasClass_add, ?hasClass_remove, ?hasClass_add, ?hasClass_remove,
      ?Hself; cbn [negb andb orb];
    (split; [try reflexivity|]); (split; [try reflexivity|]);
    (split; [intros c H1 H2;
             rewrite ?hasClass_add, ?hasClass_remove, ?hasClass_add,
               ?hasClass_remove, ?(Hother _ _ H1), ?(Hother _ _ H2);
             reflexivity|]).
  - rewrite (classRemove_absent hidden).
    + rewrite (classRemove_absent breathing); [reflexivity|].
      now rewrite hasClass_remove, Hself.
    + now rewrite !hasClass_remove, Hself, andb_false_r.
  - rewrite (classRemove_absent hidden).
    + rewrite classAdd_present; [reflexivity|].
      now rewrite hasClass_add, Hself.
    + now rewrite hasClass_add, hasClass_remove, Hself.
  - rewrite classAdd_present.
    + rewrite (classRemove_absent breathing); [reflexivity|].
      now rewrite hasClass_remove, Hself.
    + now rewrite hasClass_remove, hasClass_add, Hself.
  - rewrite classAdd_present.
    + rewrite (classRemove_absent breathing); [reflexivity|].
      now rewrite hasClass_remove, Hself.
    + now rewrite hasClass_remove, hasClass_add, Hself.
Qed.

(** *** What the tools ask of the mouse and the keyboard *)

Lemma inputs_app (a b : list (nat * Effect)) :
  inputs (a ++ b) = inputs a ++ inputs b.
Proof. unfold inputs. apply flat_map_app. Qed.

Lemma beginning_nil (l : list Input) : beginning [] l.
Proof. now exists l. Qed.

Lemma beginning_refl (l : list Input) : beginning l l.
Proof. exists []. now rewrite app_nil_r. Qed.

Lemma beginning_of_nil (l : list Input) : beginning l [] -> l = [].
Proof. intros [rest H]. symmetry in H. now apply app_eq_nil in H. Qed.

Lemma plays_bind {A B} (t : nat) (Q : A -> Prop) (R : B -> Prop)
    (l1 l2 l : list Input) (m : M A) (k : A -> M B) :
  plays t Q l1 m ->
  (forall a, Q a -> plays (endTick (m t)) R l2 (k a)) ->
  l = l1 ++ l2 ->
  plays t R l (bind m k).
Proof.
  unfold plays, bind. intros Hm Hk ->. cbv zeta.
  destruct (result (m t)) as [a|e] eqn:E.
  - destruct Hm as [Hq Hl]. specialize (Hk a Hq).
    cbn [result effects]. rewrite inputs_app, Hl.
    destruct (result (k a (endTick (m t)))).
    + destruct Hk as [Hr Hl2]. now rewrite Hl2.
    + destruct Hk as [rest Hrest]. exists rest. rewrite Hrest.
      now rewrite app_assoc.
  - cbn [result effects]. destruct Hm as [rest Hrest]. exists (rest ++ l2).
    rewrite Hrest. now rewrite app_assoc.
Qed.

Lemma plays_quietly {A B} (t : nat) (R : B -> Prop) (l : list Input)
    (m : M A) (k : A -> M B) :
  quiet m ->
  (forall a, plays (endTick (m t)) R l (k a)) ->
  plays t R l (bind m k).
Proof.
  intros Hm Hk. apply plays_bind with (Q := fun _ => True) (l1 := []) (l2 := l);
    [apply Hm | intros a _; apply Hk | reflexivity].
Qed.

Lemma plays_weaken {A} (t : nat) (Q Q' : A -> Prop) (l : list Input) (m : M A) :
  plays t Q l m -> (forall a, Q a -> Q' a) -> plays t Q' l m.
Proof.
  unfold plays. destruct (result (m t)); [|tauto].
  intros [H1 H2] H. split; auto.
Qed.

Lemma quiet_ret {A} (a : A) : quiet (ret a).
Proof. intros t. unfold plays. simpl. now split. Qed.

Lemma quiet_bind {A B} (m : M A) (k : A -> M B) :
  quiet m -> (forall a, quiet (k a)) -> quiet (bind m k).
Proof.
  intros Hm Hk t. apply plays_quietly; [exact Hm | intros a; apply Hk].
Qed.

Lemma quiet_tryCatch {A} (m : M A) (handler : jsstring -> M A) :
  quiet m -> (forall e, quiet (handler e)) -> quiet (tryCatch m handler).
Proof.
  intros Hm Hh t. specialize (Hm t). unfold plays, tryCatch in *. cbv zeta.
  destruct (result (m t)) as [a|e] eqn:E.
  - rewrite E. exact Hm.
  - cbn [result effects]. apply beginning_of_nil in Hm.
    rewrite inputs_app, Hm. cbn [app]. apply Hh.
Qed.

Section Runs.
Context {rt : Runtime} {nm : Numbers} (env : Env).

Lemma quiet_evaluate (s : Script) : quiet (evaluate env s).
Proof.
  intros t. unfold plays, evaluate, await. cbn [result effects].
  destruct (runScript env t s); cbn; [now split | apply beginning_nil].
Qed.

Lemma quiet_sleep (ms : nat) : quiet (sleep ms).
Proof. intros t. unfold plays. cbn. now split. Qed.

Lemma quiet_log (note : LogNote) : quiet (log note).
Proof. intros t. unfold plays. cbn. now split. Qed.

Lemma quiet_getPage : quiet (await GetPage (getPage env)).
Proof.
  intros t. unfold plays, await. cbn [result effects].
  destruct (getPage env t); cbn; [now split | apply beginning_nil].
Qed.

Lemma quiet_showOverlay (msg : jsstring) : quiet (showOverlay env msg).
Proof. apply quiet_evaluate. Qed.

Lemma quiet_removeOverlay : quiet (removeOverlay env).
Proof.
  apply quiet_tryCatch; [|intros e; apply quiet_log].
  apply quiet_bind; [apply quiet_getPage | intros _; apply quiet_evaluate].
Qed.

Lemma quiet_updateBorderOverlay (active capturing : bool) :
  quiet (updateBorderOverlay env active capturing).
Proof.
  apply quiet_tryCatch; [|intros e; apply quiet_log].
  apply quiet_bind; [apply quiet_getPage | intros _; apply quiet_evaluate].
Qed.

Lemma quiet_moveMouse (x y : JsVal) : quiet (moveMouse env x y).
Proof.
  apply quiet_bind; [apply quiet_evaluate | intros _; apply quiet_sleep].
Qed.

Lemma quiet_animateClick : quiet (animateClick env).
Proof.
  apply quiet_bind; [apply quiet_evaluate | intros _; apply quiet_sleep].
Qed.

Lemma quiet_getElementLabel (x y : JsVal) : quiet (getElementLabel env x y).
Proof.
  apply quiet_bind; [|intros el; apply quiet_ret].
  intros t. unfold plays, await. cbn [result effects].
  destruct (elementAt env t x y); cbn; [now split | apply beginning_nil].
Qed.

Lemma plays_act {B} (t : nat) (R : B -> Prop) (i : Input) (l : list Input)
    (k : unit -> M B) :
  (forall u, plays (S t) R l (k u)) ->
  plays t R (i :: l) (bind (await (Act i) (fun t => act env t i)) k).
Proof.
  intros Hk. apply plays_bind with (Q := fun _ => True) (l1 := [i]) (l2 := l);
    [|intros u _; apply Hk | reflexivity].
  unfold plays, await. cbn [result effects].
  destruct (act env t i); cbn; [now split | apply beginning_refl].
Qed.

Lemma plays_done (t : nat) (text : jsstring) :
  plays t (success text) [] (done env text).
Proof.
  unfold plays, done, bind, ask, ret. cbn. split; [|reflexivity].
  now exists (pageUrl env t).
Qed.

(** [getViewportSize] finds the size [seen], and never finds none. *)
Lemma plays_getViewportSize (t : nat) :
  match seen env t with
  | Ok vp => plays t (fun v => v = Some vp) [] (getViewportSize env)
  | Throw e =>
      result (getViewportSize env t) = Throw e
      /\ inputs (effects (getViewportSize env t)) = []
  end.
Proof.
  unfold seen, plays, getViewportSize, bind, ask, await, ret. cbn.
  destruct (viewportSize env t) as [vp|]; cbn; [now split|].
  destruct (windowSize env t) as [vp|e]; cbn; now split.
Qed.

(** What a tool answers that catches the exceptions of its body. *)
Lemma plays_caught (t : nat) (Q : ToolResult -> Prop) (l : list Input)
    (wording : jsstring -> jsstring) (body : M ToolResult) :
  plays t Q l body ->
  exists res,
    result (tryCatch body (fun message => failed (wording message)) t) = Ok res
    /\ ((Q res
         /\ inputs (effects (tryCatch body
                               (fun message => failed (wording message)) t)) = l)
        \/ (failure wording res
            /\ beginning
                 (inputs (effects (tryCatch body
                                     (fun message => failed (wording message)) t)))
                 l)).
Proof.
  unfold plays, tryCatch. cbv zeta. intros H.
  destruct (result (body t)) as [res|e] eqn:E.
  - exists res. rewrite E. split; [reflexivity|]. now left.
  - cbn [result effects failed ret]. eexists. split; [reflexivity|]. right.
    split; [now exists e|]. now rewrite app_nil_r.
Qed.

(** The same when the body throws before it has asked for anything. *)
Lemma caught_early (t : nat) (e : jsstring) (wording : jsstring -> jsstring)
    (body : M ToolResult) :
  result (body t) = Throw e ->
  inputs (effects (body t)) = [] ->
  exists res,
    result (tryCatch body (fun message => failed (wording message)) t) = Ok res
    /\ res = refused (wording e)
    /\ inputs (effects (tryCatch body
                          (fun message => failed (wording message)) t)) = [].
Proof.
  intros Hr Hi. unfold tryCatch. cbv zeta. rewrite Hr.
  cbn [result effects failed ret]. eexists. split; [reflexivity|].
  split; [reflexivity|]. now rewrite app_nil_r.
Qed.

Lemma bind_thrown {A B} (m : M A) (k : A -> M B) (t : nat) (e : jsstring) :
  result (m t) = Throw e ->
  result (bind m k t) = Throw e /\ effects (bind m k t) = effects (m t).
Proof. intros H. unfold bind. cbv zeta. rewrite H. now split. Qed.

Lemma bind_assoc {A B C} (m : M A) (k1 : A -> M B) (k2 : B -> M C) (t : nat) :
  result (bind (bind m k1) k2 t) = result (bind m (fun a => bind (k1 a) k2) t)
  /\ effects (bind (bind m k1) k2 t)
     = effects (bind m (fun a => bind (k1 a) k2) t).
Proof.
  unfold bind. cbv zeta. destruct (result (m t)) as [a|e]; cbn [result endTick effects];
    [|now split].
  destruct (result (k1 a (endTick (m t)))); cbn [result endTick effects];
    [|now split].
  destruct (result (k2 _ _)); now rewrite app_assoc.
Qed.

Lemma plays_assoc {A B C} (t : nat) (R : C -> Prop) (l : list Input)
    (m : M A) (k1 : A -> M B) (k2 : B -> M C) :
  plays t R l (bind m (fun a => bind (k1 a) k2)) ->
  plays t R l (bind (bind m k1) k2).
Proof.
  unfold plays. destruct (bind_assoc m k1 k2 t) as [-> ->]. tauto.
Qed.

(** A tool that begins with [getPage] throws when there is no page, and
    goes on one tick later when there is one. *)
Lemma after_getPage {B} (k : unit -> M B) (t : nat) :
  match getPage env t with
  | Throw e =>
      result (bind (await GetPage (getPage env)) k t) = Throw e
      /\ effects (bind (await GetPage (getPage env)) k t) = [(t, GetPage)]
  | Ok u =>
      result (bind (await GetPage (getPage env)) k t) = result (k u (S t))
      /\ effects (bind (await GetPage (getPage env)) k t)
         = (t, GetPage) :: effects (k u (S t))
  end.
Proof.
  unfold bind, await. cbn [result endTick effects].
  destruct (getPage env t); cbn [result endTick effects app]; now split.
Qed.

Ltac play :=
  repeat (cbv zeta;
          first
            [ apply plays_done
            | apply plays_act; intros _
            | apply plays_quietly;
              [ first [ apply quiet_moveMouse | apply quiet_getElementLabel
                      | apply quiet_showOverlay | apply quiet_animateClick
                      | apply quiet_sleep | apply quiet_removeOverlay
                      | apply quiet_evaluate | apply quiet_ret ]
              | intros ? ]
            | apply plays_assoc ]).

(** The part of a pointer tool that follows [getViewportSize]. *)
Lemma plays_sized (t : nat) (R : ToolResult -> Prop) (l : Viewport -> list Input)
    (k : option Viewport -> M ToolResult) :
  (forall vp t', plays t' R (l vp) (k (Some vp))) ->
  match seen env t with
  | Ok vp => plays t R (l vp) (bind (getViewportSize env) k)
  | Throw e =>
      result (bind (getViewportSize env) k t) = Throw e
      /\ inputs (effects (bind (getViewportSize env) k t)) = []
  end.
Proof.
  intros Hk. pose proof (plays_getViewportSize t) as H.
  destruct (seen env t) as [vp|e].
  - apply plays_bind with (Q := fun v => v = Some vp) (l1 := []) (l2 := l vp);
      [exact H | intros a ->; apply Hk | reflexivity].
  - destruct H as [Hr Hi]. destruct (bind_thrown _ k _ _ Hr) as [-> ->].
    now split.
Qed.

(** X25. [clickAt] throws when there is no page.  With a page it always
    answers: when the size of the page cannot be found, an error with
    that exception, after nothing was asked of the mouse; otherwise
    either [Clicked] with the address of the page, after exactly one
    click at the scaled point, or an error without address, after at
    most that click. *)
Theorem clickAt_outcomes (x y : JsVal) (t : nat) :
  let wording := fun message =>
    lit "Failed to click at " ++ point x y ++ lit ": " ++ message in
  let asked := inputs (effects (clickAt env x y t)) in
  match getPage env t with
  | Throw e => result (clickAt env x y t) = Throw e /\ asked = []
  | Ok _ =>
      exists res,
        result (clickAt env x y t) = Ok res
        /\ match seen env (S t) with
           | Throw e => res = refused (wording e) /\ asked = []
           | Ok vp =>
               (success (lit "Clicked") res /\ asked = [clickPoint x y vp])
               \/ (failure wording res /\ beginning asked [clickPoint x y vp])
           end
  end.
Proof.
  cbv zeta. unfold clickAt.
  match goal with
  | |- context [bind (await GetPage (getPage env)) ?k] =>
      pose proof (after_getPage k t) as H
  end.
  destruct (getPage env t) as [u|e]; destruct H as [Hr He]; rewrite Hr, He;
    [|now split].
  clear Hr He. change (inputs ((t, GetPage) :: ?l)) with (inputs l).
  match goal with
  | |- context [tryCatch (bind (getViewportSize env) ?k) _] =>
      assert (H : forall vp t', plays t' (success (lit "Clicked"))
                                  [clickPoint x y vp] (k (Some vp)))
        by (intros vp' t'; unfold clickPoint; cbv beta iota; play);
      apply (plays_sized (S t) _ (fun vp => [clickPoint x y vp]) k) in H
  end.
  destruct (seen env (S t)) as [vp|e].
  - apply plays_caught. exact H.
  - destruct H as [Hr' Hi'].
    destruct (caught_early (S t) e
                (fun message =>
                   lit "Failed to click at " ++ point x y ++ lit ": " ++ message)
                _ Hr' Hi') as (res & H1 & H2 & H3).
    exists res. split; [exact H1 | now split].
Qed.

(** X26. [typeTextAt] throws when there is no page.  With a page it
    always answers.  On success the mouse was asked for one click at the
    scaled point and then the keyboard, in this order, for [Control+A]
    and [Backspace] when the field is to be cleared, for the text, and
    for [Enter] when it is to be pressed.  On failure the answer is an
    error without address, and what was asked is a beginning of that. *)
Theorem typeTextAt_outcomes (x y : JsVal) (text : jsstring)
    (pressEnter clearBeforeTyping : JsVal) (t : nat) :
  let wording := fun message =>
    lit "Failed to type at " ++ point x y ++ lit ": " ++ message in
  let run := typeTextAt env x y text pressEnter clearBeforeTyping t in
  let asked := inputs (effects run) in
  match getPage env t with
  | Throw e => result run = Throw e /\ asked = []
  | Ok _ =>
      exists res,
        result run = Ok res
        /\ match seen env (S t) with
           | Throw e => res = refused (wording e) /\ asked = []
           | Ok vp =>
               let all := clickPoint x y vp
                          :: typing text pressEnter clearBeforeTyping in
               (success (lit "Typed " ++ quoted text) res /\ asked = all)
               \/ (failure wording res /\ beginning asked all)
           end
  end.
Proof.
  cbv zeta. unfold typeTextAt.
  match goal with
  | |- context [bind (await GetPage (getPage env)) ?k] =>
      pose proof (after_getPage k t) as H
  end.
  destruct (getPage env t) as [u|e]; destruct H as [Hr He]; rewrite Hr, He;
    [|now split].
  clear Hr He. change (inputs ((t, GetPage) :: ?l)) with (inputs l).
  match goal with
  | |- context [tryCatch (bind (getViewportSize env) ?k) _] =>
      assert (H : forall vp t',
                 plays t' (success (lit "Typed " ++ quoted text))
                   (clickPoint x y vp
                    :: typing text pressEnter clearBeforeTyping)
                   (k (Some vp)))
        by (intros vp' t'; unfold clickPoint, typing, press; cbv beta iota;
            destruct (truthy clearBeforeTyping), (truthy pressEnter);
            cbn [app]; play);
      apply (plays_sized (S t) _
               (fun vp => clickPoint x y vp
                          :: typing text pressEnter clearBeforeTyping) k) in H
  end.
  destruct (seen env (S t)) as [vp|e].
  - apply plays_caught. exact H.
  - destruct H as [Hr' Hi'].
    destruct (caught_early (S t) e
                (fun message =>
                   lit "Failed to type at " ++ point x y ++ lit ": " ++ message)
                _ Hr' Hi') as (res & H1 & H2 & H3).
    exists res. split; [exact H1 | now split].
Qed.

Lemma after_evaluate {B} (s : Script) (k : unit -> M B) (t : nat) :
  match runScript env t s with
  | Throw e =>
      result (bind (evaluate env s) k t) = Throw e
      /\ inputs (effects (bind (evaluate env s) k t)) = []
  | Ok u =>
      result (bind (evaluate env s) k t) = result (k u (S t))
      /\ inputs (effects (bind (evaluate env s) k t))
         = inputs (effects (k u (S t)))
  end.
Proof.
  unfold bind, evaluate, await. cbn [result endTick effects].
  destruct (runScript env t s); cbn [result endTick effects app]; now split.
Qed.

(** X27. [dragAndDrop] throws when there is no page.  With a page it
    always answers.  On success the mouse was asked, in this order, to
    move to the scaled start, to press, to move to the scaled end and to
    release.  On failure the answer is an error without address, and
    what was asked is a beginning of that: nothing at all when the
    message could not be shown or the size of the page not be found. *)
Theorem dragAndDrop_outcomes (x y destX destY : JsVal) (t : nat) :
  let wording := fun message => lit "Failed to drag: " ++ message in
  let route := lit "Dragging from " ++ corner x y ++ lit " to "
               ++ corner destX destY in
  let told := lit "Dragged from " ++ corner x y ++ lit " to "
              ++ corner destX destY in
  let run := dragAndDrop env x y destX destY t in
  let asked := inputs (effects run) in
  match getPage env t with
  | Throw e => result run = Throw e /\ asked = []
  | Ok _ =>
      exists res,
        result run = Ok res
        /\ match runScript env (S t) (ShowOverlay route) with
           | Throw e => res = refused (wording e) /\ asked = []
           | Ok _ =>
               match seen env (S (S t)) with
               | Throw e => res = refused (wording e) /\ asked = []
               | Ok vp =>
                   (success told res /\ asked = dragging x y destX destY vp)
                   \/ (failure wording res
                       /\ beginning asked (dragging x y destX destY vp))
               end
           end
  end.
Proof.
  cbv zeta. unfold dragAndDrop.
  match goal with
  | |- context [bind (await GetPage (getPage env)) ?k] =>
      pose proof (after_getPage k t) as H
  end.
  destruct (getPage env t) as [u|e]; destruct H as [Hr He]; rewrite Hr, He;
    [|now split].
  clear Hr He. change (inputs ((t, GetPage) :: ?l)) with (inputs l).
  set (told := lit "Dragged from " ++ corner x y ++ lit " to "
               ++ corner destX destY).
  set (route := lit "Dragging from " ++ corner x y ++ lit " to "
                ++ corner destX destY).
  match goal with
  | |- context [tryCatch (bind (showOverlay env route) ?k2) _] =>
      pose proof (after_evaluate (ShowOverlay route) k2 (S t)) as Hshow;
      match k2 with
      | (fun _ => bind (getViewportSize env) ?k) =>
          assert (H : forall vp t',
                     plays t' (success told) (dragging x y destX destY vp)
                       (k (Some vp)))
            by (intros vp' t'; unfold dragging; cbv beta iota; play);
          apply (plays_sized (S (S t)) _
                   (fun vp => dragging x y destX destY vp) k) in H
      end
  end.
  fold (showOverlay env route) in Hshow.
  destruct (runScript env (S t) (ShowOverlay route)) as [u'|e].
  - destruct Hshow as [Hr He]. destruct (seen env (S (S t))) as [vp|e].
    + apply plays_caught. apply plays_quietly; [apply quiet_showOverlay|].
      intros _. exact H.
    + destruct H as [Hr' Hi']. rewrite <- Hr in Hr'. rewrite <- He in Hi'.
      destruct (caught_early (S t) e
                  (fun message => lit "Failed to drag: " ++ message)
                  _ Hr' Hi') as (res & H1 & H2 & H3).
      exists res. split; [exact H1 | now split].
  - destruct Hshow as [Hr He].
    destruct (caught_early (S t) e
                (fun message => lit "Failed to drag: " ++ message)
                _ Hr He) as (res & H1 & H2 & H3).
    exists res. split; [exact H1 | now split].
Qed.

(** *** The tools that do not answer errors *)

Lemma step_result {A B} (e : Effect) (f : nat -> Res A) (k : A -> M B)
    (t : nat) :
  result (bind (await e f) k t)
  = match f t with
    | Ok a => result (k a (S t))
    | Throw x => Throw x
    end.
Proof.
  unfold bind, await. cbn [result endTick effects]. now destruct (f t).
Qed.

Lemma step_effects {A B} (e : Effect) (f : nat -> Res A) (k : A -> M B)
    (t : nat) :
  effects (bind (await e f) k t)
  = (t, e) :: match f t with
              | Ok a => effects (k a (S t))
              | Throw _ => []
              end.
Proof.
  unfold bind, await. cbn [result endTick effects]. now destruct (f t).
Qed.

Lemma bind_returned {A B} (m : M A) (k : A -> M B) (t : nat) (a : A) :
  result (m t) = Ok a ->
  result (bind m k t) = result (k a (endTick (m t)))
  /\ effects (bind m k t) = effects (m t) ++ effects (k a (endTick (m t))).
Proof. intros H. unfold bind. cbv zeta. rewrite H. now split. Qed.

Lemma removeOverlay_returns (t : nat) : result (removeOverlay env t) = Ok tt.
Proof.
  unfold removeOverlay, evaluate, tryCatch, bind, await, log.
  cbn [result endTick effects].
  destruct (getPage env t) as [[]|e]; cbn [result endTick effects];
    [|reflexivity].
  now destruct (runScript env (S t) RemoveOverlay) as [[]|e1].
Qed.

Lemma directions_differ (direction a b : jsstring) :
  str_eqb direction a = true -> str_eqb direction b = true ->
  str_eqb a b = false -> False.
Proof.
  intros Ha Hb Hab. apply class_eq in Ha, Hb. subst.
  rewrite (proj2 (class_eq b b) eq_refl) in Hab. discriminate.
Qed.

(** X28. [updateBorderOverlay] and [removeOverlay] never throw.  Without
    a page they run no script and log the exception; with a page they
    run their one script, and log its exception when it fails. *)
Theorem overlays_never_throw (active capturing : bool) (t : nat) :
  let border := updateBorderOverlay env active capturing t in
  let removal := removeOverlay env t in
  result border = Ok tt
  /\ result removal = Ok tt
  /\ match getPage env t with
     | Throw e =>
         scripts (effects border) = []
         /\ logged (effects border) = [BorderFailed e]
         /\ scripts (effects removal) = []
         /\ logged (effects removal) = [RemoveFailed e]
     | Ok _ =>
         scripts (effects border) = [UpdateBorder active capturing]
         /\ logged (effects border)
            = match runScript env (S t) (UpdateBorder active capturing) with
              | Throw e => [BorderFailed e]
              | Ok _ => []
              end
         /\ scripts (effects removal) = [RemoveOverlay]
         /\ logged (effects removal)
            = match runScript env (S t) RemoveOverlay with
              | Throw e => [RemoveFailed e]
              | Ok _ => []
              end
     end.
Proof.
  cbv zeta.
  unfold updateBorderOverlay, removeOverlay, evaluate, tryCatch, bind, await,
    log.
  cbn [result endTick effects].
  destruct (getPage env t) as [[]|e]; cbn [result endTick effects app].
  - destruct (runScript env (S t) (UpdateBorder active capturing)) as [[]|e1],
      (runScript env (S t) RemoveOverlay) as [[]|e2];
      cbn [result endTick effects app]; repeat split.
  - repeat split.
Qed.

(** X29. [scrollDocument] scrolls along one axis, and by nothing when it
    does not know the direction; a missing amount is 500.  It answers
    exactly when there is a page and its three scripts run, that of
    [removeOverlay] apart, and throws otherwise; an answer is never an
    error and tells the direction and the amount as they were given. *)
Theorem scrollDocument_outcomes (direction : jsstring) (amount : option Z)
    (t : nat) :
  let a := match amount with Some a => a | None => 500%Z end in
  let dx := fst (scrollDeltas direction a) in
  let dy := snd (scrollDeltas direction a) in
  let run := scrollDocument env direction amount t in
  (dx = 0 \/ dy = 0)%Z
  /\ (knownDirection direction = false -> dx = 0%Z /\ dy = 0%Z)
  /\ ((exists res, result run = Ok res) <->
      (getPage env t = Ok tt
       /\ runScript env (S t) (ScrollIndicator direction) = Ok tt
       /\ runScript env (S (S (S t))) (ShowOverlay (lit "Scrolling " ++ direction))
          = Ok tt
       /\ runScript env (S (S (S (S t)))) (ScrollBy dx dy) = Ok tt))
  /\ (forall res, result run = Ok res ->
        success (lit "Scrolled " ++ direction ++ lit " by "
                 ++ valueToString (VNumber a)) res
        /\ In (ScrollBy dx dy) (scripts (effects run))).
Proof.
  cbv zeta. set (a := match amount with Some a => a | None => 500%Z end).
  split; [|split].
  - unfold scrollDeltas. cbn [fst snd].
    destruct (str_eqb direction (lit "right")) eqn:Er,
             (str_eqb direction (lit "left")) eqn:El,
             (str_eqb direction (lit "down")) eqn:Ed,
             (str_eqb direction (lit "up")) eqn:Eu;
      try (left; reflexivity); try (right; reflexivity);
      exfalso;
      first [ apply (directions_differ direction _ _ Er Ed); reflexivity
            | apply (directions_differ direction _ _ Er Eu); reflexivity
            | apply (directions_differ direction _ _ El Ed); reflexivity
            | apply (directions_differ direction _ _ El Eu); reflexivity ].
  - unfold knownDirection, scrollDeltas. cbn [existsb fst snd]. intros H.
    repeat (apply orb_false_iff in H; destruct H as [? H]).
    repeat match goal with
           | E : str_eqb direction _ = false |- _ => rewrite E; clear E
           end.
    now split.
  - unfold scrollDocument. fold a.
    destruct (scrollDeltas direction a) as [dx dy]. cbn [fst snd].
    set (told := lit "Scrolled " ++ direction ++ lit " by "
                 ++ valueToString (VNumber a)).
    unfold showScrollIndicator, showOverlay, evaluate, sleep.
    match goal with
    | |- context [result ?r] => set (run := r)
    end.
    assert (H : match getPage env t with
                | Throw e => result run = Throw e
                | Ok _ =>
                  match runScript env (S t) (ScrollIndicator direction) with
                  | Throw e => result run = Throw e
                  | Ok _ =>
                    match runScript env (S (S (S t)))
                            (ShowOverlay (lit "Scrolling " ++ direction)) with
                    | Throw e => result run = Throw e
                    | Ok _ =>
                      match runScript env (S (S (S (S t)))) (ScrollBy dx dy) with
                      | Throw e => result run = Throw e
                      | Ok _ =>
                          (exists u,
                             result run
                             = Ok {| output := Some told; error := None;
                                     url := Some u |})
                          /\ In (ScrollBy dx dy) (scripts (effects run))
                      end
                    end
                  end
                end).
    { subst run.
      rewrite step_result, step_effects. cbv beta.
      destruct (getPage env t) as [[]|e0]; [|reflexivity].
      destruct (bind_assoc
                  (await (Evaluate (ScrollIndicator direction))
                     (fun t0 => runScript env t0 (ScrollIndicator direction)))
                  (fun _ => await (Sleep 500) (fun _ => Ok tt))
                  (fun _ =>
                     await (Evaluate (ShowOverlay (lit "Scrolling " ++ direction)))
                       (fun t0 => runScript env t0
                                    (ShowOverlay (lit "Scrolling " ++ direction)));;
                     await (Evaluate (ScrollBy dx dy))
                       (fun t0 => runScript env t0 (ScrollBy dx dy));;
                     await (Sleep 500) (fun _ => Ok tt);;
                     removeOverlay env;; done env told)
                  (S t)) as [-> ->].
      rewrite step_result, step_effects. cbv beta.
      destruct (runScript env (S t) (ScrollIndicator direction)) as [[]|e1];
        [|reflexivity].
      rewrite step_result, step_effects. cbv beta iota.
      rewrite step_result, step_effects. cbv beta.
      destruct (runScript env (S (S (S t)))
                  (ShowOverlay (lit "Scrolling " ++ direction))) as [[]|e2];
        [|reflexivity].
      rewrite step_result, step_effects. cbv beta.
      destruct (runScript env (S (S (S (S t)))) (ScrollBy dx dy)) as [[]|e3];
        [|reflexivity].
      split.
      - rewrite step_result. cbv beta iota.
        destruct (bind_returned (removeOverlay env) (fun _ => done env told)
                    (S (S (S (S (S (S t)))))) tt (removeOverlay_returns _))
          as [-> _].
        eexists. reflexivity.
      - unfold scripts. cbn [flat_map snd app]. right. right. now left. }
    split.
    + split.
      * intros [res Hres]. rewrite Hres in H.
        destruct (getPage env t) as [[]|]; [|discriminate].
        destruct (runScript env (S t) _) as [[]|]; [|discriminate].
        destruct (runScript env (S (S (S t))) _) as [[]|]; [|discriminate].
        destruct (runScript env (S (S (S (S t)))) _) as [[]|]; [|discriminate].
        repeat split.
      * intros (H0 & H1 & H2 & H3). rewrite H0, H1, H2, H3 in H.
        destruct H as [[u Hu] _]. eexists. exact Hu.
    + intros res Hres. rewrite Hres in H.
      destruct (getPage env t) as [[]|]; [|discriminate].
      destruct (runScript env (S t) _) as [[]|]; [|discriminate].
      destruct (runScript env (S (S (S t))) _) as [[]|]; [|discriminate].
      destruct (runScript env (S (S (S (S t)))) _) as [[]|]; [|discriminate].
      destruct H as [[u Hu] Hin]. split; [|exact Hin].
      exists u. now injection Hu.
Qed.

End Runs.

(** *** The tools at work *)

(** In a page in which everything works, [clickAt] clicks once, and
    [typeTextAt] clears the field, types and presses [Enter]; the label
    of a button is its text, trimmed, and without text its tag name. *)
Example tools_at_work :
  result (@clickAt plainRuntime unitNumbers fine (VNumber 500) (VNumber 250) 0)
  = Ok {| output := Some (lit "Clicked"); error := None;
          url := Some (lit "https://example.com/") |}
  /\ inputs (effects (@clickAt plainRuntime unitNumbers fine
                        (VNumber 500) (VNumber 250) 0))
     = [MouseClick (VNumber 500) (VNumber 250)]
  /\ inputs (effects (@typeTextAt plainRuntime unitNumbers fine
                        (VNumber 500) (VNumber 250) (lit "hello")
                        (VBool true) (VBool true) 0))
     = [MouseClick (VNumber 500) (VNumber 250);
        KeyPress (lit "Control+A"); KeyPress (lit "Backspace");
        KeyType (lit "hello"); KeyPress (lit "Enter")]
  /\ inputs (effects (@dragAndDrop plainRuntime unitNumbers fine
                        (VNumber 100) (VNumber 100) (VNumber 900) (VNumber 900) 0))
     = [MouseMove (VNumber 100) (VNumber 100); MouseDown;
        MouseMove (VNumber 900) (VNumber 900); MouseUp]
  /\ @labelOf plainRuntime loginButton = lit "Login"
  /\ @labelOf plainRuntime (withoutText loginButton) = lit "button".
Proof. repeat split; vm_compute; reflexivity. Qed.

(** When the mouse fails, the click was asked for and the answer is an
    error; when no script runs, nothing is asked of the mouse; without a
    page the tool throws. *)
Example tools_failing :
  result (@dragAndDrop plainRuntime unitNumbers stuck
            (VNumber 100) (VNumber 100) (VNumber 900) (VNumber 900) 0)
  = Ok (refused (lit "Failed to drag: Target closed"))
  /\ inputs (effects (@clickAt plainRuntime unitNumbers stuck
                        (VNumber 500) (VNumber 250) 0))
     = [MouseClick (VNumber 500) (VNumber 250)]
  /\ inputs (effects (@dragAndDrop plainRuntime unitNumbers frozen
                        (VNumber 100) (VNumber 100) (VNumber 900) (VNumber 900) 0))
     = []
  /\ result (@clickAt plainRuntime unitNumbers pageGone (VNumber 500)
               (VNumber 250) 0)
     = Throw (lit "Browser page not available")
  /\ result (@scrollDocument plainRuntime pageGone (lit "down") None 0)
     = Throw (lit "Browser page not available").
Proof. repeat split; vm_compute; reflexivity. Qed.

End ToolsFacts.
